(** * Redis rate limiter: a shallow embedding of the limiting strategies

    The TypeScript classes [FixedWindowStrategy], [TokenBucketStrategy],
    [ConcurrencyStrategy] and [Ratelimit] are embedded as state-passing
    functions over a model of the Redis keyspace.  Every Lua script that the
    classes submit through [redis.eval] is embedded as one function over the
    keyspace, which is what makes it a single indivisible step.

    Numbers are exact integers ([Z]): millisecond timestamps, counters and
    token counts.  Lua and JavaScript compute in IEEE doubles, which hold
    every integer below [2 ^ 53] in absolute value; on such integers sums,
    differences and products are exact as long as the result stays in that
    range, and [math.floor (a / b)], like JavaScript's [Math.floor (a / b)],
    is [Z.div] for a divisor that is not 0 (the rounded quotient of two
    such integers never reaches the next integer).  The embedding is the
    code on that range.  The one product of the code that leaves it for
    ordinary arguments is the refill [timePassed * refillRate] of the
    sliding-mode scripts: beyond [2 ^ 53] Lua rounds it, and for an interval
    of 0 its quotient is infinite.  Statements that give the refill its
    value carry [safe_integer] of the product and a positive interval as
    hypotheses ([lua_tokensToAdd] writes Lua's rounding out, and
    [refilled_as_lua_computes] shows that it is exact under them); what is
    stated without them (bounds, isolation, comparison of two decisions)
    does not depend on the value.  Windows and intervals are taken in
    milliseconds, as the
    constructors store them once [parseInterval] has read a string such as
    ["10 s"].  Every reading of [Date.now()] is an argument of the method
    that makes it, and the order in which the event loop settles the
    promises of a [Promise.all] is an argument of the method that awaits
    it. *)

From Stdlib Require Import ZArith String List Lia DecimalString.
From Stdlib Require Import Ascii DecimalPos DecimalZ.
From stdpp Require Import base gmap strings list fin_maps.

Open Scope Z_scope.

(** ** JavaScript errors and results *)

(** A thrown [Error] object: the class name it carries in [name] and its
    [message].  [instanceof RateLimitExceededError] is the test on [name]
    (src/errors/rateLimitExceededError.ts sets it in the constructor). *)
Record js_error := JsError { err_name : string; err_message : string }.

#[global] Instance js_error_eq_dec : EqDecision js_error.
Proof. solve_decision. Defined.

Definition Error (msg : string) : js_error := JsError "Error" msg.

Definition RateLimitExceededError (msg : string) : js_error :=
  JsError "RateLimitExceededError" msg.

Definition instanceof_RateLimitExceededError (e : js_error) : bool :=
  bool_decide (err_name e = "RateLimitExceededError").

(** interfaces/RateLimiterStrategy.ts: [RateLimiterResult].  [metadata] is
    only ever [{ currentConcurrentRequests }], kept as its number. *)
Record RateLimiterResult := mkResult {
  success : bool;
  remaining : Z;
  reset : Z;
  limit : Z;
  name : string;
  metadata : option Z
}.

(** Template-literal rendering of an integer ([`${n}`]). *)
Definition show (z : Z) : string := NilZero.string_of_int (Z.to_int z).

(** ** Effects: state passing with exceptions

    [Eff S A] is a computation over a state [S] that either throws a
    [js_error] or returns an [A]; an [async] method over the Redis client and
    a Lua script over the keyspace are both of this shape. *)
Definition Eff (S A : Type) : Type := S -> (js_error + A) * S.

Definition ret {S A} (a : A) : Eff S A := fun s => (inr a, s).

Definition throw {S A} (e : js_error) : Eff S A := fun s => (inl e, s).

Definition bind {S A B} (m : Eff S A) (k : A -> Eff S B) : Eff S B :=
  fun s => match m s with
           | (inr a, s') => k a s'
           | (inl e, s') => (inl e, s')
           end.

(** [try { m } catch (error) { h error }] *)
Definition try_catch {S A} (m : Eff S A) (h : js_error -> Eff S A) : Eff S A :=
  fun s => match m s with
           | (inr a, s') => (inr a, s')
           | (inl e, s') => h e s'
           end.

(** [try { m } finally { f }]: [f] runs on both exits; when [f] throws, its
    error replaces the outcome of [m]. *)
Definition try_finally {S A B} (m : Eff S A) (f : Eff S B) : Eff S A :=
  fun s => match m s with
           | (r, s') => match f s' with
                        | (inr _, s'') => (r, s'')
                        | (inl e, s'') => (inl e, s'')
                        end
           end.

Notation "x <- m ;; k" := (bind m (fun x => k))
  (at level 20, m at level 99, k at level 200, only parsing).
Notation "' pat <- m ;; k" := (bind m (fun x => match x with pat => k end))
  (at level 20, pat pattern, m at level 99, k at level 200, only parsing).

(** ** The Redis keyspace

    A key holds a string that is a decimal integer, or a hash of fields in
    insertion order (which is the order [HGETALL] lists them in), together
    with its time to live in milliseconds when one is set. *)
Inductive rvalue :=
| RString (n : Z)
| RHash (fields : list (string * Z)).

Record entry := Entry { value : rvalue; pttl : option Z }.

#[global] Instance rvalue_eq_dec : EqDecision rvalue.
Proof. solve_decision. Defined.

#[global] Instance entry_eq_dec : EqDecision entry.
Proof. solve_decision. Defined.

Abbreviation keyspace := (gmap string entry).

(** A Lua script runs over the keyspace alone. *)
Abbreviation Lua := (Eff keyspace).

Definition WRONGTYPE : js_error :=
  JsError "ReplyError"
    "WRONGTYPE Operation against a key holding the wrong kind of value".

Definition ERR_expire : js_error :=
  JsError "ReplyError" "ERR invalid expire time in 'set' command".

Definition ERR_arith : js_error :=
  JsError "ReplyError" "ERR attempt to perform arithmetic on a nil value".

(** The keyspace after [ms] milliseconds: times to live run down and a key
    whose time is up is gone. *)
Definition elapse (ms : Z) (d : keyspace) : keyspace :=
  omap (fun e => match pttl e with
                 | None => Some e
                 | Some t => if t - ms <=? 0 then None
                             else Some (Entry (value e) (Some (t - ms)))
                 end) d.

Module redis.

(** [GET key]: [None] is Lua's [false]. *)
Definition get (key : string) : Lua (option Z) := fun d =>
  match d !! key with
  | None => (inr None, d)
  | Some (Entry (RString n) _) => (inr (Some n), d)
  | Some (Entry (RHash _) _) => (inl WRONGTYPE, d)
  end.

(** [SET key v PX px] replaces whatever the key held. *)
Definition set_px (key : string) (v px : Z) : Lua unit := fun d =>
  if px <=? 0 then (inl ERR_expire, d)
  else (inr tt, <[key := Entry (RString v) (Some px)]> d).

(** [INCRBY key by]: a missing key counts from 0 and gets no expiry; an
    existing one keeps its time to live. *)
Definition incrby (key : string) (by_ : Z) : Lua Z := fun d =>
  match d !! key with
  | None => (inr by_, <[key := Entry (RString by_) None]> d)
  | Some (Entry (RString n) t) =>
      (inr (n + by_), <[key := Entry (RString (n + by_)) t]> d)
  | Some (Entry (RHash _) _) => (inl WRONGTYPE, d)
  end.

Definition incr (key : string) : Lua Z := incrby key 1.

Definition decr (key : string) : Lua Z := incrby key (-1).

(** [DEL key] answers the number of keys removed. *)
Definition del (key : string) : Lua Z := fun d =>
  match d !! key with
  | None => (inr 0, d)
  | Some _ => (inr 1, delete key d)
  end.

(** [PEXPIRE key ms]: 0 for a missing key; a timeout that is not positive
    deletes the key at once. *)
Definition pexpire (key : string) (ms : Z) : Lua Z := fun d =>
  match d !! key with
  | None => (inr 0, d)
  | Some (Entry v _) =>
      if ms <=? 0 then (inr 1, delete key d)
      else (inr 1, <[key := Entry v (Some ms)]> d)
  end.

(** [HGETALL key]: the empty table for a missing key. *)
Definition hgetall (key : string) : Lua (list (string * Z)) := fun d =>
  match d !! key with
  | None => (inr [], d)
  | Some (Entry (RHash fs) _) => (inr fs, d)
  | Some (Entry (RString _) _) => (inl WRONGTYPE, d)
  end.

(** One field of [HSET]: overwritten in place, or appended. *)
Fixpoint hset_field (f : string) (v : Z) (fs : list (string * Z))
  : list (string * Z) :=
  match fs with
  | [] => [(f, v)]
  | (g, w) :: rest =>
      if String.eqb f g then (g, v) :: rest
      else (g, w) :: hset_field f v rest
  end.

(** [HMSET key f1 v1 f2 v2] *)
Definition hmset (key : string) (f1 : string) (v1 : Z) (f2 : string) (v2 : Z)
  : Lua unit := fun d =>
  match d !! key with
  | None =>
      (inr tt, <[key := Entry (RHash (hset_field f2 v2 (hset_field f1 v1 []))) None]> d)
  | Some (Entry (RHash fs) t) =>
      (inr tt, <[key := Entry (RHash (hset_field f2 v2 (hset_field f1 v1 fs))) t]> d)
  | Some (Entry (RString _) _) => (inl WRONGTYPE, d)
  end.

End redis.

(** ** The Redis client (ioredis)

    The client reaches the keyspace unless the store is out of reach, in which
    case every command rejects with the adapter's error and the keyspace is
    not touched. *)
Record Redis := mkRedis { data : gmap string entry; outage : option js_error }.

Abbreviation Js := (Eff Redis).

(** [redis.eval(script, 1, key, ...)]: the script as one step. *)
Definition eval {A} (script : Lua A) : Js A := fun r =>
  match outage r with
  | Some e => (inl e, r)
  | None => match script (data r) with
            | (x, d) => (x, mkRedis d None)
            end
  end.

(** [redis.del(key)] *)
Definition del (key : string) : Js Z := eval (redis.del key).

(** What a Lua value becomes in the reply: a number is an integer reply,
    [true] is 1 and [false] is the null reply. *)
Inductive reply := Int (z : Z) | Nil.

Definition of_lua_boolean (b : bool) : reply := if b then Int 1 else Nil.

(** [x === 1] *)
Definition is_one (x : reply) : bool :=
  match x with
  | Int z => z =? 1
  | Nil => false
  end.

(** ** JavaScript built-ins used by the strategies

    Strings are byte strings in UTF-8.  A number is an exact integer or
    [NaN]. *)
Inductive number := Num (z : Z) | NaN.

Definition number_mul (a b : number) : number :=
  match a, b with
  | Num x, Num y => Num (x * y)
  | _, _ => NaN
  end.

Definition TypeError (msg : string) : js_error := JsError "TypeError" msg.

(** [s.split(sep)] for a one-character separator: never empty. *)
Fixpoint split (sep : ascii) (s : string) : list string :=
  match s with
  | EmptyString => [EmptyString]
  | String c s' =>
      if Ascii.eqb c sep then EmptyString :: split sep s'
      else match split sep s' with
           | part :: parts => String c part :: parts
           | [] => [String c EmptyString]
           end
  end.

(** [s.toLowerCase()] on the letters A to Z; other bytes are kept.  No
    character outside ASCII lowers to a string made of the letters that the
    unit table and the names inherited from [Object.prototype] are spelt
    with. *)
Definition lower (c : ascii) : ascii :=
  let n := N_of_ascii c in
  if ((65 <=? n) && (n <=? 90))%N then ascii_of_N (n + 32) else c.

Fixpoint toLowerCase (s : string) : string :=
  match s with
  | EmptyString => EmptyString
  | String c s' => String (lower c) (toLowerCase s')
  end.

(** The white space and line terminators that [parseInt] skips, in UTF-8:
    tab, LF, VT, FF, CR, space, U+00A0, U+1680, U+2000 to U+200A, U+2028,
    U+2029, U+202F, U+205F, U+3000 and U+FEFF. *)
Fixpoint trimStart (s : string) : string :=
  match s with
  | EmptyString => EmptyString
  | String c s1 =>
      if Ascii.is_space c then trimStart s1
      else
        match c, s1 with
        | "194"%char, String "160"%char s2 => trimStart s2
        | "225"%char, String "154"%char (String "128"%char s3) => trimStart s3
        | "226"%char, String "128"%char (String c3 s3) =>
            let n := N_of_ascii c3 in
            if (((128 <=? n) && (n <=? 138)) || (n =? 168) || (n =? 169)
                || (n =? 175))%N
            then trimStart s3 else s
        | "226"%char, String "129"%char (String "159"%char s3) => trimStart s3
        | "227"%char, String "128"%char (String "128"%char s3) => trimStart s3
        | "239"%char, String "187"%char (String "191"%char s3) => trimStart s3
        | _, _ => s
        end
  end.

(** The value of a character as a digit in the radix, if it is one. *)
Definition digit_value (radix : Z) (c : ascii) : option Z :=
  let n := Z.of_N (N_of_ascii c) in
  let v := if (48 <=? n) && (n <=? 57) then Some (n - 48)
           else if (97 <=? n) && (n <=? 122) then Some (n - 87)
           else if (65 <=? n) && (n <=? 90) then Some (n - 55)
           else None in
  match v with
  | Some d => if d <? radix then Some d else None
  | None => None
  end.

(** The longest run of digits at the head of [s], read left to right;
    [None] as long as no digit has been read. *)
Fixpoint parse_digits (radix : Z) (s : string) (acc : option Z) : option Z :=
  match s with
  | EmptyString => acc
  | String c s' =>
      match digit_value radix c with
      | Some d => parse_digits radix s' (Some (default 0 acc * radix + d))
      | None => acc
      end
  end.

(** [parseInt(s)] with no radix given: white space is skipped, a sign is
    read, [0x] or [0X] switches to radix 16, and what follows the digits is
    ignored; without a digit the answer is [NaN]. *)
Definition parseInt (s : string) : number :=
  let s := trimStart s in
  let '(sign, s) := match s with
                    | String "-"%char s' => (-1, s')
                    | String "+"%char s' => (1, s')
                    | _ => (1, s)
                    end in
  let '(radix, s) := match s with
                     | String "0"%char (String "x"%char s')
                     | String "0"%char (String "X"%char s') => (16, s')
                     | _ => (10, s)
                     end in
  match parse_digits radix s None with
  | Some n => Num (sign * n)
  | None => NaN
  end.

(** What [{ ms: 1, s: 1000, m: ..., h: ..., d: ... }[key] || 1000] is as a
    factor: the entry of the table, 1000 for a key that the object does not
    have, and [NaN] for the two lower-case names that every object inherits
    ([constructor] and [__proto__]), whose values are not numbers. *)
Definition multiplier_of (key : string) : number :=
  if String.eqb key "ms" then Num 1
  else if String.eqb key "s" then Num 1000
  else if String.eqb key "m" then Num (60 * 1000)
  else if String.eqb key "h" then Num (60 * 60 * 1000)
  else if String.eqb key "d" then Num (24 * 60 * 60 * 1000)
  else if String.eqb key "constructor" then NaN
  else if String.eqb key "__proto__" then NaN
  else Num 1000.

(** [parseInterval], the same private method in both window strategies:
    [unit] is undefined when the string has no space, and reading
    [toLowerCase] of it throws. *)
Definition parseInterval (interval : string) : js_error + number :=
  match split " " interval with
  | amount :: unit :: _ =>
      let multiplier := multiplier_of (toLowerCase unit) in
      inr (number_mul (parseInt amount) multiplier)
  | _ =>
      inl (TypeError
             "Cannot read properties of undefined (reading 'toLowerCase')")
  end.

(** [typeof interval === 'string' ? this.parseInterval(interval) : interval] *)
Definition interval_of (interval : string + Z) : js_error + number :=
  match interval with
  | inl text => parseInterval text
  | inr ms => inr (Num ms)
  end.

(** ** strategies/fixedWindowStrategy.ts *)
Module FixedWindowStrategy.

Record t := mk { maxRequests : Z; windowMs : Z; prefix : string }.

(** [now] is the reading of [Date.now()]. *)
Definition getKey (s : t) (now : Z) (identifier : string) : string :=
  prefix s +:+ "/fx/{" +:+ identifier +:+ "}/" +:+ show (now / windowMs s).

Definition script (key : string) (limit window : Z) : Lua (reply * Z * Z) :=
  count <- redis.incr key ;;
  _ <- (if count =? 1 then redis.pexpire key window else ret 0) ;;
  ret (of_lua_boolean (count <=? limit), limit - count, window).

(** [now] is read by [getKey], [now'] after the script has answered. *)
Definition isAllowed (s : t) (identifier : string) (now now' : Z)
  : Js RateLimiterResult :=
  let key := getKey s now identifier in
  '(success, remaining, _) <- eval (script key (maxRequests s) (windowMs s)) ;;
  ret (mkResult (is_one success) remaining
         (now' / 1000 + windowMs s / 1000)
         (maxRequests s) "FixedWindowStrategy" None).

Definition reset (s : t) (identifier : string) (now : Z) : Js unit :=
  let key := getKey s now identifier in
  _ <- del key ;;
  ret tt.

(** The constructor on an options object, [prefix ?? 'fixed-window:'], and
    the positional one of the other copy of the class, whose prefix defaults
    to the empty string. *)
Definition new (maxRequests window : Z) (prefix : option string) : t :=
  mk maxRequests window (default "fixed-window:" prefix).

Definition new_positional (maxRequests windowMs : Z) (prefix : option string) : t :=
  mk maxRequests windowMs (default "" prefix).

End FixedWindowStrategy.

(** ** strategies/tokenBucketStrategy.ts *)
Inductive WindowType := SLIDING | FIXED.

(** [bucket[2]] and [bucket[4]] of the flat table that [HGETALL] answers:
    the values of the first and of the second field. *)
Definition bucket_2 (bucket : list (string * Z)) : option Z :=
  snd <$> bucket !! 0%nat.

Definition bucket_4 (bucket : list (string * Z)) : option Z :=
  snd <$> bucket !! 1%nat.

Module TokenBucketStrategy.

Record t := mk {
  refillRate : Z;
  interval : Z;
  capacity : Z;
  prefix : string;
  takeRate : Z;
  windowType : WindowType
}.

(** The constructor with its defaults: [refillRate ?? capacity]. *)
Definition new (capacity interval : Z) (takeRate : option Z)
    (windowType : option WindowType) (refillRate : option Z)
    (prefix : option string) : t :=
  mk (default capacity refillRate) interval capacity
     (default "token-bucket:" prefix) (default 1 takeRate)
     (default FIXED windowType).

Definition getKey (s : t) (now : Z) (identifier : string) : string :=
  match windowType s with
  | FIXED =>
      let windowStart := now / interval s * interval s in
      prefix s +:+ "/bt/{" +:+ identifier +:+ "}/" +:+ show windowStart
  | SLIDING => prefix s +:+ identifier
  end.

Definition getCurrentWindow (s : t) (now : Z) : Z :=
  now / interval s * interval s.

Definition fixedWindowScript (key : string) (now capacity windowSize takeRate : Z)
  : Lua (reply * Z * Z) :=
  bucket <- redis.hgetall key ;;
  let tokens := default capacity (bucket_2 bucket) in
  let windowStart := default now (bucket_4 bucket) in
  if tokens <? takeRate then
    ret (Int 0, tokens, windowStart + windowSize)
  else
    let tokens := tokens - takeRate in
    _ <- redis.hmset key "tokens" tokens "windowStart" windowStart ;;
    _ <- redis.pexpire key windowSize ;;
    ret (Int 1, tokens, windowStart + windowSize).

(** With a record present, [tonumber(bucket[4])] of a hash that has one
    field only is nil and the subtraction [now - lastRefill] raises.
    [timePassed * refillRate / interval] is the exact floor of the quotient,
    which is what [math.floor (timePassed * refillRate / interval)] is for
    a product that a double holds exactly and an interval other than 0. *)
Definition slidingWindowScript (key : string)
    (now capacity interval refillRate takeRate : Z) : Lua (reply * Z * Z) :=
  bucket <- redis.hgetall key ;;
  '(tokens, lastRefill) <-
    (if (length bucket =? 0)%nat then ret (capacity, now)
     else match bucket_2 bucket, bucket_4 bucket with
          | Some tokens, Some lastRefill => ret (tokens, lastRefill)
          | _, _ => throw ERR_arith
          end) ;;
  let timePassed := now - lastRefill in
  let tokensToAdd := timePassed * refillRate / interval in
  let tokens := Z.min capacity (tokens + tokensToAdd) in
  if tokens <? takeRate then
    ret (Int 0, tokens, lastRefill + interval)
  else
    let tokens := tokens - takeRate in
    _ <- redis.hmset key "tokens" tokens "lastRefill" now ;;
    _ <- redis.pexpire key interval ;;
    ret (Int 1, tokens, now + interval).

(** [now_key] is the clock as [getKey] reads it, [now] the reading that
    follows it. *)
Definition isAllowed (s : t) (identifier : string) (now_key now : Z)
  : Js RateLimiterResult :=
  let key := getKey s now_key identifier in
  '(success, remaining, reset) <-
    match windowType s with
    | SLIDING =>
        eval (slidingWindowScript key now (capacity s) (interval s)
                (refillRate s) (takeRate s))
    | FIXED =>
        eval (fixedWindowScript key now (capacity s) (interval s) (takeRate s))
    end ;;
  ret (mkResult (is_one success) remaining reset (capacity s)
         "TokenBucketStrategy" None).

Definition reset (s : t) (identifier : string) (now : Z) : Js unit :=
  match windowType s with
  | FIXED =>
      let currentWindow := getCurrentWindow s now in
      let key := prefix s +:+ identifier +:+ ":" +:+ show currentWindow in
      _ <- del key ;;
      ret tt
  | SLIDING =>
      _ <- del (getKey s now identifier) ;;
      ret tt
  end.

Definition updateTokensFixed (key : string)
    (now capacity windowSize tokensToSubtract : Z) : Lua (reply * Z * Z) :=
  bucket <- redis.hgetall key ;;
  let tokens := default capacity (bucket_2 bucket) in
  let windowStart := default now (bucket_4 bucket) in
  if tokens <? tokensToSubtract then
    ret (Int 0, tokens, windowStart + windowSize)
  else
    let tokens := tokens - tokensToSubtract in
    _ <- redis.hmset key "tokens" tokens "windowStart" windowStart ;;
    _ <- redis.pexpire key windowSize ;;
    ret (Int 1, tokens, windowStart + windowSize).

Definition updateTokensSliding (key : string)
    (now capacity interval refillRate tokensToSubtract : Z)
  : Lua (reply * Z * Z) :=
  bucket <- redis.hgetall key ;;
  '(tokens, lastRefill) <-
    (if (length bucket =? 0)%nat then ret (capacity, now)
     else match bucket_2 bucket, bucket_4 bucket with
          | Some tokens, Some lastRefill => ret (tokens, lastRefill)
          | _, _ => throw ERR_arith
          end) ;;
  let timePassed := now - lastRefill in
  let tokensToAdd := timePassed * refillRate / interval in
  let tokens := Z.min capacity (tokens + tokensToAdd) in
  if tokens <? tokensToSubtract then
    ret (Int 0, tokens, lastRefill + interval)
  else
    let tokens := tokens - tokensToSubtract in
    _ <- redis.hmset key "tokens" tokens "lastRefill" now ;;
    _ <- redis.pexpire key interval ;;
    ret (Int 1, tokens, now + interval).

Definition updateTokens (s : t) (identifier : string) (tokensToSubtract : Z)
    (now_key now : Z) : Js RateLimiterResult :=
  let key := getKey s now_key identifier in
  '(success, remaining, reset) <-
    match windowType s with
    | SLIDING =>
        eval (updateTokensSliding key now (capacity s) (interval s)
                (refillRate s) tokensToSubtract)
    | FIXED =>
        eval (updateTokensFixed key now (capacity s) (interval s)
                tokensToSubtract)
    end ;;
  ret (mkResult (is_one success) remaining reset (capacity s)
         "TokenBucketStrategy" None).

End TokenBucketStrategy.

(** ** strategies/concurrencyStrategy.ts *)
Module ConcurrencyStrategy.

Record t := mk { maxConcurrentRequests : Z; timeout : Z; prefix : string }.

(** The constructor with its defaults. *)
Definition new (maxConcurrentRequests : Z) (timeout : option Z)
    (prefix : option string) : t :=
  mk maxConcurrentRequests (default 30000 timeout)
     (default "concurrency:" prefix).

Definition getKey (s : t) (identifier : string) : string :=
  prefix s +:+ "/cc/{" +:+ identifier +:+ "}/count".

Definition isAllowed_script (key : string) (max_concurrent timeout now : Z)
  : Lua (reply * Z * Z * Z) :=
  count <- redis.get key ;;
  match count with
  | None =>
      _ <- redis.set_px key 1 timeout ;;
      ret (Int 1, max_concurrent - 1, timeout, 1)
  | Some count =>
      if count >=? max_concurrent then
        ret (Int 0, 0, timeout, count)
      else
        new_count <- redis.incr key ;;
        _ <- redis.pexpire key timeout ;;
        ret (Int 1, max_concurrent - new_count, timeout, new_count)
  end.

Definition isAllowed (s : t) (identifier : string) (now : Z)
  : Js RateLimiterResult :=
  let key := getKey s identifier in
  try_catch
    ('(success, remaining, reset, currentCount) <-
       eval (isAllowed_script key (maxConcurrentRequests s) (timeout s) now) ;;
     ret (mkResult (is_one success) remaining (now + reset)
            (maxConcurrentRequests s) "ConcurrencyStrategy"
            (Some currentCount)))
    (fun error =>
       if instanceof_RateLimitExceededError error then throw error
       else throw (Error "Failed to check concurrency limit")).

Definition release_script (key : string) : Lua Z :=
  count <- redis.get key ;;
  match count with
  | None => ret 0
  | Some count =>
      if count <=? 1 then redis.del key
      else redis.decr key
  end.

Definition release (s : t) (identifier : string) : Js unit :=
  let key := getKey s identifier in
  _ <- eval (release_script key) ;;
  ret tt.

Definition reset (s : t) (identifier : string) : Js unit :=
  let key := getKey s identifier in
  _ <- del key ;;
  ret tt.

(** The body of [wrap] over the two methods of [this] that it calls. *)
Section wrap_body.
Context {W T : Type}.
Variable this_isAllowed : string -> Eff W RateLimiterResult.
Variable this_release : string -> Eff W unit.
Variable this_maxConcurrentRequests : Z.

Definition wrap_body (identifier : string) (fn : Eff W T) : Eff W T :=
  result <- this_isAllowed identifier ;;
  if negb (success result) then
    throw (RateLimitExceededError
             ("Concurrent requests limit exceeded. Current count: "
              +:+ show (remaining result)
              +:+ ", Limit: " +:+ show this_maxConcurrentRequests))
  else
    try_finally fn (this_release identifier).
End wrap_body.

Definition wrap {T} (s : t) (identifier : string) (now : Z) (fn : Js T)
  : Js T :=
  wrap_body (fun identifier => isAllowed s identifier now) (release s)
    (maxConcurrentRequests s) identifier fn.

End ConcurrencyStrategy.

(** ** interfaces/RateLimiterStrategy.ts and ratelimit.ts

    The composite knows its limiters through the interface only, so it is
    embedded over any state [W] the limiters act on. *)
Module RateLimiterStrategy.
Record t (W : Type) := mk {
  isAllowed : string -> Eff W RateLimiterResult;
  reset : string -> Eff W unit
}.
Arguments mk {W}.
Arguments isAllowed {W}.
Arguments reset {W}.
End RateLimiterStrategy.

Module Ratelimit.
Section over_a_state.
Context {W : Type}.

(** The [for ... of] loop of [isAllowed], on the limiters left to check
    and the results pushed so far. *)
Fixpoint isAllowed_loop (limiters : list (RateLimiterStrategy.t W))
    (identifier : string) (checkedLimiters : list RateLimiterResult)
  : Eff W (list RateLimiterResult) :=
  match limiters with
  | [] => ret checkedLimiters
  | limiter :: limiters' =>
      result <- RateLimiterStrategy.isAllowed limiter identifier ;;
      let checkedLimiters := checkedLimiters ++ [result] in
      if negb (success result) then ret checkedLimiters
      else isAllowed_loop limiters' identifier checkedLimiters
  end.

Definition isAllowed (limiters : list (RateLimiterStrategy.t W))
    (identifier : string) : Eff W (list RateLimiterResult) :=
  isAllowed_loop limiters identifier [].

(** [calls.map(call => call())]: every call is made, in order, and yields
    the promise of its outcome; the methods are [async], so that a failure
    is a rejected promise and stops nothing. *)
Fixpoint start_all {A} (calls : list (Eff W A)) (w : W)
  : list (js_error + A) * W :=
  match calls with
  | [] => ([], w)
  | call :: calls' =>
      match call w with
      | (p, w') => match start_all calls' w' with
                   | (ps, w'') => (p :: ps, w'')
                   end
      end
  end.

(** The rejection that comes first in time among the promises of an array
    that starts at index [i], with the time it settles at.  Which promise
    settles first is up to the event loop, not to its place in the array:
    [settles_at j] is the time at which the promise at index [j] settles.
    (Of two rejections given the same time the one that comes first in the
    array is taken.) *)
Fixpoint first_rejection {A} (settles_at : nat -> nat) (i : nat)
    (promises : list (js_error + A)) : option (nat * js_error) :=
  match promises with
  | [] => None
  | p :: promises' =>
      let later := first_rejection settles_at (S i) promises' in
      match p, later with
      | inr _, _ => later
      | inl e, Some (t, e') =>
          if Nat.ltb t (settles_at i) then Some (t, e')
          else Some (settles_at i, e)
      | inl e, None => Some (settles_at i, e)
      end
  end.

Fixpoint fulfilled {A} (promises : list (js_error + A)) : list A :=
  match promises with
  | [] => []
  | inr a :: promises' => a :: fulfilled promises'
  | inl _ :: promises' => fulfilled promises'
  end.

(** [Promise.all]: the values, in the order of the array, once every
    promise has fulfilled; as soon as one promise is rejected, the reason of
    that rejection. *)
Definition Promise_all {A} (settles_at : nat -> nat)
    (promises : list (js_error + A)) : js_error + list A :=
  match first_rejection settles_at 0 promises with
  | Some (_, e) => inl e
  | None => inr (fulfilled promises)
  end.

Definition reset (limiters : list (RateLimiterStrategy.t W))
    (identifier : string) (settles_at : nat -> nat) : Eff W unit := fun w =>
  match start_all
          (map (fun limiter => RateLimiterStrategy.reset limiter identifier)
             limiters) w with
  | (promises, w') =>
      match Promise_all settles_at promises with
      | inl e => (inl e, w')
      | inr _ => (inr tt, w')
      end
  end.
End over_a_state.
End Ratelimit.

(** ** The Express middleware of the example server

    The handler answers in one of three ways: it calls [next()], it calls
    [next(error)], or it replies with status 429.  [headers] are the
    rate-limit headers it has set on the response by then. *)
Inductive handled :=
| next (headers : gmap string string)
| next_error (error : js_error)
| status_429 (headers : gmap string string) (limiter : string) (retryAfter : Z).

(** [array.reduce(f)] with no initial value. *)
Definition reduce {A} (f : A -> A -> A) (array : list A) : js_error + A :=
  match array with
  | [] => inl (TypeError "Reduce of empty array with no initial value")
  | first :: rest => inr (fold_left f rest first)
  end.

(** The callback of the reduction:
    [(!curr.success || (prev.remaining > curr.remaining)) ? curr : prev]. *)
Definition more_restrictive (prev curr : RateLimiterResult) : RateLimiterResult :=
  if negb (success curr) || (remaining prev >? remaining curr) then curr else prev.

(** [res.set({...})] for one result. *)
Definition set_rate_limit_headers (headers : gmap string string)
    (result : RateLimiterResult) : gmap string string :=
  <["X-RateLimit-" +:+ name result +:+ "-Reset" := show (reset result)]>
    (<["X-RateLimit-" +:+ name result +:+ "-Remaining" := show (remaining result)]>
       (<["X-RateLimit-" +:+ name result +:+ "-Limit" := show (limit result)]>
          headers)).

(** [createRateLimitMiddleware(limiter)] on a request from [ip]; [now] is the
    clock as the 429 reply reads it. *)
Definition createRateLimitMiddleware {W} (limiter : list (RateLimiterStrategy.t W))
    (ip : option string) (now : Z) : Eff W handled :=
  try_catch
    (let identifier := match ip with
                       | Some ip => if String.eqb ip "" then "127.0.0.1" else ip
                       | None => "127.0.0.1"
                       end in
     results <- Ratelimit.isAllowed limiter identifier ;;
     mostRestrictive <- (fun w => (reduce more_restrictive results, w)) ;;
     let headers := fold_left set_rate_limit_headers results ∅ in
     if success mostRestrictive then ret (next headers)
     else ret (status_429 headers (name mostRestrictive)
                 (reset mostRestrictive - now)))
    (fun error => ret (next_error error)).

(** * Vocabulary of the properties *)

(** ** Reading the keyspace *)

(** The count a string key stands for: a missing key counts as 0. *)
Definition counter_of (d : keyspace) (key : string) : option Z :=
  match d !! key with
  | None => Some 0
  | Some (Entry (RString n) _) => Some n
  | Some (Entry (RHash _) _) => None
  end.

Definition ttl_of (d : keyspace) (key : string) : option Z :=
  d !! key ≫= pttl.

Ltac unfold_eff := unfold bind, ret, throw, try_catch, try_finally, eval in *.

(** An integer that a double holds exactly, with every integer up to it
    ([Number.isSafeInteger]).  A product within this range is computed
    exactly by Lua and by JavaScript, and its quotient by an integer other
    than 0 has the floor that [Z.div] gives. *)
Definition safe_integer (z : Z) : Prop := Z.abs z < 2 ^ 53.

(** Lua's arithmetic written out, for the one expression of the scripts
    that can leave the safe range: [math.floor (timePassed * refillRate /
    interval)].  A double has 53 significant bits, and an operation yields
    the double nearest to its exact result, the one with an even mantissa
    when two are as near.  At the magnitudes of safe integers there is no
    overflow and no subnormal number. *)

(** The integer nearest to [n / d], the even one of two, for [0 < d]. *)
Definition round_half_even (n d : Z) : Z :=
  let q := n / d in
  let r := n mod d in
  if 2 * r <? d then q
  else if d <? 2 * r then q + 1
  else if Z.even q then q else q + 1.

(** [floor (log2 (n / d))] for positive [n] and [d]. *)
Definition log2_quotient (n d : Z) : Z :=
  let s := Z.log2 n - Z.log2 d in
  if n * 2 ^ Z.max 0 (- s) <? d * 2 ^ Z.max 0 s then s - 1 else s.

(** The double nearest to [n / d] for positive [n] and [d], as its mantissa
    and exponent: it is [m * 2 ^ e] with [2 ^ 52 <= m <= 2 ^ 53]. *)
Definition nearest_double (n d : Z) : Z * Z :=
  let e := log2_quotient n d - 52 in
  (round_half_even (n * 2 ^ Z.max 0 (- e)) (d * 2 ^ Z.max 0 e), e).

(** [math.floor] of the double [m * 2 ^ e]. *)
Definition floor_double (m e : Z) : Z :=
  if 0 <=? e then m * 2 ^ e else m / 2 ^ (- e).

(** [math.floor (a / b)] for doubles [a] and [b] that are integers, [b] not
    0. *)
Definition lua_floor_div (a b : Z) : Z :=
  if a =? 0 then 0
  else
    let '(m, e) := nearest_double (Z.abs a) (Z.abs b) in
    floor_double (Z.sgn a * Z.sgn b * m) e.

(** [a * b] for doubles that are integers: the product rounded to a double,
    which is an integer again. *)
Definition lua_mul (a b : Z) : Z :=
  let p := a * b in
  if p =? 0 then 0
  else
    let '(m, e) := nearest_double (Z.abs p) 1 in
    Z.sgn p * floor_double m e.

Definition lua_tokensToAdd (timePassed refillRate interval : Z) : Z :=
  lua_floor_div (lua_mul timePassed refillRate) interval.

(** The bucket a sliding-mode script works on: the stored record, or a full
    bucket refilled [now] when the key is missing. *)
Definition sliding_record (d : keyspace) (key : string) (capacity now : Z)
    (tokens lastRefill : Z) : Prop :=
  match d !! key with
  | None => tokens = capacity /\ lastRefill = now
  | Some e => value e = RHash [("tokens", tokens); ("lastRefill", lastRefill)]
  end.

(** The token count after the refill for the time since [lastRefill]. *)
Definition refilled (capacity interval refillRate now tokens lastRefill : Z) : Z :=
  Z.min capacity (tokens + (now - lastRefill) * refillRate / interval).

(** A bucket record is a hash that leads with its ["tokens"] field, which is
    the field the scripts read back as [bucket[2]]. *)
Definition bucket_ok (capacity : Z) (e : entry) : Prop :=
  match value e with
  | RHash fs =>
      exists tokens rest, fs = ("tokens", tokens) :: rest /\ 0 <= tokens <= capacity
  | RString _ => True
  end.

Definition buckets_ok (capacity : Z) (d : keyspace) : Prop :=
  forall key e, d !! key = Some e -> bucket_ok capacity e.

(** The same for the record under one key. *)
Definition bucket_within (capacity : Z) (d : keyspace) (key : string) : Prop :=
  forall e, d !! key = Some e -> bucket_ok capacity e.

(** The token count a script would read from a key. *)
Definition stored_tokens (d : keyspace) (key : string) : option Z :=
  match d !! key with
  | Some (Entry (RHash fs) _) => bucket_2 fs
  | _ => None
  end.

(** The tokens a request can draw on: the stored count in fixed mode, the
    refilled count in sliding mode, the capacity for a missing record. *)
Definition available_tokens (s : TokenBucketStrategy.t) (d : keyspace)
    (key : string) (now : Z) : option Z :=
  match d !! key with
  | None => Some (TokenBucketStrategy.capacity s)
  | Some (Entry (RHash fs) _) =>
      match TokenBucketStrategy.windowType s with
      | FIXED => Some (default (TokenBucketStrategy.capacity s) (bucket_2 fs))
      | SLIDING =>
          match bucket_2 fs, bucket_4 fs with
          | Some tokens, Some lastRefill =>
              Some (refilled (TokenBucketStrategy.capacity s)
                      (TokenBucketStrategy.interval s)
                      (TokenBucketStrategy.refillRate s) now tokens lastRefill)
          | _, _ => None
          end
      end
  | Some (Entry (RString _) _) => None
  end.

(** The refill that a sliding-mode script computes on the record under
    [key] is within the range where the embedding is the script: the
    product of the time passed and the refill rate is a safe integer.
    Fixed mode computes no refill, and a missing record has had no time to
    refill. *)
Definition exact_refill (s : TokenBucketStrategy.t) (d : keyspace)
    (key : string) (now : Z) : Prop :=
  match TokenBucketStrategy.windowType s, d !! key with
  | SLIDING, Some (Entry (RHash fs) _) =>
      match bucket_4 fs with
      | Some lastRefill =>
          safe_integer ((now - lastRefill) * TokenBucketStrategy.refillRate s)
      | None => True
      end
  | _, _ => True
  end.

(** What can happen to the buckets of a token-bucket limiter. *)
Inductive bucket_op :=
| Decide (identifier : string) (now_key now : Z)
| Update (identifier : string) (amount : Z) (now_key now : Z)
| ResetBucket (identifier : string) (now : Z)
| ElapseBuckets (ms : Z).

Definition run_bucket_op (s : TokenBucketStrategy.t) (r : Redis) (op : bucket_op)
  : Redis :=
  match op with
  | Decide identifier now_key now =>
      (TokenBucketStrategy.isAllowed s identifier now_key now r).2
  | Update identifier amount now_key now =>
      (TokenBucketStrategy.updateTokens s identifier amount now_key now r).2
  | ResetBucket identifier now => (TokenBucketStrategy.reset s identifier now r).2
  | ElapseBuckets ms => mkRedis (elapse ms (data r)) (outage r)
  end.

Definition cost_ok (op : bucket_op) : Prop :=
  match op with
  | Update _ amount _ _ => 0 <= amount
  | _ => True
  end.

(** Every limiter of a list decides, in order, none left out: what
    "evaluating" a list of limiters means. *)
Fixpoint decide_each {W} (limiters : list (RateLimiterStrategy.t W))
    (identifier : string) : Eff W (list RateLimiterResult) :=
  match limiters with
  | [] => ret []
  | limiter :: limiters' =>
      result <- RateLimiterStrategy.isAllowed limiter identifier ;;
      results <- decide_each limiters' identifier ;;
      ret (result :: results)
  end.

Definition passes (result : RateLimiterResult) : Prop := success result = true.

(** The failure of the first limiter, in configuration order, whose reset
    fails. *)
Fixpoint first_failure {W} (limiters : list (RateLimiterStrategy.t W))
    (identifier : string) (w : W) : option js_error :=
  match limiters with
  | [] => None
  | limiter :: limiters' =>
      match RateLimiterStrategy.reset limiter identifier w with
      | (inl e, _) => Some e
      | (inr _, w') => first_failure limiters' identifier w'
      end
  end.

(** The outcomes of the resets of the limiters, one per limiter, in
    configuration order. *)
Definition reset_outcomes {W} (limiters : list (RateLimiterStrategy.t W))
    (identifier : string) (w : W) : list (js_error + unit) :=
  (Ratelimit.start_all
     (map (fun limiter => RateLimiterStrategy.reset limiter identifier)
        limiters) w).1.

(** The state once the limiter has been reset, whether that failed or not. *)
Definition after_reset {W} (identifier : string) (w : W)
    (limiter : RateLimiterStrategy.t W) : W :=
  (RateLimiterStrategy.reset limiter identifier w).2.

(** A stand-in limiter in the manner of the test suite's
    [createMockStrategy], over a log of the calls made: it answers a fixed
    result, and both methods leave their mark in the log. *)
Definition createMockStrategy (label : string) (result : RateLimiterResult)
    (resetFn : js_error + unit) : RateLimiterStrategy.t (list string) :=
  RateLimiterStrategy.mk
    (fun _ log => (inr result, log ++ ["isAllowed " +:+ label]))
    (fun _ log => (resetFn, log ++ ["reset " +:+ label])).

Definition mock_pass : RateLimiterResult :=
  mkResult true 10 3600000 10 "mock-strategy" None.

Definition mock_fail : RateLimiterResult :=
  mkResult false 0 1000 5 "mock-strategy" None.

Definition ECONNREFUSED : js_error :=
  JsError "Error" "connect ECONNREFUSED 127.0.0.1:6379".

(** The slot count of an identifier is between 0 and the limit; a missing
    record counts as 0. *)
Definition slots_ok (max : Z) (d : keyspace) (key : string) : Prop :=
  exists count, counter_of d key = Some count /\ 0 <= count <= max.

(** What can happen to the record of an identifier. *)
Inductive slot_op :=
| Acquire (now : Z)
| Release
| ResetSlots
| Elapse (ms : Z).

Definition run_slot_op (s : ConcurrencyStrategy.t) (identifier : string)
    (r : Redis) (op : slot_op) : Redis :=
  match op with
  | Acquire now => (ConcurrencyStrategy.isAllowed s identifier now r).2
  | Release => (ConcurrencyStrategy.release s identifier r).2
  | ResetSlots => (ConcurrencyStrategy.reset s identifier r).2
  | Elapse ms => mkRedis (elapse ms (data r)) (outage r)
  end.

(** A method with a spy on it: the call is noted in a log next to the
    state. *)
Definition spy {W A} (label : string) (m : Eff W A) : Eff (W * list string) A :=
  fun '(w, log) => match m w with
                   | (x, w') => (x, (w', log ++ [label]))
                   end.

(** What an operation answered, when it did not throw. *)
Definition answered {A B} (f : A -> B) (x : js_error + A) : option B :=
  match x with
  | inr a => Some (f a)
  | inl _ => None
  end.

Definition outcome (result : RateLimiterResult) : bool * Z :=
  (success result, remaining result).

(** Whether a character occurs in a string. *)
Fixpoint has_char (c : ascii) (s : string) : bool :=
  match s with
  | EmptyString => false
  | String c' s' => Ascii.eqb c c' || has_char c s'
  end.

(** A script or a method that leaves every key but [key] as it found it. *)
Definition touches_only {A} (key : string) (m : Lua A) : Prop :=
  forall (d : keyspace) k, k <> key -> (m d).2 !! k = d !! k.

Definition client_touches_only {A} (key : string) (m : Js A) : Prop :=
  forall (r : Redis) k, k <> key -> data (m r).2 !! k = data r !! k.

(** Decisions made one after the other, each with its two clock readings,
    and no time passing in the store between them: runs inside one fixed
    window, where a record, which lives for a window's length from its
    last write, cannot expire. *)
Definition fixed_window_run (s : FixedWindowStrategy.t) (identifier : string)
    (clocks : list (Z * Z)) (r : Redis) : Redis :=
  fold_left (fun r c => (FixedWindowStrategy.isAllowed s identifier c.1 c.2 r).2)
    clocks r.

Definition token_bucket_run (s : TokenBucketStrategy.t) (identifier : string)
    (clocks : list (Z * Z)) (r : Redis) : Redis :=
  fold_left (fun r c => (TokenBucketStrategy.isAllowed s identifier c.1 c.2 r).2)
    clocks r.

(** The store [ms] milliseconds later: the times to live have run down and
    the keys whose time was up are gone. *)
Definition later (ms : Z) (r : Redis) : Redis :=
  mkRedis (elapse ms (data r)) (outage r).

(** Clock readings that do not go back, the first one not before [last]. *)
Fixpoint in_order (last : Z) (clocks : list Z) : Prop :=
  match clocks with
  | [] => True
  | now :: clocks' => last <= now /\ in_order now clocks'
  end.

(** Operations made one after the other at the given clock readings, the
    store's clock running with them: [r] is the store at [t0], and before
    each operation the store is as many milliseconds older as the clock
    has moved on. *)
Fixpoint token_bucket_timed_run (s : TokenBucketStrategy.t)
    (identifier : string) (t0 : Z) (clocks : list Z) (r : Redis) : Redis :=
  match clocks with
  | [] => r
  | now :: clocks' =>
      token_bucket_timed_run s identifier now clocks'
        (TokenBucketStrategy.isAllowed s identifier now now
           (later (now - t0) r)).2
  end.

Fixpoint acquire_run (s : ConcurrencyStrategy.t) (identifier : string)
    (t0 : Z) (clocks : list Z) (r : Redis) : Redis :=
  match clocks with
  | [] => r
  | now :: clocks' =>
      acquire_run s identifier now clocks'
        (ConcurrencyStrategy.isAllowed s identifier now (later (now - t0) r)).2
  end.

(** The record under [key], if it has a time to live, lives on until
    [deadline] at least, [t] being the time of the store. *)
Definition alive_until (deadline t : Z) (d : keyspace) (key : string) : Prop :=
  forall e ttl, d !! key = Some e -> pttl e = Some ttl -> deadline - t <= ttl.

(** The bucket a fixed-mode script works on: the stored record, or a full
    bucket whose window starts [now] when the key is missing. *)
Definition fixed_record (d : keyspace) (key : string) (capacity now : Z)
    (tokens windowStart : Z) : Prop :=
  match d !! key with
  | None => tokens = capacity /\ windowStart = now
  | Some e => value e = RHash [("tokens", tokens); ("windowStart", windowStart)]
  end.

(** The token count a script reads, the capacity standing for a missing
    record, for a record that leads with its ["tokens"] field. *)
Definition leading_tokens (d : keyspace) (key : string) (capacity tokens : Z)
  : Prop :=
  match d !! key with
  | None => tokens = capacity
  | Some e => exists rest, value e = RHash (("tokens", tokens) :: rest)
  end.

(** Clock readings each of which follows the one before it (the first one
    follows [last]) by less than an interval, so that the record written at
    the one is still there at the next, and by less than the time one token
    takes to refill. *)
Fixpoint closely_spaced (refillRate interval last : Z) (clocks : list Z) : Prop :=
  match clocks with
  | [] => True
  | now :: clocks' =>
      0 <= now - last < interval
      /\ 0 <= (now - last) * refillRate < interval
      /\ closely_spaced refillRate interval now clocks'
  end.

(** * Properties *)

(** ** Fixed window *)

Lemma fixed_window_script_spec key limit window (d : keyspace) c :
  0 < window ->
  counter_of d key = Some c ->
  FixedWindowStrategy.script key limit window d =
    (inr (of_lua_boolean (c + 1 <=? limit), limit - (c + 1), window),
     <[key := Entry (RString (c + 1))
                (if c =? 0 then Some window else ttl_of d key)]> d).
Proof.
  intros Hw Hc.
  unfold FixedWindowStrategy.script, redis.incr, redis.incrby, redis.pexpire.
  unfold counter_of, ttl_of in *. unfold_eff.
  destruct (d !! key) as [[[n|fs] t]|] eqn:E; simplify_eq/=.
  - destruct (Z.eqb_spec (c + 1) 1) as [H1|H1].
    + rewrite lookup_insert_eq.
      replace (window <=? 0) with false by lia.
      replace (c =? 0) with true by lia.
      by rewrite insert_insert_eq.
    + by replace (c =? 0) with false by lia.
  - rewrite lookup_insert_eq.
    replace (window <=? 0) with false by lia.
    by rewrite insert_insert_eq.
Qed.

(** C2. A fixed-window decision is one step on the counter of the current
    window: the counter goes from [c] (0 when the key is missing) to [c + 1],
    its expiry is set to the window length when that is the first write and
    is kept otherwise, the call succeeds iff [c + 1 <= maxRequests], and
    [remaining] is [maxRequests - (c + 1)], which is below zero once the
    limit is passed.  With [maxRequests = 0] the first decision of a window
    is rejected. *)
Theorem fixed_window_decide (s : FixedWindowStrategy.t) identifier now now'
    (d : keyspace) c :
  0 < FixedWindowStrategy.windowMs s ->
  counter_of d (FixedWindowStrategy.getKey s now identifier) = Some c ->
  let key := FixedWindowStrategy.getKey s now identifier in
  let max := FixedWindowStrategy.maxRequests s in
  exists result,
    FixedWindowStrategy.isAllowed s identifier now now' (mkRedis d None) =
      (inr result,
       mkRedis (<[key := Entry (RString (c + 1))
                          (if c =? 0 then Some (FixedWindowStrategy.windowMs s)
                           else ttl_of d key)]> d) None)
    /\ (success result = true <-> c + 1 <= max)
    /\ remaining result = max - (c + 1)
    /\ (max < c + 1 -> remaining result < 0)
    /\ limit result = max
    /\ (max = 0 -> c = 0 -> success result = false).
Proof.
  intros Hw Hc key max.
  unfold FixedWindowStrategy.isAllowed. unfold_eff. cbn [outage data].
  fold key. rewrite (fixed_window_script_spec _ _ _ _ c Hw Hc).
  eexists; split; [reflexivity|]. cbn [success remaining limit].
  fold max. repeat split.
  - destruct (Z.leb_spec (c + 1) max); cbn; [lia | discriminate].
  - destruct (Z.leb_spec (c + 1) max); cbn; [reflexivity | lia].
  - lia.
  - intros -> ->. reflexivity.
Qed.

Lemma fixed_window_decide_witness :
  exists result,
    FixedWindowStrategy.isAllowed (FixedWindowStrategy.mk 0 1000 "") "test-user"
      5000 5001 (mkRedis ∅ None) =
      (inr result,
       mkRedis (<["/fx/{test-user}/5" := Entry (RString 1) (Some 1000)]> ∅) None)
    /\ success result = false
    /\ remaining result = -1.
Proof.
  destruct (fixed_window_decide (FixedWindowStrategy.mk 0 1000 "") "test-user"
              5000 5001 ∅ 0) as (result & Hrun & _ & Hrem & _ & _ & Hzero).
  - reflexivity.
  - reflexivity.
  - exists result. split; [exact Hrun|]. split; [by apply Hzero | exact Hrem].
Defined.

(** ** Token bucket, sliding mode *)

Lemma sliding_script_spec key now capacity interval refillRate takeRate
    (d : keyspace) tokens lastRefill :
  0 < interval ->
  sliding_record d key capacity now tokens lastRefill ->
  let available := refilled capacity interval refillRate now tokens lastRefill in
  TokenBucketStrategy.slidingWindowScript key now capacity interval refillRate
    takeRate d =
    if available <? takeRate then
      (inr (Int 0, available, lastRefill + interval), d)
    else
      (inr (Int 1, available - takeRate, now + interval),
       <[key := Entry (RHash [("tokens", available - takeRate);
                              ("lastRefill", now)])
                  (Some interval)]> d).
Proof.
  intros Hi Hrec available. subst available.
  unfold TokenBucketStrategy.slidingWindowScript, redis.hgetall, redis.hmset,
    redis.pexpire, sliding_record, refilled in *.
  unfold_eff.
  destruct (d !! key) as [[v t]|] eqn:E; cbn [value] in Hrec.
  - subst v. cbn.
    destruct (_ <? takeRate); [reflexivity|].
    rewrite E. cbn. rewrite lookup_insert_eq.
    replace (interval <=? 0) with false by lia.
    by rewrite insert_insert_eq.
  - destruct Hrec as [-> ->]. cbn.
    destruct (_ <? takeRate); [reflexivity|].
    rewrite E. cbn. rewrite lookup_insert_eq.
    replace (interval <=? 0) with false by lia.
    by rewrite insert_insert_eq.
Qed.



(** ** Token bucket: the capacity invariant *)

Lemma buckets_ok_empty capacity : buckets_ok capacity ∅.
Proof. intros key e H. by rewrite lookup_empty in H. Qed.

Lemma buckets_ok_insert capacity (d : keyspace) key e :
  buckets_ok capacity d -> bucket_ok capacity e ->
  buckets_ok capacity (<[key := e]> d).
Proof.
  intros Hd He k e' Hk. rewrite lookup_insert in Hk.
  case_decide; simplify_eq; eauto.
Qed.

Lemma buckets_ok_delete capacity (d : keyspace) key :
  buckets_ok capacity d -> buckets_ok capacity (delete key d).
Proof.
  intros Hd k e Hk. rewrite lookup_delete in Hk.
  case_decide; simplify_eq; eauto.
Qed.

Lemma buckets_ok_elapse capacity (d : keyspace) ms :
  buckets_ok capacity d -> buckets_ok capacity (elapse ms d).
Proof.
  intros Hd k e Hk. unfold elapse in Hk. rewrite lookup_omap in Hk.
  destruct (d !! k) as [e0|] eqn:E; [|done]. cbn in Hk.
  specialize (Hd _ _ E). destruct e0 as [v [t|]]; cbn in Hk.
  - destruct (t - ms <=? 0); simplify_eq. exact Hd.
  - by simplify_eq.
Qed.

Lemma buckets_ok_stored capacity (d : keyspace) key tokens :
  buckets_ok capacity d -> stored_tokens d key = Some tokens ->
  0 <= tokens <= capacity.
Proof.
  intros Hd. unfold stored_tokens.
  destruct (d !! key) as [[[n|fs] t]|] eqn:E; try done.
  destruct (Hd _ _ E) as (tk & rest & -> & Hb). cbn. by intros [= <-].
Qed.

Lemma buckets_ok_pexpire capacity (d : keyspace) key ms :
  buckets_ok capacity d -> buckets_ok capacity (redis.pexpire key ms d).2.
Proof.
  intros Hd. unfold redis.pexpire.
  destruct (d !! key) as [[v t]|] eqn:E; [|done].
  destruct (ms <=? 0); cbn.
  - by apply buckets_ok_delete.
  - apply buckets_ok_insert; [done|]. exact (Hd _ _ E).
Qed.

Lemma buckets_ok_hmset capacity (d : keyspace) key tokens f v :
  f <> "tokens" ->
  0 <= tokens <= capacity ->
  buckets_ok capacity d ->
  buckets_ok capacity (redis.hmset key "tokens" tokens f v d).2.
Proof.
  intros Hf Hb Hd. unfold redis.hmset.
  destruct (d !! key) as [[[n|fs] t]|] eqn:E; cbn; [done| |].
  - apply buckets_ok_insert; [done|].
    destruct (Hd _ _ E) as (tk & rest & -> & _). cbn.
    destruct (String.eqb_spec f "tokens"); [done|]. eauto.
  - apply buckets_ok_insert; [done|]. cbn.
    destruct (String.eqb_spec f "tokens"); [done|]. eauto.
Qed.

Lemma fixed_script_invariant key now capacity windowSize takeRate (d : keyspace) :
  0 <= takeRate ->
  buckets_ok capacity d ->
  buckets_ok capacity
    (TokenBucketStrategy.fixedWindowScript key now capacity windowSize takeRate d).2.
Proof.
  intros Hcost Hd. unfold TokenBucketStrategy.fixedWindowScript, redis.hgetall.
  unfold_eff.
  assert (Hrun : forall tokens windowStart,
    0 <= tokens - takeRate <= capacity ->
    buckets_ok capacity
      (let (s0, s') :=
         redis.hmset key "tokens" (tokens - takeRate) "windowStart" windowStart d in
       match s0 with
       | inl e => (inl e, s')
       | inr _ =>
           let (s1, s'0) := redis.pexpire key windowSize s' in
           match s1 with
           | inl e => (inl e, s'0)
           | inr _ =>
               (inr (Int 1, tokens - takeRate, windowStart + windowSize), s'0)
           end
       end).2).
  { intros tokens windowStart Hb.
    pose proof (buckets_ok_hmset capacity d key (tokens - takeRate)
                  "windowStart" windowStart ltac:(done) Hb Hd) as H1.
    destruct (redis.hmset _ _ _ _ _ d) as [[e|[]] d1]; [exact H1|].
    pose proof (buckets_ok_pexpire capacity d1 key windowSize H1) as H2.
    destruct (redis.pexpire key windowSize d1) as [[e|z] d2]; exact H2. }
  destruct (d !! key) as [[[n|fs] t]|] eqn:E; cbn; [done| |].
  - destruct (Hd _ _ E) as (tk & rest & -> & Hb). cbn.
    destruct (Z.ltb_spec tk takeRate); [done|]. apply Hrun. lia.
  - destruct (Z.ltb_spec capacity takeRate); [done|]. apply Hrun. lia.
Qed.

Lemma sliding_script_invariant key now capacity interval refillRate takeRate
    (d : keyspace) :
  0 <= takeRate ->
  buckets_ok capacity d ->
  buckets_ok capacity
    (TokenBucketStrategy.slidingWindowScript key now capacity interval
       refillRate takeRate d).2.
Proof.
  intros Hcost Hd. unfold TokenBucketStrategy.slidingWindowScript, redis.hgetall.
  unfold_eff.
  assert (Hrun : forall tokens lastRefill,
    buckets_ok capacity
      ((if Z.min capacity (tokens + (now - lastRefill) * refillRate / interval)
            <? takeRate
        then fun s : keyspace =>
               (inr (Int 0,
                     Z.min capacity
                       (tokens + (now - lastRefill) * refillRate / interval),
                     lastRefill + interval), s)
        else fun s : keyspace =>
          let (s0, s') :=
            redis.hmset key "tokens"
              (Z.min capacity
                 (tokens + (now - lastRefill) * refillRate / interval) - takeRate)
              "lastRefill" now s in
          match s0 with
          | inl e => (inl e, s')
          | inr _ =>
              let (s1, s'0) := redis.pexpire key interval s' in
              match s1 with
              | inl e => (inl e, s'0)
              | inr _ =>
                  (inr (Int 1,
                        Z.min capacity
                          (tokens + (now - lastRefill) * refillRate / interval)
                        - takeRate,
                        now + interval), s'0)
              end
          end) d).2).
  { intros tokens lastRefill.
    destruct (Z.ltb_spec
                (Z.min capacity
                   (tokens + (now - lastRefill) * refillRate / interval))
                takeRate) as [Hlt|Hge]; [done|].
    pose proof (buckets_ok_hmset capacity d key
                  (Z.min capacity
                     (tokens + (now - lastRefill) * refillRate / interval)
                   - takeRate)
                  "lastRefill" now ltac:(done) ltac:(lia) Hd) as H1.
    destruct (redis.hmset _ _ _ _ _ d) as [[e|[]] d1]; [exact H1|].
    pose proof (buckets_ok_pexpire capacity d1 key interval H1) as H2.
    destruct (redis.pexpire key interval d1) as [[e|z] d2]; exact H2. }
  destruct (d !! key) as [[[n|fs] t]|] eqn:E; cbn; [done| |].
  - destruct (length fs =? 0)%nat; [apply Hrun|].
    destruct (bucket_2 fs); [|done]. destruct (bucket_4 fs); [|done].
    apply Hrun.
  - apply Hrun.
Qed.

(** The update scripts against the decision scripts. *)
Lemma updateTokensFixed_script key now capacity windowSize amount :
  TokenBucketStrategy.updateTokensFixed key now capacity windowSize amount =
  TokenBucketStrategy.fixedWindowScript key now capacity windowSize amount.
Proof. reflexivity. Qed.

Lemma updateTokensSliding_script key now capacity interval refillRate amount :
  TokenBucketStrategy.updateTokensSliding key now capacity interval refillRate
    amount =
  TokenBucketStrategy.slidingWindowScript key now capacity interval refillRate
    amount.
Proof. reflexivity. Qed.

Lemma eval_invariant {A} (P : keyspace -> Prop) (script : Lua A) (r : Redis) :
  (forall d, P d -> P (script d).2) ->
  P (data r) -> P (data (eval script r).2).
Proof.
  intros Hs Hr. unfold eval. destruct (outage r); [done|].
  specialize (Hs _ Hr). by destruct (script (data r)).
Qed.

(** A continuation that only builds the answer leaves the state alone. *)
Lemma bind_pure_state {S A B} (m : Eff S A) (k : A -> Eff S B) (s : S) :
  (forall a s', (k a s').2 = s') ->
  (bind m k s).2 = (m s).2.
Proof. intros Hk. unfold bind. destruct (m s) as [[e|a] s']; [done|apply Hk]. Qed.

Lemma token_isAllowed_invariant (s : TokenBucketStrategy.t) identifier now_key
    now (r : Redis) :
  0 <= TokenBucketStrategy.takeRate s ->
  buckets_ok (TokenBucketStrategy.capacity s) (data r) ->
  buckets_ok (TokenBucketStrategy.capacity s)
    (data (TokenBucketStrategy.isAllowed s identifier now_key now r).2).
Proof.
  intros Hcost Hr. unfold TokenBucketStrategy.isAllowed.
  rewrite bind_pure_state by (by intros [[? ?] ?] ?).
  destruct (TokenBucketStrategy.windowType s);
    apply (eval_invariant (buckets_ok (TokenBucketStrategy.capacity s)));
    auto using fixed_script_invariant, sliding_script_invariant.
Qed.

Lemma token_updateTokens_invariant (s : TokenBucketStrategy.t) identifier amount
    now_key now (r : Redis) :
  0 <= amount ->
  buckets_ok (TokenBucketStrategy.capacity s) (data r) ->
  buckets_ok (TokenBucketStrategy.capacity s)
    (data (TokenBucketStrategy.updateTokens s identifier amount now_key now r).2).
Proof.
  intros Hcost Hr. unfold TokenBucketStrategy.updateTokens.
  rewrite bind_pure_state by (by intros [[? ?] ?] ?).
  destruct (TokenBucketStrategy.windowType s);
    apply (eval_invariant (buckets_ok (TokenBucketStrategy.capacity s)));
    auto; intros d Hd.
  - rewrite updateTokensSliding_script. by apply sliding_script_invariant.
  - rewrite updateTokensFixed_script. by apply fixed_script_invariant.
Qed.

Lemma token_reset_invariant (s : TokenBucketStrategy.t) identifier now (r : Redis) :
  buckets_ok (TokenBucketStrategy.capacity s) (data r) ->
  buckets_ok (TokenBucketStrategy.capacity s)
    (data (TokenBucketStrategy.reset s identifier now r).2).
Proof.
  intros Hr. unfold TokenBucketStrategy.reset, del.
  destruct (TokenBucketStrategy.windowType s);
    (rewrite bind_pure_state by done);
    apply (eval_invariant (buckets_ok (TokenBucketStrategy.capacity s)));
    auto; intros d Hd; unfold redis.del;
    (destruct (d !! _); [by apply buckets_ok_delete | done]).
Qed.

Lemma refilled_now capacity interval refillRate now :
  refilled capacity interval refillRate now capacity now = capacity.
Proof.
  unfold refilled. rewrite Z.sub_diag, Z.mul_0_l, Zdiv_0_l. lia.
Qed.

(** A request for more than is available is turned down and nothing is
    written. *)
Lemma updateTokens_rejects (s : TokenBucketStrategy.t) identifier amount
    now_key now (d : keyspace) available :
  available_tokens s d (TokenBucketStrategy.getKey s now_key identifier) now
    = Some available ->
  available < amount ->
  exists result,
    TokenBucketStrategy.updateTokens s identifier amount now_key now
      (mkRedis d None) = (inr result, mkRedis d None)
    /\ success result = false
    /\ remaining result = available.
Proof.
  intros Hav Hlt. unfold TokenBucketStrategy.updateTokens, available_tokens in *.
  set (key := TokenBucketStrategy.getKey s now_key identifier) in *.
  unfold TokenBucketStrategy.updateTokensSliding,
    TokenBucketStrategy.updateTokensFixed, redis.hgetall.
  destruct (d !! key) as [[[n|fs] t]|] eqn:E; [done| |];
    destruct (TokenBucketStrategy.windowType s);
    unfold_eff; cbn [outage data]; rewrite E; cbv beta iota.
  - destruct (bucket_2 fs) as [tk|] eqn:E2; [|done].
    destruct (bucket_4 fs) as [lr|] eqn:E4; [|done].
    injection Hav as <-. unfold refilled in *.
    assert ((length fs =? 0)%nat = false) as ->.
    { destruct fs; [done|]. reflexivity. }
    cbv beta iota. replace (_ <? amount) with true by lia.
    eexists. split; [reflexivity|]. done.
  - injection Hav as <-. cbn.
    replace (_ <? amount) with true by lia.
    eexists. split; [reflexivity|]. done.
  - injection Hav as <-. cbn.
    fold (refilled (TokenBucketStrategy.capacity s)
            (TokenBucketStrategy.interval s)
            (TokenBucketStrategy.refillRate s) now
            (TokenBucketStrategy.capacity s) now).
    rewrite refilled_now.
    replace (_ <? amount) with true by lia.
    eexists. split; [reflexivity|]. done.
  - injection Hav as <-. cbn.
    replace (_ <? amount) with true by lia.
    eexists. split; [reflexivity|]. done.
Qed.

(** X27. The invariant along any run of decisions, updates, resets and
    expiries that starts from an empty store: every stored bucket keeps
    [0 <= tokens <= capacity]. *)
Lemma token_buckets_bounded (s : TokenBucketStrategy.t) ops :
  0 <= TokenBucketStrategy.takeRate s ->
  Forall cost_ok ops ->
  buckets_ok (TokenBucketStrategy.capacity s)
    (data (fold_left (run_bucket_op s) ops (mkRedis ∅ None))).
Proof.
  intros Htake.
  assert (H0 : buckets_ok (TokenBucketStrategy.capacity s) (data (mkRedis ∅ None)))
    by apply buckets_ok_empty.
  revert H0. generalize (mkRedis ∅ None).
  induction ops as [|op ops IH]; intros r Hr Hops; [done|].
  inversion Hops as [|? ? Hop Hops']; subst. cbn [fold_left]. apply IH; [|done].
  destruct op as [identifier now_key now|identifier amount now_key now
                 |identifier now|ms]; cbn [run_bucket_op].
  - by apply token_isAllowed_invariant.
  - by apply token_updateTokens_invariant.
  - by apply token_reset_invariant.
  - by apply buckets_ok_elapse.
Qed.

(** C6. [updateTokens identifier amount] is the decision with [amount] in the
    place of the configured [takeRate]: the same result and the same store
    afterwards (also when the store fails), in both modes; the scripts it
    submits are the decision scripts at cost [amount], and it does not go
    through [isAllowed]. *)
Theorem updateTokens_is_decide_at_amount (s : TokenBucketStrategy.t) identifier
    amount now_key now (r : Redis) :
  let s_amount :=
    TokenBucketStrategy.mk (TokenBucketStrategy.refillRate s)
      (TokenBucketStrategy.interval s) (TokenBucketStrategy.capacity s)
      (TokenBucketStrategy.prefix s) amount (TokenBucketStrategy.windowType s) in
  TokenBucketStrategy.updateTokens s identifier amount now_key now r =
    TokenBucketStrategy.isAllowed s_amount identifier now_key now r
  /\ (forall key capacity windowSize (d : keyspace),
        TokenBucketStrategy.updateTokensFixed key now capacity windowSize amount d
        = TokenBucketStrategy.fixedWindowScript key now capacity windowSize
            amount d)
  /\ (forall key capacity interval refillRate (d : keyspace),
        TokenBucketStrategy.updateTokensSliding key now capacity interval
          refillRate amount d
        = TokenBucketStrategy.slidingWindowScript key now capacity interval
            refillRate amount d).
Proof.
  intros s_amount. split; [|split].
  - unfold TokenBucketStrategy.updateTokens, TokenBucketStrategy.isAllowed,
      TokenBucketStrategy.getKey.
    subst s_amount. cbn [TokenBucketStrategy.windowType
      TokenBucketStrategy.capacity TokenBucketStrategy.interval
      TokenBucketStrategy.refillRate TokenBucketStrategy.takeRate
      TokenBucketStrategy.prefix].
    destruct (TokenBucketStrategy.windowType s); reflexivity.
  - intros. by rewrite updateTokensFixed_script.
  - intros. by rewrite updateTokensSliding_script.
Qed.

(** ** The composite limiter *)

Section composite.
Context {W : Type}.
Implicit Types (limiters : list (RateLimiterStrategy.t W)) (w : W).

Lemma decide_each_length limiters identifier w results w' :
  decide_each limiters identifier w = (inr results, w') ->
  length results = length limiters.
Proof.
  revert w results w'. induction limiters as [|l ls IH]; intros w results w'.
  - cbn. unfold ret. by intros [= <- <-].
  - cbn. unfold_eff.
    destruct (RateLimiterStrategy.isAllowed l identifier w) as [[e|r] w1];
      [done|].
    destruct (decide_each ls identifier w1) as [[e|rs] w2] eqn:E; [done|].
    intros [= <- <-]. cbn. f_equal. eauto.
Qed.

Lemma isAllowed_loop_spec limiters identifier :
  forall checked w,
  exists evaluated skipped,
    limiters = evaluated ++ skipped
    /\ Ratelimit.isAllowed_loop limiters identifier checked w
       = bind (decide_each evaluated identifier)
           (fun results => ret (checked ++ results)) w
    /\ forall results w',
         decide_each evaluated identifier w = (inr results, w') ->
         (exists passed failed,
             results = passed ++ [failed]
             /\ Forall passes passed
             /\ success failed = false
             /\ forall others,
                  Ratelimit.isAllowed_loop (evaluated ++ others) identifier
                    checked w
                  = (inr (checked ++ results), w'))
         \/ (skipped = [] /\ Forall passes results).
Proof.
  induction limiters as [|l ls IH]; intros checked w.
  - exists [], []. split; [done|]. split.
    + cbn. unfold_eff. by rewrite app_nil_r.
    + cbn. unfold ret. intros results w' [= <- <-]. right. by split.
  - cbn [Ratelimit.isAllowed_loop]. unfold bind at 1.
    destruct (RateLimiterStrategy.isAllowed l identifier w) as [[e|r] w1] eqn:El.
    + exists [l], ls. split; [done|]. split.
      * cbn. unfold_eff. by rewrite El.
      * cbn. unfold_eff. rewrite El. done.
    + destruct (success r) eqn:Er; cbn [negb].
      * destruct (IH (checked ++ [r]) w1)
          as (evaluated & skipped & -> & Hrun & Hres).
        exists (l :: evaluated), skipped. split; [done|]. split.
        -- rewrite Hrun. cbn. unfold_eff. rewrite El.
           destruct (decide_each evaluated identifier w1) as [[e|rs] w2];
             [done|]. by rewrite <- app_assoc.
        -- cbn. unfold_eff. rewrite El.
           destruct (decide_each evaluated identifier w1) as [[e|rs] w2] eqn:Ee;
             [done|].
           intros results w' [= <- <-].
           destruct (Hres rs w2 eq_refl)
             as [(passed & failed & -> & Hp & Hf & Hothers)|[-> Hall]].
           ++ left. exists (r :: passed), failed. repeat split; try done.
              ** by constructor.
              ** intros others. cbn [app Ratelimit.isAllowed_loop].
                 rewrite Er. cbn [negb].
                 rewrite Hothers. by rewrite <- app_assoc.
           ++ right. split; [done|]. by constructor.
      * exists [l], ls. split; [done|]. split.
        -- cbn. unfold_eff. by rewrite El.
        -- cbn. unfold_eff. rewrite El. intros results w' [= <- <-].
           left. exists [], r. repeat split; try done.
           intros others. cbn [app Ratelimit.isAllowed_loop].
           by rewrite Er.
Qed.

(** C4. The composite decision evaluates a prefix of the limiters, in the
    order they are configured, and nothing else: its outcome and the state
    it leaves are those of evaluating that prefix.  When it returns a list,
    the list holds the result of each evaluated limiter, so it is no longer
    than the configuration; either its last element is a rejection, all
    before it pass and whatever limiters follow the rejecting one have no
    part in the outcome, or no limiter was skipped and every element
    passes. *)
Theorem composite_decide_short_circuit limiters identifier w :
  exists evaluated skipped,
    limiters = evaluated ++ skipped
    /\ Ratelimit.isAllowed limiters identifier w
       = decide_each evaluated identifier w
    /\ forall results w',
         Ratelimit.isAllowed limiters identifier w = (inr results, w') ->
         length results = length evaluated
         /\ (length results <= length limiters)%nat
         /\ ((exists passed failed,
                 results = passed ++ [failed]
                 /\ Forall passes passed
                 /\ success failed = false
                 /\ forall others,
                      Ratelimit.isAllowed (evaluated ++ others) identifier w
                      = (inr results, w'))
             \/ (skipped = [] /\ Forall passes results)).
Proof.
  destruct (isAllowed_loop_spec limiters identifier [] w)
    as (evaluated & skipped & Hsplit & Hrun & Hres).
  assert (Heq : Ratelimit.isAllowed limiters identifier w
                = decide_each evaluated identifier w).
  { unfold Ratelimit.isAllowed. rewrite Hrun. unfold_eff.
    by destruct (decide_each evaluated identifier w) as [[e|rs] w1]. }
  exists evaluated, skipped. split; [done|]. split; [done|].
  intros results w' Hret. rewrite Heq in Hret.
  pose proof (decide_each_length _ _ _ _ _ Hret) as Hlen.
  split; [done|]. split.
  - rewrite Hlen, Hsplit, length_app. lia.
  - destruct (Hres _ _ Hret)
      as [(passed & failed & -> & Hp & Hf & Hothers)|[-> Hall]].
    + left. exists passed, failed. repeat split; try done.
    + right. by split.
Qed.

End composite.

(** The scenario of the suite's fail-fast test: of [A; B; C] with [B]
    rejecting, [A] and [B] are asked and [C] is not. *)
Example composite_fail_fast :
  Ratelimit.isAllowed
    [createMockStrategy "A" mock_pass (inr tt);
     createMockStrategy "B" mock_fail (inr tt);
     createMockStrategy "C" mock_pass (inr tt)] "test-user" []
  = (inr [mock_pass; mock_fail], ["isAllowed A"; "isAllowed B"]).
Proof. reflexivity. Qed.

Section composite_reset.
Context {W : Type}.
Implicit Types (limiters : list (RateLimiterStrategy.t W)) (w : W).

Lemma start_all_state limiters identifier w :
  (Ratelimit.start_all
     (map (fun limiter => RateLimiterStrategy.reset limiter identifier)
        limiters) w).2
  = fold_left (after_reset identifier) limiters w.
Proof.
  revert w. induction limiters as [|l ls IH]; intros w; [done|].
  cbn. unfold after_reset at 2.
  destruct (RateLimiterStrategy.reset l identifier w) as [p w1]. cbn.
  rewrite <- IH. by destruct (Ratelimit.start_all _ w1).
Qed.

Lemma start_all_length limiters identifier w :
  length (Ratelimit.start_all
            (map (fun limiter => RateLimiterStrategy.reset limiter identifier)
               limiters) w).1
  = length limiters.
Proof.
  revert w. induction limiters as [|l ls IH]; intros w; [done|].
  cbn. destruct (RateLimiterStrategy.reset l identifier w) as [p w1].
  specialize (IH w1). destruct (Ratelimit.start_all _ w1). cbn in *.
  by rewrite IH.
Qed.

Lemma first_rejection_spec {A} (settles_at : nat -> nat)
    (promises : list (js_error + A)) i :
  match Ratelimit.first_rejection settles_at i promises with
  | None => forall j e, promises !! j <> Some (inl e)
  | Some (t, e) =>
      exists k, promises !! k = Some (inl e) /\ t = settles_at (i + k)%nat
                /\ forall j e', promises !! j = Some (inl e') ->
                                (t <= settles_at (i + j)%nat)%nat
  end.
Proof.
  revert i. induction promises as [|p promises IH]; intros i;
    cbn [Ratelimit.first_rejection]; [done|].
  specialize (IH (S i)).
  destruct (Ratelimit.first_rejection settles_at (S i) promises) as [[t e']|].
  - destruct IH as (k & Hk & Ht & Hmin).
    assert (Hlater : exists k0, (p :: promises) !! k0 = Some (inl e')
                       /\ t = settles_at (i + k0)%nat).
    { exists (S k). split; [done|]. by rewrite Nat.add_succ_r. }
    destruct p as [e|a].
    + destruct (Nat.ltb_spec t (settles_at i)) as [Hlt|Hge].
      * destruct Hlater as (k0 & Hk0 & Ht0). exists k0.
        split; [done|]. split; [done|].
        intros [|j] e1 Hj; [rewrite Nat.add_0_r; lia|].
        rewrite Nat.add_succ_r. by apply (Hmin j e1).
      * exists 0%nat. split; [done|]. split; [by rewrite Nat.add_0_r|].
        intros [|j] e1 Hj; [by rewrite Nat.add_0_r|].
        rewrite Nat.add_succ_r. specialize (Hmin j e1 Hj). cbn in Hmin. lia.
    + destruct Hlater as (k0 & Hk0 & Ht0). exists k0.
      split; [done|]. split; [done|].
      intros [|j] e1 Hj; [done|].
      rewrite Nat.add_succ_r. by apply (Hmin j e1).
  - destruct p as [e|a].
    + exists 0%nat. split; [done|]. split; [by rewrite Nat.add_0_r|].
      intros [|j] e1 Hj; [by rewrite Nat.add_0_r|]. by destruct (IH j e1).
    + intros [|j] e1; [done|]. apply IH.
Qed.

Lemma first_failure_outcomes limiters identifier w :
  match first_failure limiters identifier w with
  | None => forall j e, reset_outcomes limiters identifier w !! j <> Some (inl e)
  | Some e =>
      exists k, reset_outcomes limiters identifier w !! k = Some (inl e)
                /\ forall j e', (j < k)%nat ->
                     reset_outcomes limiters identifier w !! j <> Some (inl e')
  end.
Proof.
  unfold reset_outcomes.
  revert w. induction limiters as [|l ls IH]; intros w; cbn; [done|].
  destruct (RateLimiterStrategy.reset l identifier w) as [[e|[]] w1].
  - destruct (Ratelimit.start_all _ w1) as [ps w2]. cbn.
    exists 0%nat. split; [done|]. intros j e' Hj. lia.
  - specialize (IH w1). destruct (Ratelimit.start_all _ w1) as [ps w2].
    cbn in *. destruct (first_failure ls identifier w1) as [e|].
    + destruct IH as (k & Hk & Hmin). exists (S k). split; [done|].
      intros [|j] e' Hj; [done|]. apply Hmin. lia.
    + intros [|j] e'; [done|]. apply IH.
Qed.

Lemma first_rejection_in_order {A} (settles_at : nat -> nat)
    (promises : list (js_error + A)) i e k :
  (forall a b, (a <= b)%nat -> (settles_at a <= settles_at b)%nat) ->
  promises !! k = Some (inl e) ->
  (forall j e', (j < k)%nat -> promises !! j <> Some (inl e')) ->
  exists t, Ratelimit.first_rejection settles_at i promises = Some (t, e).
Proof.
  intros Hmono. revert i k. induction promises as [|p promises IH];
    intros i k Hk Hmin; [done|].
  cbn [Ratelimit.first_rejection]. destruct k as [|k].
  - cbn in Hk. injection Hk as ->.
    pose proof (first_rejection_spec settles_at promises (S i)) as Hspec.
    destruct (Ratelimit.first_rejection settles_at (S i) promises) as [[t e']|];
      [|by eexists].
    destruct Hspec as (k & _ & -> & _).
    destruct (Nat.ltb_spec (settles_at (S i + k)%nat) (settles_at i))
      as [Hlt|Hge]; [|by eexists].
    specialize (Hmono i (S i + k)%nat ltac:(lia)). lia.
  - cbn in Hk. destruct p as [e0|a].
    + by destruct (Hmin 0%nat e0 ltac:(lia)).
    + apply (IH (S i) k Hk). intros j e' Hj. apply (Hmin (S j) e'). lia.
Qed.

(** C9 as the code has it.  The composite reset calls [reset] on every
    configured limiter, failed ones included, and keeps what each of them
    did: the state it leaves is the state after all the resets, one outcome
    per limiter.  When it fails, the error raised is the error of one of the
    limiters itself, with no wrapper around it: that of the failed reset
    that settles first, whatever its place in the configuration; when the
    resets settle in the order of the configuration, it is the error of the
    first failing limiter.  It returns exactly when no reset fails. *)
Theorem composite_reset_attempts_all limiters identifier settles_at w :
  let outcomes := reset_outcomes limiters identifier w in
  (Ratelimit.reset limiters identifier settles_at w).2
    = fold_left (after_reset identifier) limiters w
  /\ length outcomes = length limiters
  /\ match (Ratelimit.reset limiters identifier settles_at w).1 with
     | inl e =>
         exists i, outcomes !! i = Some (inl e)
                   /\ forall j e', outcomes !! j = Some (inl e') ->
                                   (settles_at i <= settles_at j)%nat
     | inr _ => forall j e, outcomes !! j <> Some (inl e)
     end
  /\ ((forall i j, (i <= j)%nat -> (settles_at i <= settles_at j)%nat) ->
      (Ratelimit.reset limiters identifier settles_at w).1
      = match first_failure limiters identifier w with
        | Some e => inl e
        | None => inr tt
        end).
Proof.
  intros outcomes. split; [|split; [|split]].
  - unfold Ratelimit.reset. rewrite <- start_all_state.
    destruct (Ratelimit.start_all _ w) as [ps w1]. cbn.
    by destruct (Ratelimit.Promise_all settles_at ps).
  - apply start_all_length.
  - subst outcomes. unfold Ratelimit.reset, reset_outcomes, Ratelimit.Promise_all.
    destruct (Ratelimit.start_all _ w) as [ps w1]. cbn.
    pose proof (first_rejection_spec settles_at ps 0) as Hspec.
    destruct (Ratelimit.first_rejection settles_at 0 ps) as [[t e]|]; cbn.
    + destruct Hspec as (k & Hk & -> & Hmin). by exists k.
    + exact Hspec.
  - intros Hmono.
    pose proof (first_failure_outcomes limiters identifier w) as Hfirst.
    unfold Ratelimit.reset, reset_outcomes, Ratelimit.Promise_all in *.
    destruct (Ratelimit.start_all _ w) as [ps w1]. cbn in *.
    destruct (first_failure limiters identifier w) as [e|].
    + destruct Hfirst as (k & Hk & Hmin).
      destruct (first_rejection_in_order settles_at ps 0 e k Hmono Hk Hmin)
        as [t ->].
      reflexivity.
    + pose proof (first_rejection_spec settles_at ps 0) as Hspec.
      destruct (Ratelimit.first_rejection settles_at 0 ps) as [[t e]|];
        [|done].
      destruct Hspec as (k & Hk & _). by destruct (Hfirst k e).
Qed.

End composite_reset.

(** The suite's reset tests: three resets are all made; a failing reset
    surfaces as the error it threw, and of two failing resets the one that
    settles first does. *)
Example composite_reset_all_three :
  let limiters :=
    [createMockStrategy "A" mock_pass (inl (Error "Test error"));
     createMockStrategy "B" mock_fail (inr tt);
     createMockStrategy "C" mock_pass (inl (Error "Other error"))] in
  Ratelimit.reset limiters "test-user" (fun i => i) []
  = (inl (Error "Test error"), ["reset A"; "reset B"; "reset C"])
  /\ Ratelimit.reset limiters "test-user" (fun i => (2 - i)%nat) []
     = (inl (Error "Other error"), ["reset A"; "reset B"; "reset C"]).
Proof. split; reflexivity. Qed.

(** C9 as stated does not hold: the error of a failed composite reset is not
    a [CompositeResetFailure]; it is the limiter's own error. *)
Lemma composite_reset_no_wrapper :
  ~ (forall (limiters : list (RateLimiterStrategy.t (list string))) identifier
       settles_at log e,
       (Ratelimit.reset limiters identifier settles_at log).1 = inl e ->
       err_name e = "CompositeResetFailure").
Proof.
  intros H.
  specialize (H [createMockStrategy "A" mock_pass (inl (Error "Test error"))]
                "test-user" (fun i => i) [] (Error "Test error") eq_refl).
  discriminate H.
Qed.

(** ** Store failures *)

Lemma eval_outage {A} (script : Lua A) (r : Redis) e :
  outage r = Some e -> eval script r = (inl e, r).
Proof. intros H. unfold eval. by rewrite H. Qed.

Lemma bind_eval_outage {A B} (script : Lua A) (k : A -> Js B) (r : Redis) e :
  outage r = Some e -> bind (eval script) k r = (inl e, r).
Proof. intros H. unfold bind. by rewrite (eval_outage _ _ _ H). Qed.

(** An error raised inside a script reaches the caller of [eval] as it is. *)
Lemma eval_script_error {A} (script : Lua A) (r : Redis) e d :
  outage r = None -> script (data r) = (inl e, d) ->
  eval script r = (inl e, mkRedis d None).
Proof. intros Ho Hs. unfold eval. by rewrite Ho, Hs. Qed.

(** C10 as the code has it.  When the store fails with [e], the fixed-window
    and token-bucket operations and the concurrency limiter's [release] and
    [reset] fail with [e] itself and touch nothing.  The concurrency
    limiter's [isAllowed] catches the failure: it rethrows [e] only when [e]
    is a [RateLimitExceededError] and otherwise throws a new
    [Error "Failed to check concurrency limit"] in its place.  No operation
    answers a result. *)
Theorem store_failure_propagation (r : Redis) (e : js_error)
    (fw : FixedWindowStrategy.t) (tb : TokenBucketStrategy.t)
    (cc : ConcurrencyStrategy.t) identifier amount now now' :
  outage r = Some e ->
  FixedWindowStrategy.isAllowed fw identifier now now' r = (inl e, r)
  /\ FixedWindowStrategy.reset fw identifier now r = (inl e, r)
  /\ TokenBucketStrategy.isAllowed tb identifier now now' r = (inl e, r)
  /\ TokenBucketStrategy.updateTokens tb identifier amount now now' r = (inl e, r)
  /\ TokenBucketStrategy.reset tb identifier now r = (inl e, r)
  /\ ConcurrencyStrategy.release cc identifier r = (inl e, r)
  /\ ConcurrencyStrategy.reset cc identifier r = (inl e, r)
  /\ ConcurrencyStrategy.isAllowed cc identifier now r
     = (inl (if instanceof_RateLimitExceededError e then e
             else Error "Failed to check concurrency limit"), r).
Proof.
  intros Hout. repeat split.
  - unfold FixedWindowStrategy.isAllowed. by apply bind_eval_outage.
  - unfold FixedWindowStrategy.reset, del. by apply bind_eval_outage.
  - unfold TokenBucketStrategy.isAllowed.
    destruct (TokenBucketStrategy.windowType tb); by apply bind_eval_outage.
  - unfold TokenBucketStrategy.updateTokens.
    destruct (TokenBucketStrategy.windowType tb); by apply bind_eval_outage.
  - unfold TokenBucketStrategy.reset, del.
    destruct (TokenBucketStrategy.windowType tb); by apply bind_eval_outage.
  - unfold ConcurrencyStrategy.release. by apply bind_eval_outage.
  - unfold ConcurrencyStrategy.reset, del. by apply bind_eval_outage.
  - unfold ConcurrencyStrategy.isAllowed, try_catch.
    rewrite (bind_eval_outage _ _ _ _ Hout).
    by destruct (instanceof_RateLimitExceededError e).
Qed.

Lemma store_failure_propagation_witness :
  let r := mkRedis ∅ (Some ECONNREFUSED) in
  FixedWindowStrategy.isAllowed (FixedWindowStrategy.mk 5 60000 "")
    "test-user" 5000 5001 r = (inl ECONNREFUSED, r)
  /\ ConcurrencyStrategy.isAllowed (ConcurrencyStrategy.new 1 (Some 1000) None)
       "test-user" 5000 r
     = (inl (Error "Failed to check concurrency limit"), r).
Proof.
  intros r.
  destruct (store_failure_propagation r ECONNREFUSED
              (FixedWindowStrategy.mk 5 60000 "")
              (TokenBucketStrategy.new 5 10000 None None None None)
              (ConcurrencyStrategy.new 1 (Some 1000) None)
              "test-user" 1 5000 5001 eq_refl)
    as (Hfw & _ & _ & _ & _ & _ & _ & Hcc).
  split; [exact Hfw | exact Hcc].
Defined.

(** C10 as stated does not hold: the concurrency limiter's [isAllowed]
    replaces the store's error by one of its own. *)
Lemma concurrency_isAllowed_replaces_store_error :
  ~ (forall (cc : ConcurrencyStrategy.t) identifier now (r : Redis) e,
       outage r = Some e ->
       (ConcurrencyStrategy.isAllowed cc identifier now r).1 = inl e).
Proof.
  intros H.
  specialize (H (ConcurrencyStrategy.new 1 (Some 1000) None) "test-user" 5000
                (mkRedis ∅ (Some ECONNREFUSED)) ECONNREFUSED eq_refl).
  discriminate H.
Qed.

(** A script error is a store failure as well: a fixed-window decision on a
    key that holds a hash fails with the store's own reply. *)
Example fixed_window_wrongtype :
  FixedWindowStrategy.isAllowed (FixedWindowStrategy.mk 5 1000 "") "u" 5000 5001
    (mkRedis {["/fx/{u}/5" := Entry (RHash [("tokens", 1)]) None]} None)
  = (inl WRONGTYPE,
     mkRedis {["/fx/{u}/5" := Entry (RHash [("tokens", 1)]) None]} None).
Proof. reflexivity. Qed.

(** ** Reset followed by a decision *)

Lemma length_append (a b : string) :
  String.length (a +:+ b) = (String.length a + String.length b)%nat.
Proof.
  induction a as [|c a IH]; [done|].
  change (String c a +:+ b) with (String c (a +:+ b)). cbn. by rewrite IH.
Qed.

(** [redis.del] on a store within reach. *)
Lemma del_spec key (r : Redis) :
  outage r = None ->
  exists n, del key r = (inr n, mkRedis (delete key (data r)) None).
Proof.
  intros Ho. unfold del, eval, redis.del. rewrite Ho.
  destruct (data r !! key) eqn:E; [by eexists|].
  rewrite (delete_id _ _ E). by eexists.
Qed.

(** In fixed mode [reset] builds its key with [':'] separators while the
    records live under the ['/bt/{...}/'] keys of [getKey]: the two differ
    for every prefix, identifier and clock reading. *)
Lemma token_fixed_reset_key_differs (s : TokenBucketStrategy.t) identifier now :
  TokenBucketStrategy.windowType s = FIXED ->
  TokenBucketStrategy.prefix s +:+ identifier +:+ ":"
    +:+ show (TokenBucketStrategy.getCurrentWindow s now)
  <> TokenBucketStrategy.getKey s now identifier.
Proof.
  intros Hmode Heq. unfold TokenBucketStrategy.getKey in Heq.
  rewrite Hmode in Heq. apply (f_equal String.length) in Heq.
  unfold TokenBucketStrategy.getCurrentWindow in Heq.
  rewrite !length_append in Heq. cbn in Heq. lia.
Qed.

(** Hence a fixed-mode [reset] leaves the record of the current window where
    it is. *)
Lemma token_fixed_reset_misses_record (s : TokenBucketStrategy.t) identifier now
    (r : Redis) :
  TokenBucketStrategy.windowType s = FIXED ->
  data (TokenBucketStrategy.reset s identifier now r).2
    !! TokenBucketStrategy.getKey s now identifier
  = data r !! TokenBucketStrategy.getKey s now identifier.
Proof.
  intros Hmode.
  pose proof (token_fixed_reset_key_differs s identifier now Hmode) as Hne.
  unfold TokenBucketStrategy.reset. rewrite Hmode. unfold bind.
  destruct (outage r) as [e|] eqn:Ho.
  - unfold del. by rewrite (eval_outage _ _ _ Ho).
  - destruct (del_spec (TokenBucketStrategy.prefix s +:+ identifier +:+ ":"
                          +:+ show (TokenBucketStrategy.getCurrentWindow s now))
                r Ho) as [n ->].
    cbn. by rewrite lookup_delete_ne.
Qed.

(** C5 at work in fixed mode, capacity 1: the first decision of an identifier
    passes; a reset right after it deletes nothing; the decision that follows
    the reset is rejected, unlike the first one. *)
Theorem token_fixed_reset_round_trip_fails :
  let s := TokenBucketStrategy.new 1 1000 None None None None in
  let first := TokenBucketStrategy.isAllowed s "user1" 5000 5000 (mkRedis ∅ None) in
  let after_reset := (TokenBucketStrategy.reset s "user1" 5000 first.2).2 in
  first.1 = inr (mkResult true 0 6000 1 "TokenBucketStrategy" None)
  /\ after_reset = first.2
  /\ data after_reset !! "token-bucket:/bt/{user1}/5000"
     = Some (Entry (RHash [("tokens", 0); ("windowStart", 5000)]) (Some 1000))
  /\ (TokenBucketStrategy.isAllowed s "user1" 5000 5000 after_reset).1
     = inr (mkResult false 0 6000 1 "TokenBucketStrategy" None).
Proof. vm_compute. repeat split. Qed.

(** The other three kinds do come back to the first-ever answer. *)

(** X23. Fixed window: after [reset] the decision in the same window is the
    one a store without the window's counter gives, whatever was counted
    before. *)
Lemma fixed_window_reset_round_trip (s : FixedWindowStrategy.t) identifier now
    now' (r fresh : Redis) :
  0 < FixedWindowStrategy.windowMs s ->
  outage r = None -> outage fresh = None ->
  data fresh !! FixedWindowStrategy.getKey s now identifier = None ->
  (FixedWindowStrategy.isAllowed s identifier now now'
     (FixedWindowStrategy.reset s identifier now r).2).1
  = (FixedWindowStrategy.isAllowed s identifier now now' fresh).1.
Proof.
  intros Hw Ho Hof Hfresh.
  unfold FixedWindowStrategy.reset. unfold bind.
  destruct (del_spec (FixedWindowStrategy.getKey s now identifier) r Ho)
    as [n ->]. cbn [snd ret].
  destruct fresh as [d o]. cbn in Hof, Hfresh. subst o.
  unfold FixedWindowStrategy.isAllowed. unfold_eff. cbn [outage data].
  rewrite (fixed_window_script_spec _ _ _ _ 0 Hw),
          (fixed_window_script_spec _ _ _ _ 0 Hw); [done| |].
  - unfold counter_of. by rewrite Hfresh.
  - unfold counter_of. by rewrite lookup_delete_eq.
Qed.

(** X24. Token bucket in sliding mode: [reset] deletes the key the decisions
    use, so the decision after it is the one of a store without the
    bucket. *)
Lemma token_sliding_reset_round_trip (s : TokenBucketStrategy.t) identifier
    now_key now (r fresh : Redis) :
  TokenBucketStrategy.windowType s = SLIDING ->
  0 < TokenBucketStrategy.interval s ->
  outage r = None -> outage fresh = None ->
  data fresh !! TokenBucketStrategy.getKey s now_key identifier = None ->
  (TokenBucketStrategy.isAllowed s identifier now_key now
     (TokenBucketStrategy.reset s identifier now_key r).2).1
  = (TokenBucketStrategy.isAllowed s identifier now_key now fresh).1.
Proof.
  intros Hmode Hi Ho Hof Hfresh.
  unfold TokenBucketStrategy.reset. rewrite Hmode. unfold bind.
  destruct (del_spec (TokenBucketStrategy.getKey s now_key identifier) r Ho)
    as [n ->]. cbn [snd ret].
  destruct fresh as [d o]. cbn in Hof, Hfresh. subst o.
  unfold TokenBucketStrategy.isAllowed. rewrite Hmode.
  unfold_eff. cbn [outage data].
  rewrite (sliding_script_spec _ _ _ _ _ _ d
             (TokenBucketStrategy.capacity s) now Hi),
          (sliding_script_spec _ _ _ _ _ _ (delete _ (data r))
             (TokenBucketStrategy.capacity s) now Hi).
  - by destruct (_ <? _).
  - unfold sliding_record. by rewrite lookup_delete_eq.
  - unfold sliding_record. by rewrite Hfresh.
Qed.

(** X25. Concurrency: after [reset] an acquire is answered as on a store
    without the slot record, whatever number of slots was held. *)
Lemma concurrency_reset_round_trip (s : ConcurrencyStrategy.t) identifier now
    (r fresh : Redis) :
  outage r = None -> outage fresh = None ->
  data fresh !! ConcurrencyStrategy.getKey s identifier = None ->
  (ConcurrencyStrategy.isAllowed s identifier now
     (ConcurrencyStrategy.reset s identifier r).2).1
  = (ConcurrencyStrategy.isAllowed s identifier now fresh).1.
Proof.
  intros Ho Hof Hfresh.
  unfold ConcurrencyStrategy.reset. unfold bind.
  destruct (del_spec (ConcurrencyStrategy.getKey s identifier) r Ho) as [n ->].
  cbn [snd ret].
  destruct fresh as [d o]. cbn in Hof, Hfresh. subst o.
  unfold ConcurrencyStrategy.isAllowed, ConcurrencyStrategy.isAllowed_script,
    redis.get, redis.set_px.
  unfold_eff. cbn [outage data]. rewrite Hfresh, lookup_delete_eq.
  by destruct (_ <=? 0).
Qed.

(** ** Concurrency slots *)

Lemma slots_ok_absent max (d : keyspace) key :
  0 <= max -> d !! key = None -> slots_ok max d key.
Proof. intros Hm E. exists 0. unfold counter_of. rewrite E. split; [done|lia]. Qed.

Lemma slots_ok_insert max (d : keyspace) key count ttl :
  0 <= count <= max ->
  slots_ok max (<[key := Entry (RString count) ttl]> d) key.
Proof.
  intros Hc. exists count. unfold counter_of. by rewrite lookup_insert_eq.
Qed.

Lemma acquire_script_slots key max timeout now (d : keyspace) :
  1 <= max ->
  slots_ok max d key ->
  slots_ok max (ConcurrencyStrategy.isAllowed_script key max timeout now d).2 key.
Proof.
  intros Hmax (count & Hc & Hb).
  unfold ConcurrencyStrategy.isAllowed_script, redis.get, redis.set_px,
    redis.incr, redis.incrby, redis.pexpire, counter_of in *.
  unfold_eff.
  destruct (d !! key) as [[[n|fs] t]|] eqn:E; simplify_eq/=.
  - destruct (Z.geb_spec count max); cbn.
    + exists count. unfold counter_of. rewrite E. done.
    + rewrite E. cbn. rewrite lookup_insert_eq.
      destruct (timeout <=? 0); cbn.
      * apply slots_ok_absent; [lia|]. by rewrite lookup_delete_eq.
      * apply slots_ok_insert. lia.
  - destruct (timeout <=? 0); cbn.
    + apply slots_ok_absent; [lia|done].
    + apply slots_ok_insert. lia.
Qed.

Lemma release_script_slots key max (d : keyspace) :
  0 <= max ->
  slots_ok max d key ->
  slots_ok max (ConcurrencyStrategy.release_script key d).2 key.
Proof.
  intros Hmax (count & Hc & Hb).
  unfold ConcurrencyStrategy.release_script, redis.get, redis.del, redis.decr,
    redis.incrby, counter_of in *.
  unfold_eff.
  destruct (d !! key) as [[[n|fs] t]|] eqn:E; simplify_eq/=.
  - destruct (Z.leb_spec count 1); cbn; rewrite E; cbn.
    + apply slots_ok_absent; [done|]. by rewrite lookup_delete_eq.
    + apply slots_ok_insert. lia.
  - by apply slots_ok_absent.
Qed.

Lemma run_slot_op_slots (s : ConcurrencyStrategy.t) identifier (r : Redis) op :
  1 <= ConcurrencyStrategy.maxConcurrentRequests s ->
  slots_ok (ConcurrencyStrategy.maxConcurrentRequests s) (data r)
    (ConcurrencyStrategy.getKey s identifier) ->
  slots_ok (ConcurrencyStrategy.maxConcurrentRequests s)
    (data (run_slot_op s identifier r op))
    (ConcurrencyStrategy.getKey s identifier).
Proof.
  intros Hmax Hr.
  set (key := ConcurrencyStrategy.getKey s identifier) in *.
  set (max := ConcurrencyStrategy.maxConcurrentRequests s) in *.
  destruct op as [now| | |ms]; cbn [run_slot_op].
  - unfold ConcurrencyStrategy.isAllowed. fold key max.
    unfold try_catch.
    match goal with |- context [bind ?m ?k r] =>
      assert (Hs : slots_ok max (data (bind m k r).2) key) end.
    { rewrite bind_pure_state by (by intros [[[? ?] ?] ?] ?).
      apply (eval_invariant (fun d => slots_ok max d key)); [|done].
      intros d Hd. by apply acquire_script_slots. }
    destruct (bind _ _ r) as [[e|res] r1]; [|exact Hs].
    by destruct (instanceof_RateLimitExceededError e).
  - unfold ConcurrencyStrategy.release. fold key.
    rewrite bind_pure_state by done.
    apply (eval_invariant (fun d => slots_ok max d key)); [|done].
    intros d Hd. apply release_script_slots; [lia|done].
  - unfold ConcurrencyStrategy.reset, del. fold key.
    rewrite bind_pure_state by done.
    apply (eval_invariant (fun d => slots_ok max d key)); [|done].
    intros d Hd. unfold redis.del.
    destruct (d !! key) eqn:E; cbn; [|done].
    apply slots_ok_absent; [lia|]. by rewrite lookup_delete_eq.
  - cbn [data]. destruct Hr as (count & Hc & Hb).
    unfold slots_ok, counter_of, elapse in *. rewrite lookup_omap.
    destruct (data r !! key) as [[[n|fs] [t|]]|]; simplify_eq/=.
    + destruct (t - ms <=? 0); cbn; [exists 0; split; [done|lia] | by exists count].
    + by exists count.
    + exists 0. split; [done|lia].
Qed.

(** X26. With a limit of at least one slot the count stays within bounds
    along any run of acquires, releases, resets and expiries that starts with
    no record. *)
Lemma concurrency_slots_bounded (s : ConcurrencyStrategy.t) identifier ops :
  1 <= ConcurrencyStrategy.maxConcurrentRequests s ->
  slots_ok (ConcurrencyStrategy.maxConcurrentRequests s)
    (data (fold_left (run_slot_op s identifier) ops (mkRedis ∅ None)))
    (ConcurrencyStrategy.getKey s identifier).
Proof.
  intros Hmax.
  assert (H0 : slots_ok (ConcurrencyStrategy.maxConcurrentRequests s)
                 (data (mkRedis ∅ None)) (ConcurrencyStrategy.getKey s identifier))
    by (apply slots_ok_absent; [lia|done]).
  revert H0. generalize (mkRedis ∅ None).
  induction ops as [|op ops IH]; intros r Hr; [done|].
  cbn. apply IH. by apply run_slot_op_slots.
Qed.

(** C7 at a limit of zero slots: the first acquire of an identifier finds no
    record, skips the comparison with the limit and takes a slot.  It answers
    [success = true] with [remaining = -1], and the stored count, 1, is above
    the limit. *)
Theorem concurrency_zero_limit_acquires :
  let s := ConcurrencyStrategy.new 0 None None in
  let key := ConcurrencyStrategy.getKey s "test-user" in
  let acquired :=
    ConcurrencyStrategy.isAllowed s "test-user" 5000 (mkRedis ∅ None) in
  acquired.1 = inr (mkResult true (-1) 35000 0 "ConcurrencyStrategy" (Some 1))
  /\ counter_of (data acquired.2) key = Some 1
  /\ ~ slots_ok (ConcurrencyStrategy.maxConcurrentRequests s)
         (data acquired.2) key.
Proof.
  intros s key acquired.
  assert (Hc : counter_of (data acquired.2) key = Some 1) by (by vm_compute).
  split; [by vm_compute|]. split; [exact Hc|].
  intros (count & Hcount & Hb). rewrite Hc in Hcount.
  injection Hcount as <-. cbn in Hb. lia.
Qed.

(** ** The scoped acquisition [wrap] *)

Section wrap.
Context {W T : Type}.
Variable this_isAllowed : string -> Eff W RateLimiterResult.
Variable this_release : string -> Eff W unit.
Variable max : Z.

(** A rejected acquire: the error is raised from the state the acquire
    left, whatever the operation is; the operation has not run. *)
Lemma wrap_rejected identifier (fn : Eff W T) w result w1 :
  this_isAllowed identifier w = (inr result, w1) ->
  success result = false ->
  ConcurrencyStrategy.wrap_body this_isAllowed this_release max identifier fn w
  = (inl (RateLimitExceededError
            ("Concurrent requests limit exceeded. Current count: "
             +:+ show (remaining result) +:+ ", Limit: " +:+ show max)),
     w1).
Proof.
  intros Ha Hs. unfold ConcurrencyStrategy.wrap_body. unfold_eff.
  by rewrite Ha, Hs.
Qed.

(** A granted acquire: the operation runs, then the release, and the
    operation's outcome, returned or raised, is the outcome of [wrap]. *)
Lemma wrap_accepted identifier (fn : Eff W T) w result w1 outcome w2 w3 :
  this_isAllowed identifier w = (inr result, w1) ->
  success result = true ->
  fn w1 = (outcome, w2) ->
  this_release identifier w2 = (inr tt, w3) ->
  ConcurrencyStrategy.wrap_body this_isAllowed this_release max identifier fn w
  = (outcome, w3).
Proof.
  intros Ha Hs Hf Hr. unfold ConcurrencyStrategy.wrap_body. unfold_eff.
  rewrite Ha, Hs. cbn [negb]. by rewrite Hf, Hr.
Qed.

(** When the release itself fails, its error is what [wrap] raises. *)
Lemma wrap_release_fails identifier (fn : Eff W T) w result w1 outcome w2 e w3 :
  this_isAllowed identifier w = (inr result, w1) ->
  success result = true ->
  fn w1 = (outcome, w2) ->
  this_release identifier w2 = (inl e, w3) ->
  ConcurrencyStrategy.wrap_body this_isAllowed this_release max identifier fn w
  = (inl e, w3).
Proof.
  intros Ha Hs Hf Hr. unfold ConcurrencyStrategy.wrap_body. unfold_eff.
  rewrite Ha, Hs. cbn [negb]. by rewrite Hf, Hr.
Qed.
End wrap.

(** X28. The calls [wrap] makes: after a rejected or failed acquire none;
    after a granted one the operation and then the release, once each,
    whether the operation returns or raises. *)
Lemma wrap_calls {W T} (this_isAllowed : string -> Eff W RateLimiterResult)
    (this_release : string -> Eff W unit) max identifier (fn : Eff W T) w :
  (ConcurrencyStrategy.wrap_body
     (fun identifier => spy "isAllowed" (this_isAllowed identifier))
     (fun identifier => spy "release" (this_release identifier))
     max identifier (spy "fn" fn) (w, [])).2.2
  = match this_isAllowed identifier w with
    | (inr result, _) =>
        if success result then ["isAllowed"; "fn"; "release"] else ["isAllowed"]
    | (inl _, _) => ["isAllowed"]
    end.
Proof.
  unfold ConcurrencyStrategy.wrap_body, spy. unfold_eff.
  destruct (this_isAllowed identifier w) as [[e|result] w1]; [done|].
  destruct (success result); [|done]. cbn.
  destruct (fn w1) as [outcome w2].
  by destruct (this_release identifier w2) as [[e|[]] w3].
Qed.

(** C8 with one slot, taken: [wrap] raises a [RateLimitExceededError] and the
    operation does not run, but the count in the message is [remaining], 0,
    while one slot is held, as the result's metadata and the store say. *)
Theorem wrap_error_count_is_remaining :
  let s := ConcurrencyStrategy.new 1 (Some 1000) None in
  let key := ConcurrencyStrategy.getKey s "test-user" in
  let held := (ConcurrencyStrategy.isAllowed s "test-user" 5000 (mkRedis ∅ None)).2 in
  counter_of (data held) key = Some 1
  /\ (ConcurrencyStrategy.isAllowed s "test-user" 5000 held).1
     = inr (mkResult false 0 6000 1 "ConcurrencyStrategy" (Some 1))
  /\ forall (T : Type) (fn : Js T),
       ConcurrencyStrategy.wrap s "test-user" 5000 fn held
       = (inl (RateLimitExceededError
                 "Concurrent requests limit exceeded. Current count: 0, Limit: 1"),
          held).
Proof.
  intros s key held. split; [by vm_compute|]. split; [by vm_compute|].
  intros T fn. unfold ConcurrencyStrategy.wrap.
  by rewrite (wrap_rejected _ _ _ _ fn held
                (mkResult false 0 6000 1 "ConcurrencyStrategy" (Some 1)) held).
Qed.

(** The suite's [wrap] test, on a free slot: the operation's value comes
    back and the slot is free again. *)
Example wrap_returns_result :
  ConcurrencyStrategy.wrap (ConcurrencyStrategy.new 1 (Some 1000) None)
    "test-user" 5000 (ret 1) (mkRedis ∅ None)
  = (inr 1, mkRedis ∅ None).
Proof. by vm_compute. Qed.

(** ** The scenarios of the test suite *)

(** Fixed window, one request per second: the second request of a window is
    rejected and the first one of the next window passes. *)
Example fixed_window_suite :
  let s := FixedWindowStrategy.mk 1 1000 "" in
  let '(result1, r1) := FixedWindowStrategy.isAllowed s "test-user" 5000 5000
                          (mkRedis ∅ None) in
  let '(result2, r2) := FixedWindowStrategy.isAllowed s "test-user" 5001 5001 r1 in
  let r3 := mkRedis (elapse 1000 (data r2)) None in
  let '(result3, _) := FixedWindowStrategy.isAllowed s "test-user" 6001 6001 r3 in
  (answered success result1, answered success result2,
   answered success result3)
  = (Some true, Some false, Some true).
Proof. by vm_compute. Qed.

(** Token bucket, fixed mode, capacity 100000: 25000 are taken, then 50000,
    and a request for 500000 is turned down with the 25000 left as they
    are. *)
Example token_bucket_fixed_suite :
  let s takeRate :=
    TokenBucketStrategy.new 100000 21600000 (Some takeRate) None None None in
  let '(result1, r1) := TokenBucketStrategy.isAllowed (s 25000) "user1" 5000 5000
                          (mkRedis ∅ None) in
  let '(result2, r2) := TokenBucketStrategy.isAllowed (s 50000) "user1" 5001 5001 r1 in
  let '(result3, r3) := TokenBucketStrategy.isAllowed (s 500000) "user1" 5002 5002 r2 in
  (answered outcome result1,
   answered outcome result2,
   answered outcome result3,
   stored_tokens (data r3) "token-bucket:/bt/{user1}/0")
  = (Some (true, 75000), Some (true, 25000), Some (false, 25000), Some 25000).
Proof. by vm_compute. Qed.

(** Token bucket, sliding mode: a decision, an update by 25000, a refused
    update by 80000, and a decision two seconds later that sees 9 tokens
    refilled. *)
Example token_bucket_sliding_suite :
  let s := TokenBucketStrategy.new 100000 21600000 (Some 1) (Some SLIDING)
             None None in
  let '(result1, r1) := TokenBucketStrategy.isAllowed s "user1" 5000 5000
                          (mkRedis ∅ None) in
  let '(result2, r2) := TokenBucketStrategy.updateTokens s "user1" 25000 5003 5003 r1 in
  let '(result3, r3) := TokenBucketStrategy.updateTokens s "user1" 80000 5004 5004 r2 in
  let '(result4, _) := TokenBucketStrategy.isAllowed s "user1" 7003 7003 r3 in
  (answered outcome result1,
   answered outcome result2,
   answered outcome result3,
   answered outcome result4)
  = (Some (true, 99999), Some (true, 74999), Some (false, 74999),
     Some (true, 75007)).
Proof. by vm_compute. Qed.

(** Concurrency, one slot: a second acquire is rejected until the slot is
    released. *)
Example concurrency_suite :
  let s := ConcurrencyStrategy.new 1 (Some 1000) None in
  let '(result1, r1) := ConcurrencyStrategy.isAllowed s "test-user" 5000
                          (mkRedis ∅ None) in
  let '(result2, r2) := ConcurrencyStrategy.isAllowed s "test-user" 5001 r1 in
  let '(_, r3) := ConcurrencyStrategy.release s "test-user" r2 in
  let '(result3, _) := ConcurrencyStrategy.isAllowed s "test-user" 5002 r3 in
  (answered success result1, answered success result2,
   answered success result3)
  = (Some true, Some false, Some true).
Proof. by vm_compute. Qed.

(** ** Interval strings *)

(** Reading back the digits of a decimal numeral. *)
Lemma parse_digits_acc_pos (d : Decimal.uint) (q : positive) :
  parse_digits 10 (NilEmpty.string_of_uint d) (Some (Z.pos q))
  = Some (Z.pos (Pos.of_uint_acc d q)).
Proof.
  revert q. induction d; intros q;
    cbn [NilEmpty.string_of_uint parse_digits Pos.of_uint_acc];
    [reflexivity|..];
    (change (digit_value 10 _) with (Some 0) ||
     change (digit_value 10 _) with (Some 1) ||
     change (digit_value 10 _) with (Some 2) ||
     change (digit_value 10 _) with (Some 3) ||
     change (digit_value 10 _) with (Some 4) ||
     change (digit_value 10 _) with (Some 5) ||
     change (digit_value 10 _) with (Some 6) ||
     change (digit_value 10 _) with (Some 7) ||
     change (digit_value 10 _) with (Some 8) ||
     change (digit_value 10 _) with (Some 9));
    cbn [default from_option id]; cbv beta iota;
    match goal with
    | |- parse_digits 10 _ (Some ?a) = Some (Z.pos (Pos.of_uint_acc _ ?b)) =>
        replace a with (Z.pos b) by lia
    end; apply IHd.
Qed.

Lemma parse_digits_acc_zero (d : Decimal.uint) :
  parse_digits 10 (NilEmpty.string_of_uint d) (Some 0)
  = Some (Z.of_N (Pos.of_uint d)).
Proof.
  induction d; cbn [NilEmpty.string_of_uint parse_digits Pos.of_uint];
    [reflexivity| exact IHd |..];
    (change (digit_value 10 _) with (Some 1) ||
     change (digit_value 10 _) with (Some 2) ||
     change (digit_value 10 _) with (Some 3) ||
     change (digit_value 10 _) with (Some 4) ||
     change (digit_value 10 _) with (Some 5) ||
     change (digit_value 10 _) with (Some 6) ||
     change (digit_value 10 _) with (Some 7) ||
     change (digit_value 10 _) with (Some 8) ||
     change (digit_value 10 _) with (Some 9));
    cbn [default from_option id]; cbv beta iota;
    apply parse_digits_acc_pos.
Qed.

Lemma parseInt_digits (d : Decimal.uint) :
  d <> Decimal.Nil ->
  parseInt (NilEmpty.string_of_uint d) = Num (Z.of_N (Pos.of_uint d)).
Proof.
  intros Hd. unfold parseInt.
  destruct d as [|d|d|d|d|d|d|d|d|d|d]; [done|..];
    cbn [NilEmpty.string_of_uint trimStart Ascii.is_space];
    cbv beta iota.
  - assert (Hradix :
      match String "0" (NilEmpty.string_of_uint d) with
      | String "0"%char (String "x"%char s')
      | String "0"%char (String "X"%char s') => (16, s')
      | _ => (10, String "0" (NilEmpty.string_of_uint d))
      end = (10, String "0" (NilEmpty.string_of_uint d))).
    { by destruct d. }
    rewrite Hradix. cbn [parse_digits].
    change (digit_value 10 "0") with (Some 0). cbv beta iota.
    change (Some (default 0 None * 10 + 0)) with (Some 0).
    rewrite parse_digits_acc_zero. cbn [Pos.of_uint]. f_equal; lia.
  - cbn [parse_digits]. change (digit_value 10 "1") with (Some 1).
    cbv beta iota. change (Some (default 0 None * 10 + 1)) with (Some 1).
    rewrite parse_digits_acc_pos. cbn [Pos.of_uint]. f_equal; lia.
  - cbn [parse_digits]. change (digit_value 10 "2") with (Some 2).
    cbv beta iota. change (Some (default 0 None * 10 + 2)) with (Some 2).
    rewrite parse_digits_acc_pos. cbn [Pos.of_uint]. f_equal; lia.
  - cbn [parse_digits]. change (digit_value 10 "3") with (Some 3).
    cbv beta iota. change (Some (default 0 None * 10 + 3)) with (Some 3).
    rewrite parse_digits_acc_pos. cbn [Pos.of_uint]. f_equal; lia.
  - cbn [parse_digits]. change (digit_value 10 "4") with (Some 4).
    cbv beta iota. change (Some (default 0 None * 10 + 4)) with (Some 4).
    rewrite parse_digits_acc_pos. cbn [Pos.of_uint]. f_equal; lia.
  - cbn [parse_digits]. change (digit_value 10 "5") with (Some 5).
    cbv beta iota. change (Some (default 0 None * 10 + 5)) with (Some 5).
    rewrite parse_digits_acc_pos. cbn [Pos.of_uint]. f_equal; lia.
  - cbn [parse_digits]. change (digit_value 10 "6") with (Some 6).
    cbv beta iota. change (Some (default 0 None * 10 + 6)) with (Some 6).
    rewrite parse_digits_acc_pos. cbn [Pos.of_uint]. f_equal; lia.
  - cbn [parse_digits]. change (digit_value 10 "7") with (Some 7).
    cbv beta iota. change (Some (default 0 None * 10 + 7)) with (Some 7).
    rewrite parse_digits_acc_pos. cbn [Pos.of_uint]. f_equal; lia.
  - cbn [parse_digits]. change (digit_value 10 "8") with (Some 8).
    cbv beta iota. change (Some (default 0 None * 10 + 8)) with (Some 8).
    rewrite parse_digits_acc_pos. cbn [Pos.of_uint]. f_equal; lia.
  - cbn [parse_digits]. change (digit_value 10 "9") with (Some 9).
    cbv beta iota. change (Some (default 0 None * 10 + 9)) with (Some 9).
    rewrite parse_digits_acc_pos. cbn [Pos.of_uint]. f_equal; lia.
Qed.

Lemma show_pos (p : positive) :
  show (Z.pos p) = NilEmpty.string_of_uint (Pos.to_uint p).
Proof.
  unfold show. cbn [Z.to_int NilZero.string_of_int].
  pose proof (DecimalPos.Unsigned.to_uint_nonnil p) as H.
  by destruct (Pos.to_uint p).
Qed.

Lemma show_neg (p : positive) :
  show (Z.neg p) = String "-" (NilEmpty.string_of_uint (Pos.to_uint p)).
Proof.
  unfold show. cbn [Z.to_int NilZero.string_of_int].
  pose proof (DecimalPos.Unsigned.to_uint_nonnil p) as H.
  by destruct (Pos.to_uint p).
Qed.

(** A string of digits has none of the characters that mark a number's
    start otherwise. *)
Lemma digits_head (d : Decimal.uint) :
  d <> Decimal.Nil ->
  exists c rest,
    NilEmpty.string_of_uint d = String c rest
    /\ Ascii.is_space c = false
    /\ trimStart (String c rest) = String c rest
    /\ c <> "-"%char /\ c <> "+"%char.
Proof.
  intros Hd.
  destruct d as [|d|d|d|d|d|d|d|d|d|d]; [done|..];
    eexists _, _; (split; [reflexivity|]); repeat split; done.
Qed.

(** [parseInt] reads back what a template literal prints. *)
Lemma parseInt_show (n : Z) : parseInt (show n) = Num n.
Proof.
  destruct n as [|p|p].
  - reflexivity.
  - rewrite show_pos, parseInt_digits by apply DecimalPos.Unsigned.to_uint_nonnil.
    by rewrite DecimalPos.Unsigned.of_to.
  - rewrite show_neg.
    pose proof (parseInt_digits (Pos.to_uint p)
                  (DecimalPos.Unsigned.to_uint_nonnil p)) as Hp.
    rewrite DecimalPos.Unsigned.of_to in Hp. cbn [Z.of_N] in Hp.
    destruct (digits_head (Pos.to_uint p) (DecimalPos.Unsigned.to_uint_nonnil p))
      as (c & rest & Hs & Hsp & Htrim & Hm & Hpl).
    rewrite Hs in *. unfold parseInt in *.
    change (trimStart (String "-" (String c rest)))
      with (String "-" (String c rest)).
    rewrite Htrim in Hp. cbv beta iota.
    assert (Hsign : match String c rest with
                    | String "-"%char s' => (-1, s')
                    | String "+"%char s' => (1, s')
                    | _ => (1, String c rest)
                    end = (1, String c rest)).
    { destruct c as [[] [] [] [] [] [] [] []]; done. }
    rewrite Hsign in Hp. cbv beta iota in Hp.
    destruct (match String c rest with
              | String "0"%char (String "x"%char s')
              | String "0"%char (String "X"%char s') => (16, s')
              | _ => (10, String c rest)
              end) as [radix digits].
    destruct (parse_digits radix digits None) as [v|]; [|done].
    injection Hp as Hv. f_equal. lia.
Qed.

Lemma has_char_append c (a b : string) :
  has_char c (a +:+ b) = has_char c a || has_char c b.
Proof.
  induction a as [|c' a IH]; [done|].
  change (String c' a +:+ b) with (String c' (a +:+ b)). cbn.
  by rewrite IH, orb_assoc.
Qed.

Lemma has_char_digits c (d : Decimal.uint) :
  digit_value 10 c = None ->
  has_char c (NilEmpty.string_of_uint d) = false.
Proof.
  intros Hc.
  induction d; cbn [NilEmpty.string_of_uint has_char]; [done|..];
    rewrite IHd, orb_false_r;
    (destruct (Ascii.eqb_spec c "0"); [by subst|]; try done);
    (destruct (Ascii.eqb_spec c "1"); [by subst|]; try done);
    (destruct (Ascii.eqb_spec c "2"); [by subst|]; try done);
    (destruct (Ascii.eqb_spec c "3"); [by subst|]; try done);
    (destruct (Ascii.eqb_spec c "4"); [by subst|]; try done);
    (destruct (Ascii.eqb_spec c "5"); [by subst|]; try done);
    (destruct (Ascii.eqb_spec c "6"); [by subst|]; try done);
    (destruct (Ascii.eqb_spec c "7"); [by subst|]; try done);
    (destruct (Ascii.eqb_spec c "8"); [by subst|]; try done);
    (destruct (Ascii.eqb_spec c "9"); [by subst|]; try done).
Qed.

(** A printed integer is made of digits and at most a leading minus. *)
Lemma has_char_show c (n : Z) :
  digit_value 10 c = None -> c <> "-"%char -> has_char c (show n) = false.
Proof.
  intros Hc Hm. destruct n as [|p|p].
  - cbn. destruct (Ascii.eqb_spec c "0"); [by subst|done].
  - rewrite show_pos. by apply has_char_digits.
  - rewrite show_neg. cbn [has_char]. rewrite has_char_digits by done.
    by destruct (Ascii.eqb_spec c "-").
Qed.

Lemma show_inj (n m : Z) : show n = show m -> n = m.
Proof.
  unfold show. intros H. apply DecimalZ.to_int_inj.
  assert (Hnil : forall z, Z.to_int z <> Decimal.Pos Decimal.Nil
                           /\ Z.to_int z <> Decimal.Neg Decimal.Nil).
  { intros [|p|p]; cbn; split; try done;
      intros [= Hp]; by apply (DecimalPos.Unsigned.to_uint_nonnil p). }
  destruct (Hnil n) as [Hn1 Hn2], (Hnil m) as [Hm1 Hm2].
  pose proof (NilZero.isi _ Hn1 Hn2) as Hn.
  pose proof (NilZero.isi _ Hm1 Hm2) as Hm.
  rewrite H in Hn. congruence.
Qed.

Lemma split_head sep (a b : string) :
  has_char sep a = false ->
  split sep (a +:+ String sep b) = a :: split sep b.
Proof.
  induction a as [|c a IH]; intros Ha.
  - change ("" +:+ String sep b) with (String sep b).
    cbn [split]. by rewrite Ascii.eqb_refl.
  - change (String c a +:+ String sep b) with (String c (a +:+ String sep b)).
    cbn in Ha. apply orb_false_iff in Ha as [Hc Ha].
    cbn [split]. rewrite Ascii.eqb_sym, Hc, (IH Ha). done.
Qed.

Lemma split_whole sep (a : string) :
  has_char sep a = false -> split sep a = [a].
Proof.
  induction a as [|c a IH]; intros Ha; [done|].
  cbn in Ha. apply orb_false_iff in Ha as [Hc Ha].
  cbn [split]. by rewrite Ascii.eqb_sym, Hc, (IH Ha).
Qed.

Lemma has_char_toLowerCase_space (s : string) :
  has_char " " (toLowerCase s) = has_char " " s.
Proof.
  induction s as [|c s IH]; [done|]. cbn [toLowerCase has_char]. rewrite IH.
  f_equal. by destruct c as [[] [] [] [] [] [] [] []].
Qed.

Lemma parseInterval_amount_unit (n : Z) (unit : string) :
  has_char " " unit = false ->
  parseInterval (show n +:+ " " +:+ unit)
  = inr (number_mul (Num n) (multiplier_of (toLowerCase unit))).
Proof.
  intros Hu. unfold parseInterval.
  change (" " +:+ unit) with (String " " unit).
  rewrite split_head by (by apply has_char_show).
  rewrite (split_whole _ _ Hu). by rewrite parseInt_show.
Qed.

(** X1. An interval written as an integer, a space and one of the units
    [ms], [s], [m], [h], [d], in any letter case, is that many milliseconds,
    seconds, minutes, hours or days, in milliseconds. *)
Theorem parseInterval_units (n : Z) (unit : string) :
  (toLowerCase unit = "ms" ->
   parseInterval (show n +:+ " " +:+ unit) = inr (Num n))
  /\ (toLowerCase unit = "s" ->
      parseInterval (show n +:+ " " +:+ unit) = inr (Num (n * 1000)))
  /\ (toLowerCase unit = "m" ->
      parseInterval (show n +:+ " " +:+ unit) = inr (Num (n * 60000)))
  /\ (toLowerCase unit = "h" ->
      parseInterval (show n +:+ " " +:+ unit) = inr (Num (n * 3600000)))
  /\ (toLowerCase unit = "d" ->
      parseInterval (show n +:+ " " +:+ unit) = inr (Num (n * 86400000))).
Proof.
  repeat split; intros Hu;
    (rewrite parseInterval_amount_unit
       by (by rewrite <- has_char_toLowerCase_space, Hu));
    rewrite Hu; cbn [multiplier_of String.eqb Ascii.eqb Bool.eqb number_mul];
    f_equal; f_equal; lia.
Qed.

Lemma parseInterval_units_witness :
  parseInterval "6 H" = inr (Num 21600000)
  /\ parseInterval "10 s" = inr (Num 10000).
Proof.
  split.
  - exact (proj1 (proj2 (proj2 (proj2 (parseInterval_units 6 "H")))) eq_refl).
  - exact (proj1 (proj2 (parseInterval_units 10 "s")) eq_refl).
Defined.

(** X2. A unit that is not in the table counts as seconds, the empty unit
    that a doubled space leaves included; the two lower-case names that the
    table inherits, [constructor] and [__proto__], give [NaN]. *)
Theorem parseInterval_unknown_unit (n : Z) (unit : string) :
  has_char " " unit = false ->
  (toLowerCase unit ∉ ["ms"; "s"; "m"; "h"; "d"; "constructor"; "__proto__"] ->
   parseInterval (show n +:+ " " +:+ unit) = inr (Num (n * 1000)))
  /\ (toLowerCase unit ∈ ["constructor"; "__proto__"] ->
      parseInterval (show n +:+ " " +:+ unit) = inr NaN).
Proof.
  intros Hu. rewrite (parseInterval_amount_unit _ _ Hu). split; intros Hin.
  - unfold multiplier_of.
    repeat match goal with
    | |- context [String.eqb ?a ?b] =>
        destruct (String.eqb_spec a b) as [Heq|_];
        [exfalso; apply Hin; rewrite Heq; set_solver|]
    end.
    done.
  - apply elem_of_cons in Hin as [->|Hin]; [done|].
    apply elem_of_cons in Hin as [->|Hin]; [done|]. by apply elem_of_nil in Hin.
Qed.

Lemma parseInterval_unknown_unit_witness :
  parseInterval "2 weeks" = inr (Num 2000)
  /\ parseInterval "2 Constructor" = inr NaN.
Proof.
  destruct (parseInterval_unknown_unit 2 "weeks" eq_refl) as [Hw _].
  destruct (parseInterval_unknown_unit 2 "Constructor" eq_refl) as [_ Hc].
  split.
  - apply Hw. change (toLowerCase "weeks") with "weeks".
    repeat (apply not_elem_of_cons; split; [discriminate|]).
    apply not_elem_of_nil.
  - apply Hc. change (toLowerCase "Constructor") with "constructor".
    apply list_elem_of_here.
Defined.

(** X3. An interval string without a space has no unit: [parseInterval]
    throws a [TypeError], whatever the amount is. *)
Theorem parseInterval_no_space (interval : string) :
  has_char " " interval = false ->
  parseInterval interval
  = inl (TypeError "Cannot read properties of undefined (reading 'toLowerCase')").
Proof.
  intros H. unfold parseInterval. by rewrite (split_whole _ _ H).
Qed.

Lemma parseInterval_no_space_witness :
  parseInterval "10s"
  = inl (TypeError "Cannot read properties of undefined (reading 'toLowerCase')").
Proof. exact (parseInterval_no_space "10s" eq_refl). Defined.

(** ** Keys and the records they name *)

Lemma append_cancel_l (p a b : string) : p +:+ a = p +:+ b -> a = b.
Proof.
  induction p as [|c p IH]; [done|].
  change (String c p +:+ a) with (String c (p +:+ a)).
  change (String c p +:+ b) with (String c (p +:+ b)).
  intros [= H]. by apply IH.
Qed.

Lemma append_cancel_r (a b s : string) : a +:+ s = b +:+ s -> a = b.
Proof.
  revert b. induction a as [|c a IH]; intros [|c' b] H.
  - done.
  - apply (f_equal String.length) in H. rewrite !length_append in H.
    cbn in H. lia.
  - apply (f_equal String.length) in H. rewrite !length_append in H.
    cbn in H. lia.
  - change (String c a +:+ s) with (String c (a +:+ s)) in H.
    change (String c' b +:+ s) with (String c' (b +:+ s)) in H.
    injection H as -> H. f_equal. by apply IH.
Qed.

(** The window at the end of a key is found from the right: it has no
    slash, so the last ["}/"] is where the identifier ends. *)
Lemma key_tail_unique (a b x y : string) :
  has_char "/" x = false -> has_char "/" y = false ->
  a +:+ "}/" +:+ x = b +:+ "}/" +:+ y -> a = b /\ x = y.
Proof.
  intros Hx Hy. change ("}/" +:+ x) with (String "}" (String "/" x)).
  change ("}/" +:+ y) with (String "}" (String "/" y)).
  revert b. induction a as [|c a IH]; intros b H.
  - change ("" +:+ String "}" (String "/" x)) with (String "}" (String "/" x)) in H.
    destruct b as [|c1 [|c2 b]].
    + change ("" +:+ String "}" (String "/" y)) with (String "}" (String "/" y)) in H.
      by injection H as ->.
    + discriminate H.
    + change (String c1 (String c2 b) +:+ String "}" (String "/" y))
        with (String c1 (String c2 (b +:+ String "}" (String "/" y)))) in H.
      injection H as <- <- ->. rewrite has_char_append in Hx.
      apply orb_false_iff in Hx as [_ Hx]. cbn in Hx. discriminate Hx.
  - change (String c a +:+ String "}" (String "/" x))
      with (String c (a +:+ String "}" (String "/" x))) in H.
    destruct b as [|c' b].
    + change ("" +:+ String "}" (String "/" y)) with (String "}" (String "/" y)) in H.
      injection H as -> H. destruct a as [|c2 a].
      * discriminate H.
      * change (String c2 a +:+ String "}" (String "/" x))
          with (String c2 (a +:+ String "}" (String "/" x))) in H.
        injection H as -> H. rewrite <- H, has_char_append in Hy.
        apply orb_false_iff in Hy as [_ Hy]. cbn in Hy. discriminate Hy.
    + change (String c' b +:+ String "}" (String "/" y))
        with (String c' (b +:+ String "}" (String "/" y))) in H.
      injection H as -> H. destruct (IH _ H) as [-> ->]. done.
Qed.

Lemma show_no_slash (n : Z) : has_char "/" (show n) = false.
Proof. by apply has_char_show. Qed.

Lemma fixed_window_getKey_inj (s : FixedWindowStrategy.t) now1 now2 id1 id2 :
  FixedWindowStrategy.getKey s now1 id1 = FixedWindowStrategy.getKey s now2 id2
  <-> id1 = id2
      /\ now1 / FixedWindowStrategy.windowMs s = now2 / FixedWindowStrategy.windowMs s.
Proof.
  unfold FixedWindowStrategy.getKey. split.
  - intros H. apply append_cancel_l, append_cancel_l in H.
    apply key_tail_unique in H as [-> H]; auto using show_no_slash.
    by apply show_inj in H.
  - by intros [-> ->].
Qed.

Lemma token_getKey_inj (s : TokenBucketStrategy.t) now1 now2 id1 id2 :
  TokenBucketStrategy.getKey s now1 id1 = TokenBucketStrategy.getKey s now2 id2
  <-> id1 = id2
      /\ (TokenBucketStrategy.windowType s = FIXED ->
          TokenBucketStrategy.getCurrentWindow s now1
          = TokenBucketStrategy.getCurrentWindow s now2).
Proof.
  unfold TokenBucketStrategy.getKey, TokenBucketStrategy.getCurrentWindow.
  destruct (TokenBucketStrategy.windowType s); split.
  - intros H. apply append_cancel_l in H. by split.
  - by intros [-> _].
  - intros H. apply append_cancel_l, append_cancel_l in H.
    apply key_tail_unique in H as [-> H]; auto using show_no_slash.
    apply show_inj in H. by split.
  - intros [-> H]. by rewrite (H eq_refl).
Qed.

Lemma concurrency_getKey_inj (s : ConcurrencyStrategy.t) id1 id2 :
  ConcurrencyStrategy.getKey s id1 = ConcurrencyStrategy.getKey s id2
  <-> id1 = id2.
Proof.
  unfold ConcurrencyStrategy.getKey. split; [|by intros ->].
  intros H. apply append_cancel_l, append_cancel_l in H.
  by apply append_cancel_r in H.
Qed.

(** What each command touches. *)
Lemma touches_only_ret {A} key (a : A) : touches_only key (ret a).
Proof. by intros d k _. Qed.

Lemma touches_only_throw {A} key e : touches_only (A := A) key (throw e).
Proof. by intros d k _. Qed.

Lemma touches_only_bind {A B} key (m : Lua A) (f : A -> Lua B) :
  touches_only key m -> (forall a, touches_only key (f a)) ->
  touches_only key (bind m f).
Proof.
  intros Hm Hf d k Hk. unfold bind. specialize (Hm d k Hk).
  destruct (m d) as [[e|a] d1]; [done|]. cbn in Hm.
  by rewrite (Hf a d1 k Hk).
Qed.

Lemma touches_only_get key : touches_only key (redis.get key).
Proof.
  intros d k _. unfold redis.get. by destruct (d !! key) as [[[n|fs] t]|].
Qed.

Lemma touches_only_hgetall key : touches_only key (redis.hgetall key).
Proof.
  intros d k _. unfold redis.hgetall. by destruct (d !! key) as [[[n|fs] t]|].
Qed.

Lemma touches_only_set_px key v px : touches_only key (redis.set_px key v px).
Proof.
  intros d k Hk. unfold redis.set_px. destruct (px <=? 0); [done|].
  cbn. by rewrite lookup_insert_ne.
Qed.

Lemma touches_only_incrby key by_ : touches_only key (redis.incrby key by_).
Proof.
  intros d k Hk. unfold redis.incrby.
  destruct (d !! key) as [[[n|fs] t]|]; cbn; by rewrite ?lookup_insert_ne.
Qed.

Lemma touches_only_del key : touches_only key (redis.del key).
Proof.
  intros d k Hk. unfold redis.del.
  destruct (d !! key); cbn; by rewrite ?lookup_delete_ne.
Qed.

Lemma touches_only_pexpire key ms : touches_only key (redis.pexpire key ms).
Proof.
  intros d k Hk. unfold redis.pexpire.
  destruct (d !! key) as [[v t]|]; [|done].
  destruct (ms <=? 0); cbn; by rewrite ?lookup_delete_ne, ?lookup_insert_ne.
Qed.

Lemma touches_only_hmset key f1 v1 f2 v2 :
  touches_only key (redis.hmset key f1 v1 f2 v2).
Proof.
  intros d k Hk. unfold redis.hmset.
  destruct (d !! key) as [[[n|fs] t]|]; cbn; by rewrite ?lookup_insert_ne.
Qed.

Lemma touches_only_eval {A} key (script : Lua A) :
  touches_only key script -> client_touches_only key (eval script).
Proof.
  intros Hs r k Hk. unfold eval. destruct (outage r); [done|].
  specialize (Hs (data r) k Hk). by destruct (script (data r)).
Qed.

Lemma client_touches_only_bind_pure {A B} key (m : Js A) (f : A -> Js B) :
  client_touches_only key m -> (forall a r, (f a r).2 = r) ->
  client_touches_only key (bind m f).
Proof.
  intros Hm Hf r k Hk. rewrite bind_pure_state by done. by apply Hm.
Qed.

Create HintDb touches discriminated.
#[local] Hint Resolve touches_only_ret touches_only_throw touches_only_get
  touches_only_hgetall touches_only_set_px touches_only_incrby
  touches_only_del touches_only_pexpire touches_only_hmset : touches.

Ltac touches :=
  repeat first
    [ apply touches_only_bind; [|intros ?]
    | progress auto with touches
    | match goal with
      | |- touches_only _ (if ?b then _ else _) => destruct b
      | |- touches_only _ (match ?x with _ => _ end) => destruct x
      end ].

Lemma fixed_window_script_touches key limit window :
  touches_only key (FixedWindowStrategy.script key limit window).
Proof. unfold FixedWindowStrategy.script, redis.incr. touches. Qed.

Lemma token_fixed_script_touches key now capacity windowSize takeRate :
  touches_only key
    (TokenBucketStrategy.fixedWindowScript key now capacity windowSize takeRate).
Proof. unfold TokenBucketStrategy.fixedWindowScript. touches. Qed.

Lemma token_sliding_script_touches key now capacity interval refillRate takeRate :
  touches_only key
    (TokenBucketStrategy.slidingWindowScript key now capacity interval
       refillRate takeRate).
Proof. unfold TokenBucketStrategy.slidingWindowScript. touches. Qed.

Lemma concurrency_acquire_script_touches key max timeout now :
  touches_only key (ConcurrencyStrategy.isAllowed_script key max timeout now).
Proof.
  unfold ConcurrencyStrategy.isAllowed_script, redis.incr. touches.
Qed.

Lemma concurrency_release_script_touches key :
  touches_only key (ConcurrencyStrategy.release_script key).
Proof.
  unfold ConcurrencyStrategy.release_script, redis.decr. touches.
Qed.

Lemma fixed_window_isAllowed_touches (s : FixedWindowStrategy.t) identifier now now' :
  client_touches_only (FixedWindowStrategy.getKey s now identifier)
    (FixedWindowStrategy.isAllowed s identifier now now').
Proof.
  unfold FixedWindowStrategy.isAllowed.
  apply client_touches_only_bind_pure; [|by intros [[? ?] ?] ?].
  apply touches_only_eval, fixed_window_script_touches.
Qed.

Lemma del_touches key : client_touches_only key (del key).
Proof. apply touches_only_eval, touches_only_del. Qed.

Lemma fixed_window_reset_touches (s : FixedWindowStrategy.t) identifier now :
  client_touches_only (FixedWindowStrategy.getKey s now identifier)
    (FixedWindowStrategy.reset s identifier now).
Proof.
  unfold FixedWindowStrategy.reset.
  apply client_touches_only_bind_pure; [apply del_touches|done].
Qed.

Lemma token_isAllowed_touches (s : TokenBucketStrategy.t) identifier now_key now :
  client_touches_only (TokenBucketStrategy.getKey s now_key identifier)
    (TokenBucketStrategy.isAllowed s identifier now_key now).
Proof.
  unfold TokenBucketStrategy.isAllowed.
  apply client_touches_only_bind_pure; [|by intros [[? ?] ?] ?].
  destruct (TokenBucketStrategy.windowType s); apply touches_only_eval;
    auto using token_fixed_script_touches, token_sliding_script_touches.
Qed.

Lemma token_updateTokens_touches (s : TokenBucketStrategy.t) identifier amount
    now_key now :
  client_touches_only (TokenBucketStrategy.getKey s now_key identifier)
    (TokenBucketStrategy.updateTokens s identifier amount now_key now).
Proof.
  unfold TokenBucketStrategy.updateTokens.
  apply client_touches_only_bind_pure; [|by intros [[? ?] ?] ?].
  destruct (TokenBucketStrategy.windowType s); apply touches_only_eval.
  - intros d k Hk. rewrite updateTokensSliding_script.
    by apply token_sliding_script_touches.
  - intros d k Hk. rewrite updateTokensFixed_script.
    by apply token_fixed_script_touches.
Qed.

Lemma concurrency_isAllowed_touches (s : ConcurrencyStrategy.t) identifier now :
  client_touches_only (ConcurrencyStrategy.getKey s identifier)
    (ConcurrencyStrategy.isAllowed s identifier now).
Proof.
  intros r k Hk. unfold ConcurrencyStrategy.isAllowed, try_catch.
  match goal with |- context [bind ?m ?f r] =>
    assert (Hm : data (bind m f r).2 !! k = data r !! k) end.
  { refine (client_touches_only_bind_pure _ _ _ _ _ r k Hk);
      [|by intros [[[? ?] ?] ?] ?].
    apply touches_only_eval, concurrency_acquire_script_touches. }
  destruct (bind _ _ r) as [[e|res] r1]; [|exact Hm].
  by destruct (instanceof_RateLimitExceededError e).
Qed.

Lemma concurrency_release_touches (s : ConcurrencyStrategy.t) identifier :
  client_touches_only (ConcurrencyStrategy.getKey s identifier)
    (ConcurrencyStrategy.release s identifier).
Proof.
  unfold ConcurrencyStrategy.release.
  apply client_touches_only_bind_pure; [|done].
  apply touches_only_eval, concurrency_release_script_touches.
Qed.

Lemma concurrency_reset_touches (s : ConcurrencyStrategy.t) identifier :
  client_touches_only (ConcurrencyStrategy.getKey s identifier)
    (ConcurrencyStrategy.reset s identifier).
Proof.
  unfold ConcurrencyStrategy.reset.
  apply client_touches_only_bind_pure; [apply del_touches|done].
Qed.

(** X4. Fixed-window keys tell identifiers and windows apart: two keys are
    equal only for the same identifier in the same window, whatever
    characters the identifiers hold.  A decision or a reset for one
    identifier and window leaves the counter of every other identifier, and
    of every other window, as it was. *)
Theorem fixed_window_isolation (s : FixedWindowStrategy.t) id1 id2 now1 now1'
    now2 (r : Redis) :
  id1 <> id2
  \/ now1 / FixedWindowStrategy.windowMs s <> now2 / FixedWindowStrategy.windowMs s ->
  FixedWindowStrategy.getKey s now1 id1 <> FixedWindowStrategy.getKey s now2 id2
  /\ data (FixedWindowStrategy.isAllowed s id1 now1 now1' r).2
       !! FixedWindowStrategy.getKey s now2 id2
     = data r !! FixedWindowStrategy.getKey s now2 id2
  /\ data (FixedWindowStrategy.reset s id1 now1 r).2
       !! FixedWindowStrategy.getKey s now2 id2
     = data r !! FixedWindowStrategy.getKey s now2 id2.
Proof.
  intros Hne.
  assert (Hk : FixedWindowStrategy.getKey s now2 id2
               <> FixedWindowStrategy.getKey s now1 id1).
  { intros [-> Hw]%fixed_window_getKey_inj. destruct Hne as [?|Hne]; [done|].
    by rewrite Hw in Hne. }
  split; [done|]. split.
  - by apply fixed_window_isAllowed_touches.
  - by apply fixed_window_reset_touches.
Qed.

Lemma fixed_window_isolation_witness :
  let s := FixedWindowStrategy.new 1 1000 None in
  let r := (FixedWindowStrategy.isAllowed s "alice" 5000 5000 (mkRedis ∅ None)).2 in
  data (FixedWindowStrategy.isAllowed s "alice}/5" 5001 5001 r).2
    !! FixedWindowStrategy.getKey s 5002 "alice"
  = data r !! FixedWindowStrategy.getKey s 5002 "alice".
Proof.
  intros s r.
  refine (proj1 (proj2 (fixed_window_isolation s "alice}/5" "alice" 5001 5001
                          5002 r _))).
  left. discriminate.
Defined.

(** X5. Token-bucket keys tell identifiers apart in both modes, and windows
    apart in fixed mode.  A decision or an [updateTokens] for one identifier
    leaves the bucket of every other identifier, and in fixed mode of every
    other window, as it was. *)
Theorem token_bucket_isolation (s : TokenBucketStrategy.t) id1 id2 amount
    now_key1 now1 now_key2 (r : Redis) :
  id1 <> id2
  \/ (TokenBucketStrategy.windowType s = FIXED
      /\ TokenBucketStrategy.getCurrentWindow s now_key1
         <> TokenBucketStrategy.getCurrentWindow s now_key2) ->
  TokenBucketStrategy.getKey s now_key1 id1
    <> TokenBucketStrategy.getKey s now_key2 id2
  /\ data (TokenBucketStrategy.isAllowed s id1 now_key1 now1 r).2
       !! TokenBucketStrategy.getKey s now_key2 id2
     = data r !! TokenBucketStrategy.getKey s now_key2 id2
  /\ data (TokenBucketStrategy.updateTokens s id1 amount now_key1 now1 r).2
       !! TokenBucketStrategy.getKey s now_key2 id2
     = data r !! TokenBucketStrategy.getKey s now_key2 id2.
Proof.
  intros Hne.
  assert (Hk : TokenBucketStrategy.getKey s now_key2 id2
               <> TokenBucketStrategy.getKey s now_key1 id1).
  { intros [-> Hw]%token_getKey_inj. destruct Hne as [?|[Hf Hne]]; [done|].
    by rewrite (Hw Hf) in Hne. }
  split; [done|]. split.
  - by apply token_isAllowed_touches.
  - by apply token_updateTokens_touches.
Qed.

Lemma token_bucket_isolation_witness :
  let s := TokenBucketStrategy.new 5 10000 None (Some SLIDING) None None in
  let r := (TokenBucketStrategy.isAllowed s "user1" 5000 5000 (mkRedis ∅ None)).2 in
  data (TokenBucketStrategy.isAllowed s "user2" 5001 5001 r).2
    !! TokenBucketStrategy.getKey s 5002 "user1"
  = data r !! TokenBucketStrategy.getKey s 5002 "user1".
Proof.
  intros s r.
  refine (proj1 (proj2 (token_bucket_isolation s "user2" "user1" 0 5001 5001
                          5002 r _))).
  left. discriminate.
Defined.

(** ** The token bound, key by key *)

Lemma bucket_within_insert capacity (d : keyspace) key e :
  bucket_ok capacity e -> bucket_within capacity (<[key := e]> d) key.
Proof. intros He e' H. rewrite lookup_insert_eq in H. by injection H as <-. Qed.

Lemma bucket_within_delete capacity (d : keyspace) key :
  bucket_within capacity (delete key d) key.
Proof. intros e H. by rewrite lookup_delete_eq in H. Qed.

Lemma bucket_within_stored capacity (d : keyspace) key tokens :
  bucket_within capacity d key -> stored_tokens d key = Some tokens ->
  0 <= tokens <= capacity.
Proof.
  intros Hd. unfold stored_tokens.
  destruct (d !! key) as [[[n|fs] t]|] eqn:E; try done.
  destruct (Hd _ E) as (tk & rest & -> & Hb). cbn. by intros [= <-].
Qed.

Lemma bucket_within_pexpire capacity (d : keyspace) key ms :
  bucket_within capacity d key ->
  bucket_within capacity (redis.pexpire key ms d).2 key.
Proof.
  intros Hd. unfold redis.pexpire.
  destruct (d !! key) as [[v t]|] eqn:E; [|done].
  destruct (ms <=? 0); cbn.
  - apply bucket_within_delete.
  - apply bucket_within_insert. exact (Hd _ E).
Qed.

Lemma bucket_within_hmset capacity (d : keyspace) key tokens f v :
  f <> "tokens" ->
  0 <= tokens <= capacity ->
  bucket_within capacity d key ->
  bucket_within capacity (redis.hmset key "tokens" tokens f v d).2 key.
Proof.
  intros Hf Hb Hd. unfold redis.hmset.
  destruct (d !! key) as [[[n|fs] t]|] eqn:E; cbn; [done| |].
  - apply bucket_within_insert.
    destruct (Hd _ E) as (tk & rest & -> & _). cbn.
    destruct (String.eqb_spec f "tokens"); [done|]. eauto.
  - apply bucket_within_insert. cbn.
    destruct (String.eqb_spec f "tokens"); [done|]. eauto.
Qed.

(** What both scripts do once the tokens are there: write and expire. *)
Lemma bucket_within_commit {A} capacity (d : keyspace) key tokens f v ms (a : A) :
  f <> "tokens" ->
  0 <= tokens <= capacity ->
  bucket_within capacity d key ->
  bucket_within capacity
    ((_ <- redis.hmset key "tokens" tokens f v ;;
      _ <- redis.pexpire key ms ;;
      ret a) d).2 key.
Proof.
  intros Hf Hb Hd. unfold_eff.
  pose proof (bucket_within_hmset capacity d key tokens f v Hf Hb Hd) as H1.
  destruct (redis.hmset _ _ _ _ _ d) as [[e|[]] d1]; [exact H1|].
  pose proof (bucket_within_pexpire capacity d1 key ms H1) as H2.
  destruct (redis.pexpire key ms d1) as [[e|z] d2]; exact H2.
Qed.

Lemma fixed_script_within key now capacity windowSize takeRate (d : keyspace) :
  0 <= takeRate ->
  bucket_within capacity d key ->
  bucket_within capacity
    (TokenBucketStrategy.fixedWindowScript key now capacity windowSize takeRate d).2
    key.
Proof.
  intros Hcost Hd. unfold TokenBucketStrategy.fixedWindowScript.
  unfold bind at 1. unfold redis.hgetall.
  destruct (d !! key) as [[[n|fs] t]|] eqn:E; cbn [snd]; [done| |].
  - destruct (Hd _ E) as (tk & rest & -> & Hb). cbn [bucket_2 bucket_4 default].
    cbn. destruct (Z.ltb_spec tk takeRate); [done|].
    apply bucket_within_commit; [done|lia|done].
  - cbn. destruct (Z.ltb_spec capacity takeRate); [done|].
    apply bucket_within_commit; [done|lia|done].
Qed.

Lemma sliding_script_within key now capacity interval refillRate takeRate
    (d : keyspace) :
  0 <= takeRate ->
  bucket_within capacity d key ->
  bucket_within capacity
    (TokenBucketStrategy.slidingWindowScript key now capacity interval
       refillRate takeRate d).2 key.
Proof.
  intros Hcost Hd. unfold TokenBucketStrategy.slidingWindowScript.
  assert (Hrun : forall tokens lastRefill,
    bucket_within capacity
      ((let timePassed := now - lastRefill in
        let tokensToAdd := timePassed * refillRate / interval in
        let tokens := Z.min capacity (tokens + tokensToAdd) in
        if tokens <? takeRate
        then ret (Int 0, tokens, lastRefill + interval)
        else
          let tokens := tokens - takeRate in
          _ <- redis.hmset key "tokens" tokens "lastRefill" now ;;
          _ <- redis.pexpire key interval ;;
          ret (Int 1, tokens, now + interval)) d).2 key).
  { intros tokens lastRefill. cbv zeta.
    destruct (Z.ltb_spec
                (Z.min capacity
                   (tokens + (now - lastRefill) * refillRate / interval))
                takeRate) as [Hlt|Hge]; [done|].
    apply bucket_within_commit; [done|lia|done]. }
  unfold bind at 1. unfold redis.hgetall.
  destruct (d !! key) as [[[n|fs] t]|] eqn:E; [done| |].
  - unfold bind at 1.
    destruct (length fs =? 0)%nat; [apply Hrun|].
    destruct (bucket_2 fs); [|by rewrite ?E].
    destruct (bucket_4 fs); [|by rewrite ?E].
    apply Hrun.
  - apply Hrun.
Qed.

Lemma token_isAllowed_within (s : TokenBucketStrategy.t) identifier now_key now
    (r : Redis) :
  0 <= TokenBucketStrategy.takeRate s ->
  let key := TokenBucketStrategy.getKey s now_key identifier in
  bucket_within (TokenBucketStrategy.capacity s) (data r) key ->
  bucket_within (TokenBucketStrategy.capacity s)
    (data (TokenBucketStrategy.isAllowed s identifier now_key now r).2) key.
Proof.
  intros Hcost key Hr. unfold TokenBucketStrategy.isAllowed. fold key.
  rewrite bind_pure_state by (by intros [[? ?] ?] ?).
  destruct (TokenBucketStrategy.windowType s);
    apply (eval_invariant
             (fun d => bucket_within (TokenBucketStrategy.capacity s) d key));
    auto using fixed_script_within, sliding_script_within.
Qed.

Lemma token_updateTokens_within (s : TokenBucketStrategy.t) identifier amount
    now_key now (r : Redis) :
  0 <= amount ->
  let key := TokenBucketStrategy.getKey s now_key identifier in
  bucket_within (TokenBucketStrategy.capacity s) (data r) key ->
  bucket_within (TokenBucketStrategy.capacity s)
    (data (TokenBucketStrategy.updateTokens s identifier amount now_key now r).2)
    key.
Proof.
  intros Hcost key Hr. unfold TokenBucketStrategy.updateTokens. fold key.
  rewrite bind_pure_state by (by intros [[? ?] ?] ?).
  destruct (TokenBucketStrategy.windowType s);
    apply (eval_invariant
             (fun d => bucket_within (TokenBucketStrategy.capacity s) d key));
    auto; intros d Hd.
  - rewrite updateTokensSliding_script. by apply sliding_script_within.
  - rewrite updateTokensFixed_script. by apply fixed_script_within.
Qed.

(** C3 as the code has it, for a positive interval.  In both modes a
    decision and an [updateTokens] with a cost that is not negative keep the
    bound, they do not make it: when the record under the identifier's key
    is missing or holds a token count between 0 and the capacity, the record
    they leave under that key holds one too, and every other key is left as
    it was.  For a refill within the exact range, an [updateTokens] for more
    than the tokens available answers [success = false], reports the
    available count as [remaining] and leaves the store as it was. *)
Theorem token_bucket_invariant (s : TokenBucketStrategy.t) identifier amount
    now_key now (r : Redis) :
  0 < TokenBucketStrategy.interval s ->
  0 <= TokenBucketStrategy.takeRate s ->
  0 <= amount ->
  let key := TokenBucketStrategy.getKey s now_key identifier in
  let capacity := TokenBucketStrategy.capacity s in
  bucket_within capacity (data r) key ->
  let decided := (TokenBucketStrategy.isAllowed s identifier now_key now r).2 in
  let updated :=
    (TokenBucketStrategy.updateTokens s identifier amount now_key now r).2 in
  (bucket_within capacity (data decided) key
   /\ (forall tokens,
         stored_tokens (data decided) key = Some tokens ->
         0 <= tokens <= capacity)
   /\ forall other, other <> key -> data decided !! other = data r !! other)
  /\ (bucket_within capacity (data updated) key
      /\ (forall tokens,
            stored_tokens (data updated) key = Some tokens ->
            0 <= tokens <= capacity)
      /\ forall other, other <> key -> data updated !! other = data r !! other)
  /\ (forall available,
        outage r = None ->
        exact_refill s (data r) key now ->
        available_tokens s (data r) key now = Some available ->
        available < amount ->
        exists result,
          TokenBucketStrategy.updateTokens s identifier amount now_key now r
            = (inr result, r)
          /\ success result = false
          /\ remaining result = available).
Proof.
  intros _ Htake Hamount key capacity Hr decided updated.
  assert (Hd : bucket_within capacity (data decided) key)
    by (by apply token_isAllowed_within).
  assert (Hu : bucket_within capacity (data updated) key)
    by (by apply token_updateTokens_within).
  split; [|split].
  - split; [exact Hd|]. split.
    + intros tokens. by apply bucket_within_stored.
    + intros other Hother. by apply token_isAllowed_touches.
  - split; [exact Hu|]. split.
    + intros tokens. by apply bucket_within_stored.
    + intros other Hother. by apply token_updateTokens_touches.
  - intros available Hout _ Hav Hlt. destruct r as [d o]. cbn in Hout. subst o.
    destruct (updateTokens_rejects s identifier amount now_key now d available
                Hav Hlt) as (result & Hrun & Hs & Hrem).
    by exists result.
Qed.

Lemma token_bucket_invariant_witness :
  let s := TokenBucketStrategy.new 100000 21600000 (Some 1) (Some SLIDING)
             None None in
  let r := mkRedis
             {["token-bucket:user1" :=
                 Entry (RHash [("tokens", 74999); ("lastRefill", 5003)])
                   (Some 21600000)]} None in
  exists result,
    TokenBucketStrategy.updateTokens s "user1" 80000 5004 5004 r = (inr result, r)
    /\ success result = false
    /\ remaining result = 74999.
Proof.
  intros s r.
  assert (Hok : bucket_within (TokenBucketStrategy.capacity s) (data r)
                  (TokenBucketStrategy.getKey s 5004 "user1")).
  { apply (bucket_within_insert _ ∅).
    exists 74999, [("lastRefill", 5003)]. split; [reflexivity|].
    vm_compute. split; discriminate. }
  destruct (token_bucket_invariant s "user1" 80000 5004 5004 r
              eq_refl
              ltac:(vm_compute; discriminate)
              ltac:(vm_compute; discriminate) Hok)
    as (_ & _ & Hrej).
  destruct (Hrej 74999 eq_refl) as (result & Hrun & Hs & Hrem).
  - reflexivity.
  - reflexivity.
  - reflexivity.
  - exists result. split; [exact Hrun|]. split; [exact Hs | exact Hrem].
Defined.

(** C3 as stated does not hold: the bound is not made by the operation.
    Two fixed-mode limiters with the default prefix and the same interval
    work on one record; the one of capacity 10 takes a token from the 99
    that the one of capacity 100 left, and stores 98. *)
Lemma token_bucket_shared_record_over_capacity :
  let a := TokenBucketStrategy.new 100 1000 None None None None in
  let b := TokenBucketStrategy.new 10 1000 None None None None in
  let r1 := (TokenBucketStrategy.isAllowed a "user1" 5000 5000
               (mkRedis ∅ None)).2 in
  let decided := TokenBucketStrategy.isAllowed b "user1" 5001 5001 r1 in
  let key := TokenBucketStrategy.getKey b 5001 "user1" in
  TokenBucketStrategy.getKey a 5000 "user1" = key
  /\ stored_tokens (data r1) key = Some 99
  /\ decided.1 = inr (mkResult true 98 6000 10 "TokenBucketStrategy" None)
  /\ stored_tokens (data decided.2) key = Some 98
  /\ ~ (forall tokens,
          stored_tokens (data decided.2) key = Some tokens ->
          0 <= tokens <= TokenBucketStrategy.capacity b).
Proof.
  vm_compute. repeat split. intros H. by destruct (H 98 eq_refl).
Qed.

(** X6. Concurrency keys tell identifiers apart, and an acquire, a release
    or a reset for one identifier leaves the slot count of every other
    identifier as it was. *)
Theorem concurrency_isolation (s : ConcurrencyStrategy.t) id1 id2 now (r : Redis) :
  id1 <> id2 ->
  ConcurrencyStrategy.getKey s id1 <> ConcurrencyStrategy.getKey s id2
  /\ data (ConcurrencyStrategy.isAllowed s id1 now r).2
       !! ConcurrencyStrategy.getKey s id2
     = data r !! ConcurrencyStrategy.getKey s id2
  /\ data (ConcurrencyStrategy.release s id1 r).2
       !! ConcurrencyStrategy.getKey s id2
     = data r !! ConcurrencyStrategy.getKey s id2
  /\ data (ConcurrencyStrategy.reset s id1 r).2
       !! ConcurrencyStrategy.getKey s id2
     = data r !! ConcurrencyStrategy.getKey s id2.
Proof.
  intros Hne.
  assert (Hk : ConcurrencyStrategy.getKey s id2 <> ConcurrencyStrategy.getKey s id1)
    by (by intros ->%concurrency_getKey_inj).
  split; [by intros ->%concurrency_getKey_inj|]. repeat split.
  - by apply concurrency_isAllowed_touches.
  - by apply concurrency_release_touches.
  - by apply concurrency_reset_touches.
Qed.

Lemma concurrency_isolation_witness :
  let s := ConcurrencyStrategy.new 1 None None in
  let r := (ConcurrencyStrategy.isAllowed s "a" 5000 (mkRedis ∅ None)).2 in
  data (ConcurrencyStrategy.release s "a}/count" r).2
    !! ConcurrencyStrategy.getKey s "a"
  = data r !! ConcurrencyStrategy.getKey s "a".
Proof.
  intros s r.
  refine (proj1 (proj2 (proj2 (concurrency_isolation s "a}/count" "a" 5000 r _)))).
  discriminate.
Defined.

(** ** Quotas *)

Lemma fixed_window_isAllowed_run (s : FixedWindowStrategy.t) identifier now now'
    (d : keyspace) c :
  0 < FixedWindowStrategy.windowMs s ->
  counter_of d (FixedWindowStrategy.getKey s now identifier) = Some c ->
  FixedWindowStrategy.isAllowed s identifier now now' (mkRedis d None)
  = (inr (mkResult (is_one (of_lua_boolean
                              (c + 1 <=? FixedWindowStrategy.maxRequests s)))
            (FixedWindowStrategy.maxRequests s - (c + 1))
            (now' / 1000 + FixedWindowStrategy.windowMs s / 1000)
            (FixedWindowStrategy.maxRequests s) "FixedWindowStrategy" None),
     mkRedis (<[FixedWindowStrategy.getKey s now identifier :=
                  Entry (RString (c + 1))
                    (if c =? 0 then Some (FixedWindowStrategy.windowMs s)
                     else ttl_of d (FixedWindowStrategy.getKey s now identifier))]>
                d) None).
Proof.
  intros Hw Hc. unfold FixedWindowStrategy.isAllowed. unfold_eff.
  cbn [outage data]. by rewrite (fixed_window_script_spec _ _ _ _ c Hw Hc).
Qed.

Lemma fixed_window_run_counter (s : FixedWindowStrategy.t) identifier now clocks :
  0 < FixedWindowStrategy.windowMs s ->
  Forall (fun c : Z * Z => c.1 / FixedWindowStrategy.windowMs s
                           = now / FixedWindowStrategy.windowMs s) clocks ->
  forall (r : Redis) c0,
    outage r = None ->
    counter_of (data r) (FixedWindowStrategy.getKey s now identifier) = Some c0 ->
    let r' := fixed_window_run s identifier clocks r in
    outage r' = None
    /\ counter_of (data r') (FixedWindowStrategy.getKey s now identifier)
       = Some (c0 + Z.of_nat (length clocks)).
Proof.
  intros Hw Hclocks. induction Hclocks as [|[t t'] clocks Ht _ IH];
    intros r c0 Ho Hc; cbn [fixed_window_run fold_left length].
  - split; [done|]. rewrite Hc. f_equal. lia.
  - cbn [fst snd] in *.
    assert (Hkey : FixedWindowStrategy.getKey s t identifier
                   = FixedWindowStrategy.getKey s now identifier)
      by (unfold FixedWindowStrategy.getKey; by rewrite Ht).
    destruct r as [d o]. cbn in Ho, Hc. subst o.
    rewrite <- Hkey in Hc.
    rewrite (fixed_window_isAllowed_run _ _ _ _ _ _ Hw Hc). cbn [snd].
    rewrite Hkey.
    match goal with |- context [fold_left _ clocks ?r0] =>
      destruct (IH r0 (c0 + 1) eq_refl) as [Ho' Hc'] end.
    { cbn [data]. unfold counter_of. by rewrite lookup_insert_eq. }
    split; [exact Ho'|]. unfold fixed_window_run in Hc'. rewrite Hc'.
    f_equal. lia.
Qed.

(** X7. In a window that starts without a counter, the decisions of one
    identifier are counted one by one: after [k] decisions in the window the
    next one succeeds iff [k < maxRequests], and it reports
    [remaining = maxRequests - (k + 1)]. *)
Theorem fixed_window_quota (s : FixedWindowStrategy.t) identifier now now'
    clocks (r : Redis) :
  0 < FixedWindowStrategy.windowMs s ->
  outage r = None ->
  data r !! FixedWindowStrategy.getKey s now identifier = None ->
  Forall (fun c : Z * Z => c.1 / FixedWindowStrategy.windowMs s
                           = now / FixedWindowStrategy.windowMs s) clocks ->
  let k := Z.of_nat (length clocks) in
  exists result r',
    FixedWindowStrategy.isAllowed s identifier now now'
      (fixed_window_run s identifier clocks r) = (inr result, r')
    /\ (success result = true <-> k < FixedWindowStrategy.maxRequests s)
    /\ remaining result = FixedWindowStrategy.maxRequests s - (k + 1).
Proof.
  intros Hw Ho Hfresh Hclocks k.
  destruct (fixed_window_run_counter s identifier now clocks Hw Hclocks r 0 Ho)
    as [Ho' Hc'].
  { unfold counter_of. by rewrite Hfresh. }
  destruct (fixed_window_run s identifier clocks r) as [d o].
  cbn in Ho', Hc'. subst o.
  rewrite (fixed_window_isAllowed_run _ _ _ _ _ _ Hw Hc').
  eexists _, _. split; [reflexivity|]. cbn [success remaining]. fold k.
  split; [|lia].
  destruct (Z.leb_spec (0 + k + 1) (FixedWindowStrategy.maxRequests s)); cbn;
    split; (done || lia).
Qed.

Lemma fixed_window_quota_witness :
  let s := FixedWindowStrategy.new 2 60000 None in
  exists result r',
    FixedWindowStrategy.isAllowed s "test-user-2" 5002 5002
      (fixed_window_run s "test-user-2" [(5000, 5000); (5001, 5001)]
         (mkRedis ∅ None)) = (inr result, r')
    /\ (success result = true <-> 2 < 2)
    /\ remaining result = -1.
Proof.
  intros s.
  refine (fixed_window_quota s "test-user-2" 5002 5002
            [(5000, 5000); (5001, 5001)] (mkRedis ∅ None)
            eq_refl eq_refl eq_refl _).
  repeat constructor.
Defined.

Lemma token_fixed_script_absent key now capacity windowSize takeRate (d : keyspace) :
  0 < windowSize ->
  d !! key = None ->
  TokenBucketStrategy.fixedWindowScript key now capacity windowSize takeRate d
  = if capacity <? takeRate then
      (inr (Int 0, capacity, now + windowSize), d)
    else
      (inr (Int 1, capacity - takeRate, now + windowSize),
       <[key := Entry (RHash [("tokens", capacity - takeRate);
                              ("windowStart", now)])
                  (Some windowSize)]> d).
Proof.
  intros Hw E.
  unfold TokenBucketStrategy.fixedWindowScript, redis.hgetall, redis.hmset,
    redis.pexpire.
  unfold_eff. rewrite E. cbn.
  destruct (capacity <? takeRate); [done|].
  rewrite E. cbn. rewrite lookup_insert_eq.
  replace (windowSize <=? 0) with false by lia.
  by rewrite insert_insert_eq.
Qed.

Lemma token_fixed_script_present key now capacity windowSize takeRate
    (d : keyspace) tokens rest ttl :
  0 < windowSize ->
  d !! key = Some (Entry (RHash (("tokens", tokens) :: rest)) ttl) ->
  let windowStart := default now (bucket_4 (("tokens", tokens) :: rest)) in
  TokenBucketStrategy.fixedWindowScript key now capacity windowSize takeRate d
  = if tokens <? takeRate then
      (inr (Int 0, tokens, windowStart + windowSize), d)
    else
      (inr (Int 1, tokens - takeRate, windowStart + windowSize),
       <[key := Entry (RHash (("tokens", tokens - takeRate)
                              :: redis.hset_field "windowStart" windowStart rest))
                  (Some windowSize)]> d).
Proof.
  intros Hw E windowStart.
  unfold TokenBucketStrategy.fixedWindowScript, redis.hgetall, redis.hmset,
    redis.pexpire.
  unfold_eff. rewrite E. cbn -[bucket_4]. fold windowStart.
  destruct (tokens <? takeRate); [done|].
  rewrite E. cbn -[bucket_4]. rewrite lookup_insert_eq.
  replace (windowSize <=? 0) with false by lia.
  by rewrite insert_insert_eq.
Qed.

(** X8. A fixed-mode decision on a bucket holding [(tokens, windowStart)] (a
    missing record stands for a full bucket whose window starts [now]) is
    rejected below [takeRate], with the tokens as [remaining] and the store
    left as it was; otherwise [takeRate] tokens are taken and stored with the
    same [windowStart] under an expiry of [interval].  Either way the reset
    time is [windowStart + interval]: it runs from the first decision of the
    window, not from the window's boundary. *)
Theorem token_fixed_decide (s : TokenBucketStrategy.t) identifier now_key now
    (d : keyspace) tokens windowStart :
  TokenBucketStrategy.windowType s = FIXED ->
  0 < TokenBucketStrategy.interval s ->
  let key := TokenBucketStrategy.getKey s now_key identifier in
  let capacity := TokenBucketStrategy.capacity s in
  let interval := TokenBucketStrategy.interval s in
  let takeRate := TokenBucketStrategy.takeRate s in
  fixed_record d key capacity now tokens windowStart ->
  TokenBucketStrategy.isAllowed s identifier now_key now (mkRedis d None) =
    if tokens <? takeRate then
      (inr (mkResult false tokens (windowStart + interval) capacity
              "TokenBucketStrategy" None),
       mkRedis d None)
    else
      (inr (mkResult true (tokens - takeRate) (windowStart + interval) capacity
              "TokenBucketStrategy" None),
       mkRedis (<[key := Entry (RHash [("tokens", tokens - takeRate);
                                       ("windowStart", windowStart)])
                           (Some interval)]> d) None).
Proof.
  intros Hmode Hi key capacity interval takeRate Hrec.
  unfold TokenBucketStrategy.isAllowed. rewrite Hmode. fold key.
  unfold_eff. cbn [outage data]. unfold fixed_record in Hrec.
  destruct (d !! key) as [[v ttl]|] eqn:E.
  - cbn in Hrec. subst v.
    rewrite (token_fixed_script_present _ _ _ _ _ _ _ _ _ Hi E).
    fold capacity interval takeRate. cbn.
    by destruct (tokens <? takeRate).
  - destruct Hrec as [-> ->].
    rewrite (token_fixed_script_absent _ _ _ _ _ _ Hi E).
    fold capacity interval takeRate.
    by destruct (capacity <? takeRate).
Qed.

Lemma token_fixed_decide_witness :
  let s := TokenBucketStrategy.new 100000 21600000 (Some 50000) None None None in
  let d : keyspace :=
    {["token-bucket:/bt/{user1}/0" :=
        Entry (RHash [("tokens", 75000); ("windowStart", 5000)]) (Some 21600000)]} in
  TokenBucketStrategy.isAllowed s "user1" 6000 6000 (mkRedis d None) =
    (inr (mkResult true 25000 21605000 100000 "TokenBucketStrategy" None),
     mkRedis (<["token-bucket:/bt/{user1}/0" :=
                  Entry (RHash [("tokens", 25000); ("windowStart", 5000)])
                    (Some 21600000)]> d) None).
Proof.
  intros s d.
  exact (token_fixed_decide s "user1" 6000 6000 d 75000 5000
           eq_refl eq_refl eq_refl).
Defined.

Lemma token_fixed_isAllowed_leading (s : TokenBucketStrategy.t) identifier
    now_key now (d : keyspace) tokens :
  TokenBucketStrategy.windowType s = FIXED ->
  0 < TokenBucketStrategy.interval s ->
  let key := TokenBucketStrategy.getKey s now_key identifier in
  leading_tokens d key (TokenBucketStrategy.capacity s) tokens ->
  exists reset r',
    TokenBucketStrategy.isAllowed s identifier now_key now (mkRedis d None)
    = (inr (mkResult (negb (tokens <? TokenBucketStrategy.takeRate s))
              (if tokens <? TokenBucketStrategy.takeRate s then tokens
               else tokens - TokenBucketStrategy.takeRate s)
              reset (TokenBucketStrategy.capacity s) "TokenBucketStrategy" None),
       r')
    /\ outage r' = None
    /\ leading_tokens (data r') key (TokenBucketStrategy.capacity s)
         (if tokens <? TokenBucketStrategy.takeRate s then tokens
          else tokens - TokenBucketStrategy.takeRate s).
Proof.
  intros Hmode Hi key Hlead.
  unfold TokenBucketStrategy.isAllowed. rewrite Hmode. fold key.
  unfold_eff. cbn [outage data]. unfold leading_tokens in *.
  destruct (d !! key) as [[v ttl]|] eqn:E.
  - destruct Hlead as [rest Hv]. cbn in Hv. subst v.
    rewrite (token_fixed_script_present _ _ _ _ _ _ _ _ _ Hi E).
    destruct (tokens <? TokenBucketStrategy.takeRate s); cbn [negb].
    + eexists _, _. split; [reflexivity|]. split; [done|].
      cbn [data]. rewrite E. by exists rest.
    + eexists _, _. split; [reflexivity|]. split; [done|].
      cbn [data]. rewrite lookup_insert_eq. by eexists.
  - subst tokens.
    rewrite (token_fixed_script_absent _ _ _ _ _ _ Hi E).
    destruct (_ <? TokenBucketStrategy.takeRate s); cbn [negb].
    + eexists _, _. split; [reflexivity|]. split; [done|].
      cbn [data]. by rewrite E.
    + eexists _, _. split; [reflexivity|]. split; [done|].
      cbn [data]. rewrite lookup_insert_eq. by eexists.
Qed.

Lemma token_fixed_run_tokens (s : TokenBucketStrategy.t) identifier now_key clocks :
  TokenBucketStrategy.windowType s = FIXED ->
  0 < TokenBucketStrategy.interval s ->
  0 < TokenBucketStrategy.takeRate s ->
  Forall (fun c : Z * Z => c.1 / TokenBucketStrategy.interval s
                           = now_key / TokenBucketStrategy.interval s) clocks ->
  forall (r : Redis) tokens,
    outage r = None ->
    0 <= tokens ->
    leading_tokens (data r) (TokenBucketStrategy.getKey s now_key identifier)
      (TokenBucketStrategy.capacity s) tokens ->
    let r' := token_bucket_run s identifier clocks r in
    outage r' = None
    /\ leading_tokens (data r') (TokenBucketStrategy.getKey s now_key identifier)
         (TokenBucketStrategy.capacity s)
         (tokens - Z.min (Z.of_nat (length clocks))
                     (tokens / TokenBucketStrategy.takeRate s)
                   * TokenBucketStrategy.takeRate s).
Proof.
  intros Hmode Hi Htake Hclocks.
  induction Hclocks as [|[t t'] clocks Ht _ IH]; intros r tokens Ho Hpos Hlead;
    cbn [token_bucket_run fold_left length].
  - split; [done|].
    replace (Z.min (Z.of_nat 0) _) with 0; [by rewrite Z.mul_0_l, Z.sub_0_r|].
    pose proof (Z.div_pos tokens _ Hpos Htake). lia.
  - cbn [fst snd] in *.
    assert (Hkey : TokenBucketStrategy.getKey s t identifier
                   = TokenBucketStrategy.getKey s now_key identifier).
    { unfold TokenBucketStrategy.getKey. by rewrite Hmode, Ht. }
    destruct r as [d o]. cbn in Ho, Hlead. subst o. rewrite <- Hkey in Hlead.
    destruct (token_fixed_isAllowed_leading s identifier t t' d tokens
                Hmode Hi Hlead) as (reset & r1 & Hrun & Ho1 & Hlead1).
    rewrite Hrun. cbn [snd]. rewrite Hkey in Hlead1.
    set (take := TokenBucketStrategy.takeRate s) in *.
    destruct (Z.ltb_spec tokens take) as [Hlt|Hge].
    + destruct (IH r1 tokens Ho1 Hpos Hlead1) as [Ho' Hl']. split; [exact Ho'|].
      unfold token_bucket_run in Hl'.
      rewrite (Z.div_small tokens take) in * by lia.
      replace (Z.min (Z.of_nat (S (length clocks))) 0) with 0 by lia.
      by replace (Z.min (Z.of_nat (length clocks)) 0) with 0 in Hl' by lia.
    + destruct (IH r1 (tokens - take) Ho1 ltac:(lia) Hlead1) as [Ho' Hl'].
      split; [exact Ho'|]. unfold token_bucket_run in Hl'.
      replace ((tokens - take) / take) with (tokens / take - 1) in Hl'.
      2:{ replace (tokens - take) with (tokens + (-1) * take) by lia.
          rewrite Z.div_add by lia. lia. }
      match goal with
      | H : leading_tokens _ _ _ ?a |- leading_tokens _ _ _ ?b =>
          replace b with a; [exact H|]
      end.
      destruct (Z.min_spec (Z.of_nat (length clocks)) (tokens / take - 1))
        as [[? ->]|[? ->]];
      destruct (Z.min_spec (Z.of_nat (S (length clocks))) (tokens / take))
        as [[? ->]|[? ->]]; lia.
Qed.

(** X9. In fixed mode a window that starts without a record holds
    [capacity] tokens, and each decision takes [takeRate] of them while they
    last: after [k] decisions in the window the next one succeeds iff
    [k < floor (capacity / takeRate)], and then it reports
    [remaining = capacity - (k + 1) * takeRate]; a rejected one reports the
    tokens that are left over. *)
Theorem token_fixed_quota (s : TokenBucketStrategy.t) identifier now_key now
    clocks (r : Redis) :
  TokenBucketStrategy.windowType s = FIXED ->
  0 < TokenBucketStrategy.interval s ->
  0 < TokenBucketStrategy.takeRate s ->
  0 <= TokenBucketStrategy.capacity s ->
  outage r = None ->
  data r !! TokenBucketStrategy.getKey s now_key identifier = None ->
  Forall (fun c : Z * Z => c.1 / TokenBucketStrategy.interval s
                           = now_key / TokenBucketStrategy.interval s) clocks ->
  let k := Z.of_nat (length clocks) in
  let capacity := TokenBucketStrategy.capacity s in
  let takeRate := TokenBucketStrategy.takeRate s in
  exists result r',
    TokenBucketStrategy.isAllowed s identifier now_key now
      (token_bucket_run s identifier clocks r) = (inr result, r')
    /\ (success result = true <-> k < capacity / takeRate)
    /\ (success result = true -> remaining result = capacity - (k + 1) * takeRate)
    /\ (success result = false ->
        remaining result = capacity - capacity / takeRate * takeRate).
Proof.
  intros Hmode Hi Htake Hcap Ho Hfresh Hclocks k capacity takeRate.
  destruct (token_fixed_run_tokens s identifier now_key clocks Hmode Hi Htake
              Hclocks r capacity Ho Hcap) as [Ho' Hl'].
  { unfold leading_tokens. by rewrite Hfresh. }
  destruct (token_bucket_run s identifier clocks r) as [d o].
  cbn in Ho', Hl'. subst o. fold k capacity takeRate in Hl'.
  destruct (token_fixed_isAllowed_leading s identifier now_key now d _
              Hmode Hi Hl') as (reset & r1 & Hrun & _ & _).
  rewrite Hrun. eexists _, _. split; [reflexivity|].
  cbn [success remaining]. fold takeRate.
  pose proof (Z.mul_div_le capacity takeRate Htake) as Hq1.
  pose proof (Z.mul_succ_div_gt capacity takeRate Htake) as Hq2.
  set (q := capacity / takeRate) in *.
  destruct (Z.min_spec k q) as [[Hk ->]|[Hk ->]];
    match goal with |- context [?t <? takeRate] =>
      destruct (Z.ltb_spec t takeRate) end;
    cbn [negb]; repeat split; intros; try done; try nia.
Qed.

Lemma token_fixed_quota_witness :
  let s := TokenBucketStrategy.new 5 10000 (Some 1) None None None in
  exists result r',
    TokenBucketStrategy.isAllowed s "user1" 5005 5005
      (token_bucket_run s "user1"
         [(5000, 5000); (5001, 5001); (5002, 5002); (5003, 5003); (5004, 5004)]
         (mkRedis ∅ None)) = (inr result, r')
    /\ (success result = true <-> 5 < 5)
    /\ (success result = false -> remaining result = 0).
Proof.
  intros s.
  destruct (token_fixed_quota s "user1" 5005 5005
              [(5000, 5000); (5001, 5001); (5002, 5002); (5003, 5003); (5004, 5004)]
              (mkRedis ∅ None) eq_refl eq_refl eq_refl
              ltac:(vm_compute; discriminate) eq_refl eq_refl
              ltac:(repeat constructor))
    as (result & r' & Hrun & Hs & _ & Hrem).
  exists result, r'. split; [exact Hrun|]. split; [exact Hs | exact Hrem].
Defined.

(** ** Refill in sliding mode *)

Lemma sliding_isAllowed_run (s : TokenBucketStrategy.t) identifier now_key now
    (d : keyspace) tokens lastRefill :
  TokenBucketStrategy.windowType s = SLIDING ->
  0 < TokenBucketStrategy.interval s ->
  sliding_record d (TokenBucketStrategy.getKey s now_key identifier)
    (TokenBucketStrategy.capacity s) now tokens lastRefill ->
  let available :=
    refilled (TokenBucketStrategy.capacity s) (TokenBucketStrategy.interval s)
      (TokenBucketStrategy.refillRate s) now tokens lastRefill in
  TokenBucketStrategy.isAllowed s identifier now_key now (mkRedis d None) =
    if available <? TokenBucketStrategy.takeRate s then
      (inr (mkResult false available
              (lastRefill + TokenBucketStrategy.interval s)
              (TokenBucketStrategy.capacity s) "TokenBucketStrategy" None),
       mkRedis d None)
    else
      (inr (mkResult true (available - TokenBucketStrategy.takeRate s)
              (now + TokenBucketStrategy.interval s)
              (TokenBucketStrategy.capacity s) "TokenBucketStrategy" None),
       mkRedis (<[TokenBucketStrategy.getKey s now_key identifier :=
                    Entry (RHash [("tokens",
                                   available - TokenBucketStrategy.takeRate s);
                                  ("lastRefill", now)])
                      (Some (TokenBucketStrategy.interval s))]> d) None).
Proof.
  intros Hmode Hi Hrec available.
  unfold TokenBucketStrategy.isAllowed. rewrite Hmode.
  unfold_eff. cbn [outage data].
  rewrite (sliding_script_spec _ _ _ _ _ _ _ tokens lastRefill Hi Hrec).
  fold available. by destruct (available <? TokenBucketStrategy.takeRate s).
Qed.

Lemma refilled_nothing capacity interval refillRate now tokens lastRefill :
  tokens <= capacity ->
  0 <= (now - lastRefill) * refillRate < interval ->
  refilled capacity interval refillRate now tokens lastRefill = tokens.
Proof.
  intros Hcap Hgap. unfold refilled. rewrite Z.div_small by done. lia.
Qed.

Lemma lookup_elapse_alive ms (d : keyspace) key v ttl :
  d !! key = Some (Entry v ttl) ->
  (forall t, ttl = Some t -> ms < t) ->
  elapse ms d !! key = Some (Entry v ((fun t => t - ms) <$> ttl)).
Proof.
  intros Hd Hlive. unfold elapse. rewrite lookup_omap, Hd. cbn.
  destruct ttl as [t|]; [|done]. cbn.
  specialize (Hlive t eq_refl). by replace (t - ms <=? 0) with false by lia.
Qed.

(** X10. In sliding mode a successful decision moves [lastRefill] to [now]
    and drops the part of a token that the elapsed time had earned.  So
    decisions that follow one another by less than an interval (the record
    of the one is still there at the next) and by less than the time one
    token takes to refill ([elapsed * refillRate < interval]) never refill
    anything: [k] of them take [k * takeRate] tokens from the bucket,
    however long the run lasts in all.  The store's clock runs with the
    decisions; the bucket is the one a decision at [lastRefill] left, with
    an interval or more to live. *)
Theorem sliding_close_calls_never_refill (s : TokenBucketStrategy.t) identifier
    clocks :
  TokenBucketStrategy.windowType s = SLIDING ->
  0 < TokenBucketStrategy.interval s ->
  0 <= TokenBucketStrategy.takeRate s ->
  forall (d : keyspace) tokens lastRefill ttl,
    let key := TokenBucketStrategy.getKey s 0 identifier in
    let k := Z.of_nat (length clocks) in
    d !! key = Some (Entry (RHash [("tokens", tokens); ("lastRefill", lastRefill)])
                       ttl) ->
    (forall t, ttl = Some t -> TokenBucketStrategy.interval s <= t) ->
    tokens <= TokenBucketStrategy.capacity s ->
    k * TokenBucketStrategy.takeRate s <= tokens ->
    closely_spaced (TokenBucketStrategy.refillRate s)
      (TokenBucketStrategy.interval s) lastRefill clocks ->
    let r' := token_bucket_timed_run s identifier lastRefill clocks
                (mkRedis d None) in
    outage r' = None
    /\ exists ttl',
         data r' !! key
         = Some (Entry (RHash [("tokens", tokens - k * TokenBucketStrategy.takeRate s);
                               ("lastRefill", default lastRefill (last clocks))])
                   ttl').
Proof.
  intros Hmode Hi Htake.
  induction clocks as [|now clocks IH];
    intros d tokens lastRefill ttl key k Hd Hlive Hcap Hk Hclose r'.
  - subst r' k. cbn. split; [done|]. exists ttl. rewrite Hd.
    by rewrite Z.sub_0_r.
  - subst r'. cbn [token_bucket_timed_run].
    destruct Hclose as (Hstep & Hgap & Hclose).
    assert (Hkey : TokenBucketStrategy.getKey s now identifier = key)
      by (unfold key, TokenBucketStrategy.getKey; by rewrite Hmode).
    unfold later. cbn [data outage].
    assert (Hd1 : elapse (now - lastRefill) d !! key
                  = Some (Entry (RHash [("tokens", tokens);
                                        ("lastRefill", lastRefill)])
                            ((fun t => t - (now - lastRefill)) <$> ttl))).
    { apply lookup_elapse_alive; [done|].
      intros t Ht. specialize (Hlive t Ht). lia. }
    assert (Hrec : sliding_record (elapse (now - lastRefill) d)
                     (TokenBucketStrategy.getKey s now identifier)
                     (TokenBucketStrategy.capacity s) now tokens lastRefill)
      by (unfold sliding_record; by rewrite Hkey, Hd1).
    rewrite (sliding_isAllowed_run s identifier now now _ tokens lastRefill
               Hmode Hi Hrec).
    rewrite (refilled_nothing _ _ _ _ _ _ Hcap Hgap).
    subst k. cbn [length] in *. rewrite Nat2Z.inj_succ in *.
    replace (tokens <? TokenBucketStrategy.takeRate s) with false by nia.
    cbn [snd]. rewrite Hkey.
    match goal with |- context [token_bucket_timed_run _ _ _ _ (mkRedis ?d1 None)] =>
      destruct (IH d1 (tokens - TokenBucketStrategy.takeRate s) now
                  (Some (TokenBucketStrategy.interval s)))
        as [Ho' [ttl' Hd']] end.
    + by rewrite lookup_insert_eq.
    + intros t [= <-]. lia.
    + lia.
    + nia.
    + exact Hclose.
    + split; [exact Ho'|]. exists ttl'.
      unfold key in *. rewrite Hd'. do 4 f_equal.
      * f_equal. nia.
      * destruct clocks as [|now2 clocks]; [done|].
        by rewrite !last_cons; destruct (last clocks).
Qed.

Lemma sliding_close_calls_never_refill_witness :
  let s := TokenBucketStrategy.new 5 10000 None (Some SLIDING) None None in
  let d : keyspace :=
    {["token-bucket:user1" :=
        Entry (RHash [("tokens", 5); ("lastRefill", 0)]) (Some 10000)]} in
  let r' := token_bucket_timed_run s "user1" 0 [1999; 3998; 5997; 7996]
              (mkRedis d None) in
  exists ttl',
    data r' !! "token-bucket:user1"
    = Some (Entry (RHash [("tokens", 1); ("lastRefill", 7996)]) ttl').
Proof.
  intros s d r'.
  destruct (sliding_close_calls_never_refill s "user1" [1999; 3998; 5997; 7996]
              eq_refl eq_refl ltac:(vm_compute; discriminate)
              d 5 0 (Some 10000) eq_refl)
    as [_ [ttl' Hd']].
  - intros t [= <-]. vm_compute. discriminate.
  - vm_compute. discriminate.
  - vm_compute. discriminate.
  - cbn. repeat split; (vm_compute; (reflexivity || discriminate)).
  - exists ttl'. exact Hd'.
Defined.

(** X11. With the default refill rate ([refillRate = capacity]) a sliding
    bucket is full again once a whole interval has passed since
    [lastRefill], whatever it held: the decision then is the decision on a
    full bucket.  The product [(now - lastRefill) * capacity] is one that a
    double holds exactly; beyond that Lua rounds it, and the quotient by the
    interval can fall one short of the capacity. *)
Theorem sliding_full_after_interval capacity interval takeRate prefix identifier
    now_key now (d : keyspace) tokens lastRefill :
  let s := TokenBucketStrategy.new capacity interval takeRate (Some SLIDING)
             None prefix in
  0 < interval ->
  0 <= tokens ->
  0 <= capacity ->
  sliding_record d (TokenBucketStrategy.getKey s now_key identifier) capacity now
    tokens lastRefill ->
  interval <= now - lastRefill ->
  safe_integer ((now - lastRefill) * capacity) ->
  exists result r',
    TokenBucketStrategy.isAllowed s identifier now_key now (mkRedis d None)
    = (inr result, r')
    /\ (success result = true <-> TokenBucketStrategy.takeRate s <= capacity)
    /\ (success result = true ->
        remaining result = capacity - TokenBucketStrategy.takeRate s).
Proof.
  intros s Hi Ht Hcap Hrec Hgap _.
  rewrite (sliding_isAllowed_run s identifier now_key now d tokens lastRefill
             eq_refl Hi Hrec).
  change (TokenBucketStrategy.capacity s) with capacity.
  change (TokenBucketStrategy.interval s) with interval.
  change (TokenBucketStrategy.refillRate s) with capacity.
  assert (Hfull : refilled capacity interval capacity now tokens lastRefill
                  = capacity).
  { unfold refilled.
    assert (capacity <= (now - lastRefill) * capacity / interval)
      by (apply Z.div_le_lower_bound; nia).
    lia. }
  rewrite Hfull.
  destruct (Z.ltb_spec capacity (TokenBucketStrategy.takeRate s));
    eexists _, _; (split; [reflexivity|]); cbn [success remaining];
    split; try split; intros; (done || lia).
Qed.

Lemma sliding_full_after_interval_witness :
  let s := TokenBucketStrategy.new 5 10000 (Some 1) (Some SLIDING) None None in
  let d : keyspace :=
    {["token-bucket:user1" :=
        Entry (RHash [("tokens", 0); ("lastRefill", 5000)]) (Some 10000)]} in
  exists result r',
    TokenBucketStrategy.isAllowed s "user1" 16000 16000 (mkRedis d None)
    = (inr result, r')
    /\ (success result = true <-> 1 <= 5)
    /\ (success result = true -> remaining result = 4).
Proof.
  intros s d.
  exact (sliding_full_after_interval 5 10000 (Some 1) None "user1" 16000 16000
           d 0 5000 eq_refl ltac:(vm_compute; discriminate)
           ltac:(vm_compute; discriminate) eq_refl
           ltac:(vm_compute; discriminate) eq_refl).
Defined.

Lemma refilled_mono capacity interval refillRate now1 now2 tokens lastRefill :
  0 < interval -> 0 <= refillRate -> now1 <= now2 ->
  refilled capacity interval refillRate now1 tokens lastRefill
  <= refilled capacity interval refillRate now2 tokens lastRefill.
Proof.
  intros Hi Hr Hn. unfold refilled.
  assert ((now1 - lastRefill) * refillRate / interval
          <= (now2 - lastRefill) * refillRate / interval)
    by (apply Z.div_le_mono; nia).
  lia.
Qed.

(** X12. Waiting never costs a sliding-mode decision: with a refill rate
    that is not negative, a decision that succeeds at [now1] on a given
    record (or on a missing one) succeeds at any later [now2] as well, with
    at least as many tokens remaining. *)
Theorem sliding_later_is_no_worse (s : TokenBucketStrategy.t) identifier now1
    now2 (d : keyspace) :
  TokenBucketStrategy.windowType s = SLIDING ->
  0 < TokenBucketStrategy.interval s ->
  0 <= TokenBucketStrategy.refillRate s ->
  now1 <= now2 ->
  (d !! TokenBucketStrategy.getKey s 0 identifier = None
   \/ exists tokens lastRefill ttl,
        d !! TokenBucketStrategy.getKey s 0 identifier
        = Some (Entry (RHash [("tokens", tokens); ("lastRefill", lastRefill)]) ttl)) ->
  exists result1 r1 result2 r2,
    TokenBucketStrategy.isAllowed s identifier now1 now1 (mkRedis d None)
      = (inr result1, r1)
    /\ TokenBucketStrategy.isAllowed s identifier now2 now2 (mkRedis d None)
       = (inr result2, r2)
    /\ (success result1 = true ->
        success result2 = true /\ remaining result1 <= remaining result2).
Proof.
  intros Hmode Hi Hr Hn Hd.
  assert (Hkey : forall now, TokenBucketStrategy.getKey s now identifier
                             = TokenBucketStrategy.getKey s 0 identifier)
    by (intros now; unfold TokenBucketStrategy.getKey; by rewrite Hmode).
  set (key := TokenBucketStrategy.getKey s 0 identifier) in *.
  set (capacity := TokenBucketStrategy.capacity s).
  assert (Hrecs : exists t1 l1 t2 l2,
    sliding_record d key capacity now1 t1 l1
    /\ sliding_record d key capacity now2 t2 l2
    /\ refilled capacity (TokenBucketStrategy.interval s)
         (TokenBucketStrategy.refillRate s) now1 t1 l1
       <= refilled capacity (TokenBucketStrategy.interval s)
            (TokenBucketStrategy.refillRate s) now2 t2 l2).
  { unfold sliding_record. destruct Hd as [E|(t & l & ttl & E)]; rewrite E.
    - exists capacity, now1, capacity, now2. repeat split; try done.
      by rewrite !refilled_now.
    - exists t, l, t, l. repeat split; try done. by apply refilled_mono. }
  destruct Hrecs as (t1 & l1 & t2 & l2 & Hrec1 & Hrec2 & Hle).
  rewrite <- (Hkey now1) in Hrec1. rewrite <- (Hkey now2) in Hrec2.
  rewrite (sliding_isAllowed_run s identifier now1 now1 d t1 l1 Hmode Hi Hrec1).
  rewrite (sliding_isAllowed_run s identifier now2 now2 d t2 l2 Hmode Hi Hrec2).
  fold capacity.
  destruct (Z.ltb_spec (refilled capacity (TokenBucketStrategy.interval s)
                          (TokenBucketStrategy.refillRate s) now1 t1 l1)
              (TokenBucketStrategy.takeRate s));
  destruct (Z.ltb_spec (refilled capacity (TokenBucketStrategy.interval s)
                          (TokenBucketStrategy.refillRate s) now2 t2 l2)
              (TokenBucketStrategy.takeRate s));
    eexists _, _, _, _; (split; [reflexivity|]); (split; [reflexivity|]);
    cbn [success remaining]; intros; (done || (split; [done|lia]) || lia).
Qed.

Lemma sliding_later_is_no_worse_witness :
  let s := TokenBucketStrategy.new 100000 21600000 (Some 25000) (Some SLIDING)
             None None in
  let d : keyspace :=
    {["token-bucket:user1" :=
        Entry (RHash [("tokens", 50000); ("lastRefill", 5000)]) (Some 21600000)]} in
  exists result1 r1 result2 r2,
    TokenBucketStrategy.isAllowed s "user1" 5100 5100 (mkRedis d None)
      = (inr result1, r1)
    /\ TokenBucketStrategy.isAllowed s "user1" 7100 7100 (mkRedis d None)
       = (inr result2, r2)
    /\ (success result1 = true ->
        success result2 = true /\ remaining result1 <= remaining result2).
Proof.
  intros s d.
  refine (sliding_later_is_no_worse s "user1" 5100 7100 d eq_refl eq_refl
            ltac:(vm_compute; discriminate) ltac:(vm_compute; discriminate) _).
  right. by exists 50000, 5000, (Some 21600000).
Defined.

(** ** Concurrency slots: acquire and release *)

Lemma concurrency_isAllowed_run (s : ConcurrencyStrategy.t) identifier now
    (d : keyspace) :
  0 < ConcurrencyStrategy.timeout s ->
  let key := ConcurrencyStrategy.getKey s identifier in
  let max := ConcurrencyStrategy.maxConcurrentRequests s in
  let timeout := ConcurrencyStrategy.timeout s in
  ConcurrencyStrategy.isAllowed s identifier now (mkRedis d None) =
    match d !! key with
    | None =>
        (inr (mkResult true (max - 1) (now + timeout) max "ConcurrencyStrategy"
                (Some 1)),
         mkRedis (<[key := Entry (RString 1) (Some timeout)]> d) None)
    | Some (Entry (RString count) _) =>
        if count >=? max then
          (inr (mkResult false 0 (now + timeout) max "ConcurrencyStrategy"
                  (Some count)),
           mkRedis d None)
        else
          (inr (mkResult true (max - (count + 1)) (now + timeout) max
                  "ConcurrencyStrategy" (Some (count + 1))),
           mkRedis (<[key := Entry (RString (count + 1)) (Some timeout)]> d) None)
    | Some (Entry (RHash _) _) =>
        (inl (Error "Failed to check concurrency limit"), mkRedis d None)
    end.
Proof.
  intros Ht key max timeout.
  unfold ConcurrencyStrategy.isAllowed, ConcurrencyStrategy.isAllowed_script,
    redis.get, redis.set_px, redis.incr, redis.incrby, redis.pexpire.
  fold key max timeout. unfold_eff. cbn [outage data].
  destruct (d !! key) as [[[count|fs] ttl]|] eqn:E; cbn.
  - destruct (count >=? max); cbn; [done|].
    rewrite E. cbn. rewrite lookup_insert_eq.
    replace (timeout <=? 0) with false by lia. cbn.
    by rewrite insert_insert_eq.
  - done.
  - by replace (timeout <=? 0) with false by lia.
Qed.

Lemma concurrency_release_run (s : ConcurrencyStrategy.t) identifier (d : keyspace) :
  let key := ConcurrencyStrategy.getKey s identifier in
  ConcurrencyStrategy.release s identifier (mkRedis d None) =
    match d !! key with
    | None => (inr tt, mkRedis d None)
    | Some (Entry (RString count) ttl) =>
        if count <=? 1 then (inr tt, mkRedis (delete key d) None)
        else (inr tt, mkRedis (<[key := Entry (RString (count - 1)) ttl]> d) None)
    | Some (Entry (RHash _) _) => (inl WRONGTYPE, mkRedis d None)
    end.
Proof.
  intros key.
  unfold ConcurrencyStrategy.release, ConcurrencyStrategy.release_script,
    redis.get, redis.del, redis.decr, redis.incrby.
  fold key. unfold_eff. cbn [outage data].
  destruct (d !! key) as [[[count|fs] ttl]|] eqn:E; cbn; [|done..].
  destruct (count <=? 1); cbn; rewrite E; cbn; [done|].
  by replace (count + -1) with (count - 1) by lia.
Qed.

(** X13. An acquire with no record takes the first slot: the count becomes 1
    under an expiry of [timeout] and [remaining] is [max - 1].  With a count
    at or above the limit it is rejected with [remaining = 0], reports the
    count in its metadata and writes nothing.  Below the limit the count goes
    up by one, the expiry is set to [timeout] again and [remaining] is what
    is left under the limit.  The reset time is [now + timeout] in every
    case. *)
Theorem concurrency_acquire (s : ConcurrencyStrategy.t) identifier now
    (d : keyspace) :
  0 < ConcurrencyStrategy.timeout s ->
  let key := ConcurrencyStrategy.getKey s identifier in
  let max := ConcurrencyStrategy.maxConcurrentRequests s in
  let timeout := ConcurrencyStrategy.timeout s in
  let run := ConcurrencyStrategy.isAllowed s identifier now (mkRedis d None) in
  (d !! key = None ->
   run = (inr (mkResult true (max - 1) (now + timeout) max "ConcurrencyStrategy"
                 (Some 1)),
          mkRedis (<[key := Entry (RString 1) (Some timeout)]> d) None))
  /\ (forall count ttl,
        d !! key = Some (Entry (RString count) ttl) -> max <= count ->
        run = (inr (mkResult false 0 (now + timeout) max "ConcurrencyStrategy"
                      (Some count)),
               mkRedis d None))
  /\ (forall count ttl,
        d !! key = Some (Entry (RString count) ttl) -> count < max ->
        run = (inr (mkResult true (max - (count + 1)) (now + timeout) max
                      "ConcurrencyStrategy" (Some (count + 1))),
               mkRedis (<[key := Entry (RString (count + 1)) (Some timeout)]> d)
                 None)).
Proof.
  intros Ht key max timeout run. subst run.
  rewrite (concurrency_isAllowed_run s identifier now d Ht).
  fold key max timeout. repeat split.
  - by intros ->.
  - intros count ttl -> Hc. by replace (count >=? max) with true by lia.
  - intros count ttl -> Hc. by replace (count >=? max) with false by lia.
Qed.

Lemma concurrency_acquire_witness :
  let s := ConcurrencyStrategy.new 3 (Some 5000) None in
  let d : keyspace :=
    {["concurrency:/cc/{test-user}/count" := Entry (RString 2) (Some 1200)]} in
  ConcurrencyStrategy.isAllowed s "test-user" 7000 (mkRedis d None)
  = (inr (mkResult true 0 12000 3 "ConcurrencyStrategy" (Some 3)),
     mkRedis (<["concurrency:/cc/{test-user}/count" :=
                  Entry (RString 3) (Some 5000)]> d) None).
Proof.
  intros s d.
  exact (proj2 (proj2 (concurrency_acquire s "test-user" 7000 d eq_refl))
           2 (Some 1200) eq_refl eq_refl).
Defined.

(** X14. A release with no record does nothing; it deletes a record whose
    count is 1 or less; otherwise it takes one from the count and leaves the
    expiry as it was.  It answers nothing in each case. *)
Theorem concurrency_release (s : ConcurrencyStrategy.t) identifier (d : keyspace) :
  let key := ConcurrencyStrategy.getKey s identifier in
  let run := ConcurrencyStrategy.release s identifier (mkRedis d None) in
  (d !! key = None -> run = (inr tt, mkRedis d None))
  /\ (forall count ttl,
        d !! key = Some (Entry (RString count) ttl) -> count <= 1 ->
        run = (inr tt, mkRedis (delete key d) None))
  /\ (forall count ttl,
        d !! key = Some (Entry (RString count) ttl) -> 1 < count ->
        run = (inr tt,
               mkRedis (<[key := Entry (RString (count - 1)) ttl]> d) None)).
Proof.
  intros key run. subst run. rewrite (concurrency_release_run s identifier d).
  fold key. repeat split.
  - by intros ->.
  - intros count ttl -> Hc. by replace (count <=? 1) with true by lia.
  - intros count ttl -> Hc. by replace (count <=? 1) with false by lia.
Qed.

Lemma concurrency_release_witness :
  let s := ConcurrencyStrategy.new 3 (Some 5000) None in
  let d : keyspace :=
    {["concurrency:/cc/{test-user}/count" := Entry (RString 2) (Some 1200)]} in
  ConcurrencyStrategy.release s "test-user" (mkRedis d None)
  = (inr tt,
     mkRedis (<["concurrency:/cc/{test-user}/count" :=
                  Entry (RString 1) (Some 1200)]> d) None).
Proof.
  intros s d.
  exact (proj2 (proj2 (concurrency_release s "test-user" d))
           2 (Some 1200) eq_refl eq_refl).
Defined.

Lemma granted_acquire_state (s : ConcurrencyStrategy.t) identifier now
    (d : keyspace) count result r1 :
  0 < ConcurrencyStrategy.timeout s ->
  counter_of d (ConcurrencyStrategy.getKey s identifier) = Some count ->
  ConcurrencyStrategy.isAllowed s identifier now (mkRedis d None)
    = (inr result, r1) ->
  success result = true ->
  r1 = mkRedis (<[ConcurrencyStrategy.getKey s identifier :=
                    Entry (RString (count + 1))
                      (Some (ConcurrencyStrategy.timeout s))]> d) None.
Proof.
  intros Ht Hc Hrun Hs.
  rewrite (concurrency_isAllowed_run s identifier now d Ht) in Hrun.
  unfold counter_of in Hc.
  destruct (d !! ConcurrencyStrategy.getKey s identifier)
    as [[[c|fs] ttl]|] eqn:E; simplify_eq/=; [|done].
  by destruct (count >=? _); simplify_eq/=.
Qed.

Lemma release_after_count (s : ConcurrencyStrategy.t) identifier (d : keyspace)
    count ttl :
  0 <= count ->
  d !! ConcurrencyStrategy.getKey s identifier
    = Some (Entry (RString (count + 1)) ttl) ->
  exists r3,
    ConcurrencyStrategy.release s identifier (mkRedis d None) = (inr tt, r3)
    /\ outage r3 = None
    /\ counter_of (data r3) (ConcurrencyStrategy.getKey s identifier) = Some count.
Proof.
  intros Hpos E. rewrite (concurrency_release_run s identifier d), E.
  destruct (Z.leb_spec (count + 1) 1).
  - eexists. split; [reflexivity|]. split; [done|]. cbn [data].
    unfold counter_of. rewrite lookup_delete_eq. f_equal. lia.
  - eexists. split; [reflexivity|]. split; [done|]. cbn [data].
    unfold counter_of. rewrite lookup_insert_eq. f_equal. lia.
Qed.

(** X15. A granted acquire followed by a release leaves the slot count as
    it was before the acquire. *)
Theorem concurrency_acquire_release (s : ConcurrencyStrategy.t) identifier now
    (d : keyspace) count result r1 :
  0 < ConcurrencyStrategy.timeout s ->
  counter_of d (ConcurrencyStrategy.getKey s identifier) = Some count ->
  0 <= count ->
  ConcurrencyStrategy.isAllowed s identifier now (mkRedis d None)
    = (inr result, r1) ->
  success result = true ->
  exists r2,
    ConcurrencyStrategy.release s identifier r1 = (inr tt, r2)
    /\ outage r2 = None
    /\ counter_of (data r2) (ConcurrencyStrategy.getKey s identifier) = Some count.
Proof.
  intros Ht Hc Hpos Hrun Hs.
  rewrite (granted_acquire_state s identifier now d count result r1
             Ht Hc Hrun Hs).
  apply (release_after_count s identifier _ count
           (Some (ConcurrencyStrategy.timeout s)) Hpos).
  by rewrite lookup_insert_eq.
Qed.

Lemma concurrency_acquire_release_witness :
  let s := ConcurrencyStrategy.new 3 (Some 5000) None in
  let d : keyspace :=
    {["concurrency:/cc/{test-user}/count" := Entry (RString 2) (Some 1200)]} in
  let r1 := (ConcurrencyStrategy.isAllowed s "test-user" 7000 (mkRedis d None)).2 in
  exists r2,
    ConcurrencyStrategy.release s "test-user" r1 = (inr tt, r2)
    /\ outage r2 = None
    /\ counter_of (data r2) "concurrency:/cc/{test-user}/count" = Some 2.
Proof.
  intros s d r1.
  exact (concurrency_acquire_release s "test-user" 7000 d 2
           (mkResult true 0 12000 3 "ConcurrencyStrategy" (Some 3)) r1
           eq_refl eq_refl ltac:(vm_compute; discriminate) eq_refl eq_refl).
Defined.

Lemma elapse_alive deadline t0 now (d : keyspace) key :
  alive_until deadline t0 d key ->
  now < deadline ->
  counter_of (elapse (now - t0) d) key = counter_of d key
  /\ alive_until deadline now (elapse (now - t0) d) key.
Proof.
  intros Hlive Hnow. unfold counter_of, alive_until, elapse in *.
  rewrite lookup_omap.
  destruct (d !! key) as [[v [t|]]|] eqn:E; cbn.
  - specialize (Hlive _ t eq_refl eq_refl).
    replace (t - (now - t0) <=? 0) with false by lia.
    split; [done|]. intros e ttl [= <-] [= <-]. lia.
  - split; [done|]. by intros e ttl [= <-].
  - done.
Qed.

Lemma in_order_snoc prev clocks now :
  in_order prev (clocks ++ [now]) ->
  in_order prev clocks
  /\ default prev (last clocks) <= now
  /\ Forall (fun t => prev <= t <= now) clocks.
Proof.
  revert prev. induction clocks as [|c clocks IH]; intros prev; cbn.
  - intros [H _]. by repeat split.
  - intros [Hc H]. destruct (IH c H) as (Ho & Hl & Hall).
    split; [done|]. split.
    + rewrite last_cons. by destruct (last clocks).
    + assert (c <= now).
      { clear -H. revert c H. induction clocks as [|c' clocks IH]; intros c; cbn.
        - by intros [H _].
        - intros [Hc H]. specialize (IH c' H). lia. }
      constructor; [lia|].
      eapply Forall_impl; [exact Hall|]. cbn. intros t Ht. lia.
Qed.

Lemma acquire_run_counter (s : ConcurrencyStrategy.t) identifier deadline
    clocks :
  0 < ConcurrencyStrategy.timeout s ->
  1 <= ConcurrencyStrategy.maxConcurrentRequests s ->
  forall t0 (r : Redis) count,
    let key := ConcurrencyStrategy.getKey s identifier in
    outage r = None ->
    counter_of (data r) key = Some count ->
    0 <= count <= ConcurrencyStrategy.maxConcurrentRequests s ->
    alive_until deadline t0 (data r) key ->
    Forall (fun t => deadline - ConcurrencyStrategy.timeout s <= t < deadline)
      clocks ->
    let r' := acquire_run s identifier t0 clocks r in
    outage r' = None
    /\ counter_of (data r') key
       = Some (Z.min (count + Z.of_nat (length clocks))
                 (ConcurrencyStrategy.maxConcurrentRequests s))
    /\ alive_until deadline (default t0 (last clocks)) (data r') key.
Proof.
  intros Ht Hmax. induction clocks as [|now clocks IH];
    intros t0 r count key Ho Hc Hb Hlive Hclocks; cbn [acquire_run length].
  - split; [done|]. split; [|done]. rewrite Hc. f_equal. lia.
  - inversion Hclocks as [|? ? Hnow Hrest]; subst.
    destruct r as [d o]. cbn in Ho, Hc, Hlive. subst o.
    unfold later. cbn [data outage].
    destruct (elapse_alive deadline t0 now d key Hlive ltac:(lia))
      as [Hc1 Hlive1].
    rewrite Hc in Hc1.
    rewrite (concurrency_isAllowed_run s identifier now _ Ht).
    fold key.
    set (max := ConcurrencyStrategy.maxConcurrentRequests s) in *.
    assert (Hlast : default t0 (last (now :: clocks))
                    = default now (last clocks))
      by (rewrite last_cons; by destruct (last clocks)).
    rewrite Hlast.
    assert (Hwritten : forall c,
              alive_until deadline now
                (<[key := Entry (RString c)
                            (Some (ConcurrencyStrategy.timeout s))]>
                   (elapse (now - t0) d)) key).
    { intros c e ttl He Httl. rewrite lookup_insert_eq in He.
      injection He as <-. cbn in Httl. injection Httl as <-. lia. }
    unfold counter_of in Hc1.
    destruct (elapse (now - t0) d !! key) as [[[c|fs] ttl]|] eqn:E;
      simplify_eq/=.
    + destruct (Z.geb_spec count max); cbn [snd].
      * destruct (IH now (mkRedis (elapse (now - t0) d) None) count eq_refl)
          as (Ho' & Hc' & Hl');
          [ unfold counter_of; cbn; fold key; by rewrite E
          | lia | exact Hlive1 | exact Hrest | ].
        split; [exact Ho'|]. split; [|exact Hl']. fold key in Hc'.
        rewrite Hc'. f_equal. lia.
      * match goal with |- context [acquire_run _ _ _ _ ?r0] =>
          destruct (IH now r0 (count + 1) eq_refl) as (Ho' & Hc' & Hl') end;
          [ unfold counter_of; cbn; fold key; by rewrite lookup_insert_eq
          | lia | apply Hwritten | exact Hrest | ].
        split; [exact Ho'|]. split; [|exact Hl']. fold key in Hc'.
        rewrite Hc'. f_equal. lia.
    + match goal with |- context [acquire_run _ _ _ _ ?r0] =>
        destruct (IH now r0 1 eq_refl) as (Ho' & Hc' & Hl') end;
        [ unfold counter_of; cbn; fold key; by rewrite lookup_insert_eq
        | lia | apply Hwritten | exact Hrest | ].
      split; [exact Ho'|]. split; [|exact Hl']. fold key in Hc'.
      rewrite Hc'. f_equal. lia.
Qed.

(** X16. With a limit of at least one slot and no record to start with, the
    acquires of an identifier that are not released fill the slots one by
    one, as long as they all come within [timeout] of the first of them
    (the record then lives through the run: every granted acquire gives it
    [timeout] to live): after [k] of them the next acquire succeeds iff
    [k < maxConcurrentRequests], with
    [remaining = maxConcurrentRequests - (k + 1)]; once the slots are full
    every acquire is rejected with [remaining = 0].  The store's clock runs
    with the acquires. *)
Theorem concurrency_quota (s : ConcurrencyStrategy.t) identifier t0 clocks now
    (r : Redis) :
  0 < ConcurrencyStrategy.timeout s ->
  1 <= ConcurrencyStrategy.maxConcurrentRequests s ->
  outage r = None ->
  data r !! ConcurrencyStrategy.getKey s identifier = None ->
  in_order t0 (clocks ++ [now]) ->
  now < hd now clocks + ConcurrencyStrategy.timeout s ->
  let k := Z.of_nat (length clocks) in
  let max := ConcurrencyStrategy.maxConcurrentRequests s in
  exists result r',
    ConcurrencyStrategy.isAllowed s identifier now
      (later (now - default t0 (last clocks))
         (acquire_run s identifier t0 clocks r)) = (inr result, r')
    /\ (success result = true <-> k < max)
    /\ (success result = true -> remaining result = max - (k + 1))
    /\ (success result = false -> remaining result = 0).
Proof.
  intros Ht Hmax Ho Hfresh Horder Hspan k max.
  set (key := ConcurrencyStrategy.getKey s identifier) in *.
  set (deadline := hd now clocks + ConcurrencyStrategy.timeout s) in *.
  assert (Hclocks : Forall (fun t => deadline - ConcurrencyStrategy.timeout s
                                     <= t < deadline) clocks).
  { destruct clocks as [|c clocks]; [done|].
    cbn in Horder. destruct Horder as [_ Horder].
    destruct (in_order_snoc c clocks now Horder) as (_ & _ & Hall).
    assert (c <= now).
    { clear -Horder. revert c Horder.
      induction clocks as [|c' clocks IH]; intros c; cbn.
      - by intros [H _].
      - intros [Hc H]. specialize (IH c' H). lia. }
    subst deadline. cbn [hd] in *. constructor; [lia|].
    eapply Forall_impl; [exact Hall|]. cbn. intros t Hb. lia. }
  destruct (acquire_run_counter s identifier deadline clocks Ht Hmax t0 r 0 Ho)
    as (Ho' & Hc' & Hl').
  { unfold counter_of. fold key. by rewrite Hfresh. }
  { lia. }
  { intros e ttl He. fold key in He. by rewrite Hfresh in He. }
  { exact Hclocks. }
  fold key in Hc', Hl'.
  destruct (acquire_run s identifier t0 clocks r) as [d o].
  cbn in Ho', Hc', Hl'. subst o. unfold later. cbn [data outage].
  destruct (elapse_alive deadline (default t0 (last clocks)) now d key Hl'
              ltac:(subst deadline; lia)) as [Hc1 _].
  rewrite Hc' in Hc1.
  rewrite (concurrency_isAllowed_run s identifier now _ Ht).
  fold key max. fold k max in Hc1. unfold counter_of in Hc1.
  destruct (elapse _ d !! key) as [[[c|fs] ttl]|] eqn:E; simplify_eq/=.
  - destruct (Z.geb_spec (Z.min (0 + k) max) max);
      eexists _, _; (split; [reflexivity|]); cbn [success remaining];
      repeat split; intros; (done || lia).
  - eexists _, _. split; [reflexivity|]. cbn [success remaining].
    repeat split; intros; (done || lia).
Qed.

Lemma concurrency_quota_witness :
  let s := ConcurrencyStrategy.new 2 (Some 1000) None in
  exists result r',
    ConcurrencyStrategy.isAllowed s "test-user" 5999
      (later (5999 - 5400)
         (acquire_run s "test-user" 5000 [5000; 5400] (mkRedis ∅ None)))
    = (inr result, r')
    /\ (success result = true <-> 2 < 2)
    /\ (success result = false -> remaining result = 0).
Proof.
  intros s.
  destruct (concurrency_quota s "test-user" 5000 [5000; 5400] 5999
              (mkRedis ∅ None)
              eq_refl ltac:(vm_compute; discriminate) eq_refl eq_refl)
    as (result & r' & Hrun & Hs & _ & Hrem).
  - cbn. repeat split; (vm_compute; discriminate).
  - reflexivity.
  - exists result, r'. split; [exact Hrun|]. split; [exact Hs | exact Hrem].
Defined.



(** X18. [wrap] gives the slot back: when the acquire is granted and the
    operation leaves the identifier's record and the connection alone,
    [wrap] ends with the operation's outcome, returned or raised, and with
    the slot count it started from. *)
Theorem wrap_restores_slots {T} (s : ConcurrencyStrategy.t) identifier now
    (fn : Js T) (d : keyspace) count result r1 :
  0 < ConcurrencyStrategy.timeout s ->
  let key := ConcurrencyStrategy.getKey s identifier in
  counter_of d key = Some count ->
  0 <= count ->
  ConcurrencyStrategy.isAllowed s identifier now (mkRedis d None)
    = (inr result, r1) ->
  success result = true ->
  outage (fn r1).2 = None ->
  data (fn r1).2 !! key = data r1 !! key ->
  exists r3,
    ConcurrencyStrategy.wrap s identifier now fn (mkRedis d None)
    = ((fn r1).1, r3)
    /\ counter_of (data r3) key = Some count.
Proof.
  intros Ht key Hc Hpos Hrun Hs Ho2 Hd2.
  pose proof (granted_acquire_state s identifier now d count result r1
                Ht Hc Hrun Hs) as Hr1.
  destruct (fn r1) as [outcome [d2 o2]] eqn:Hfn. cbn [fst snd] in *.
  cbn in Ho2. subst o2.
  destruct (release_after_count s identifier d2 count
              (Some (ConcurrencyStrategy.timeout s)) Hpos)
    as (r3 & Hrel & _ & Hc3).
  { cbn [data] in Hd2. fold key. rewrite Hd2, Hr1. cbn [data].
    by rewrite lookup_insert_eq. }
  exists r3. split; [|exact Hc3].
  unfold ConcurrencyStrategy.wrap.
  by rewrite (wrap_accepted _ _ _ _ fn _ result r1 outcome
                (mkRedis d2 None) r3 Hrun Hs Hfn Hrel).
Qed.

Lemma wrap_restores_slots_witness :
  let s := ConcurrencyStrategy.new 3 (Some 5000) None in
  let d : keyspace :=
    {["concurrency:/cc/{test-user}/count" := Entry (RString 2) (Some 1200)]} in
  exists r3,
    ConcurrencyStrategy.wrap s "test-user" 7000 (throw (Error "boom") : Js Z)
      (mkRedis d None)
    = (inl (Error "boom"), r3)
    /\ counter_of (data r3) "concurrency:/cc/{test-user}/count" = Some 2.
Proof.
  intros s d.
  exact (wrap_restores_slots s "test-user" 7000 (throw (Error "boom") : Js Z) d 2
           (mkResult true 0 12000 3 "ConcurrencyStrategy" (Some 3))
           (ConcurrencyStrategy.isAllowed s "test-user" 7000 (mkRedis d None)).2
           eq_refl eq_refl ltac:(vm_compute; discriminate) eq_refl eq_refl
           eq_refl eq_refl).
Defined.

(** ** Callers of the composite *)

Lemma isAllowed_loop_error {W} (pre : list (RateLimiterStrategy.t W)) :
  forall limiter rest identifier checked (w : W) passed w1 e w2,
    decide_each pre identifier w = (inr passed, w1) ->
    Forall passes passed ->
    RateLimiterStrategy.isAllowed limiter identifier w1 = (inl e, w2) ->
    Ratelimit.isAllowed_loop (pre ++ limiter :: rest) identifier checked w
    = (inl e, w2).
Proof.
  induction pre as [|l pre IH];
    intros limiter rest identifier checked w passed w1 e w2 Hpre Hpass Hthrow.
  - cbn in Hpre. unfold ret in Hpre. injection Hpre as <- <-.
    cbn [app Ratelimit.isAllowed_loop]. unfold bind. by rewrite Hthrow.
  - cbn [decide_each] in Hpre. unfold_eff.
    cbn [app Ratelimit.isAllowed_loop]. unfold bind.
    destruct (RateLimiterStrategy.isAllowed l identifier w) as [[e0|r0] w0];
      [done|].
    destruct (decide_each pre identifier w0) as [[e1|rs] w1'] eqn:Hrest; [done|].
    injection Hpre as <- <-. inversion Hpass as [|? ? Hr0 Hrs]; subst.
    unfold passes in Hr0. rewrite Hr0. cbn [negb].
    exact (IH limiter rest identifier _ w0 rs w1' e w2 Hrest Hrs Hthrow).
Qed.

(** X19. When a limiter throws, the composite decision throws the same
    error at once: the limiters before it had passed, the ones after it
    have no part in the outcome, no list is returned, and the state is the
    one the throwing limiter left. *)
Theorem composite_decide_error {W} (pre : list (RateLimiterStrategy.t W)) limiter
    rest identifier (w : W) passed w1 e w2 :
  decide_each pre identifier w = (inr passed, w1) ->
  Forall passes passed ->
  RateLimiterStrategy.isAllowed limiter identifier w1 = (inl e, w2) ->
  Ratelimit.isAllowed (pre ++ limiter :: rest) identifier w = (inl e, w2).
Proof.
  intros Hpre Hpass Hthrow. unfold Ratelimit.isAllowed.
  by eapply isAllowed_loop_error.
Qed.

Lemma composite_decide_error_witness :
  let failing : RateLimiterStrategy.t (list string) :=
    RateLimiterStrategy.mk
      (fun _ log => (inl ECONNREFUSED, log ++ ["isAllowed B"]))
      (fun _ log => (inr tt, log)) in
  Ratelimit.isAllowed
    [createMockStrategy "A" mock_pass (inr tt); failing;
     createMockStrategy "C" mock_pass (inr tt)] "test-user" []
  = (inl ECONNREFUSED, ["isAllowed A"; "isAllowed B"]).
Proof.
  intros failing.
  exact (composite_decide_error
           [createMockStrategy "A" mock_pass (inr tt)] failing
           [createMockStrategy "C" mock_pass (inr tt)] "test-user" []
           [mock_pass] ["isAllowed A"] ECONNREFUSED
           ["isAllowed A"; "isAllowed B"] eq_refl
           ltac:(repeat constructor) eq_refl).
Defined.

Lemma more_restrictive_last (results : list RateLimiterResult) first failed :
  success failed = false ->
  fold_left more_restrictive (results ++ [failed]) first = failed.
Proof.
  intros Hf. rewrite fold_left_app. cbn. unfold more_restrictive.
  by rewrite Hf.
Qed.

Lemma more_restrictive_passes (results : list RateLimiterResult) first :
  passes first -> Forall passes results ->
  passes (fold_left more_restrictive results first).
Proof.
  revert first. induction results as [|r results IH]; intros first Hf Hall;
    [done|].
  inversion Hall as [|? ? Hr Hrs]; subst. cbn [fold_left]. apply IH; [|done].
  unfold more_restrictive. by destruct (_ || _).
Qed.

Lemma composite_results_shape {W} (limiters : list (RateLimiterStrategy.t W))
    identifier (w : W) results w' :
  Ratelimit.isAllowed limiters identifier w = (inr results, w') ->
  Forall passes results
  \/ exists passed failed,
       results = passed ++ [failed] /\ Forall passes passed
       /\ success failed = false.
Proof.
  intros Hrun. unfold Ratelimit.isAllowed in Hrun.
  destruct (isAllowed_loop_spec limiters identifier [] w)
    as (evaluated & skipped & _ & Heq & Hres).
  rewrite Heq in Hrun. unfold bind, ret in Hrun.
  destruct (decide_each evaluated identifier w) as [[e|rs] w1] eqn:Hd; [done|].
  injection Hrun as <- <-.
  destruct (Hres rs w1 eq_refl) as [(passed & failed & -> & Hp & Hf & _)|[_ Hall]].
  - right. by exists passed, failed.
  - by left.
Qed.

(** X20. The example middleware lets a request through exactly when every
    limiter that was asked passes.  When the composite stops at a rejection,
    the reply is a 429 that names the rejecting limiter, with
    [retryAfter = reset - now] of its result; a composite without limiters
    returns an empty list, on which [reduce] throws, and a limiter's error is
    caught: both go to [next(error)]. *)
Theorem middleware_outcome {W} (limiter : list (RateLimiterStrategy.t W)) ip now
    (w : W) :
  let identifier := match ip with
                    | Some ip => if String.eqb ip "" then "127.0.0.1" else ip
                    | None => "127.0.0.1"
                    end in
  match Ratelimit.isAllowed limiter identifier w with
  | (inl e, w') =>
      createRateLimitMiddleware limiter ip now w = (inr (next_error e), w')
  | (inr results, w') =>
      let headers := fold_left set_rate_limit_headers results ∅ in
      (results = []
       /\ createRateLimitMiddleware limiter ip now w
          = (inr (next_error
                    (TypeError "Reduce of empty array with no initial value")),
             w'))
      \/ (results <> [] /\ Forall passes results
          /\ createRateLimitMiddleware limiter ip now w = (inr (next headers), w'))
      \/ (exists passed failed,
             results = passed ++ [failed] /\ Forall passes passed
             /\ success failed = false
             /\ createRateLimitMiddleware limiter ip now w
                = (inr (status_429 headers (name failed) (reset failed - now)),
                   w'))
  end.
Proof.
  intros identifier. unfold createRateLimitMiddleware. fold identifier.
  unfold_eff.
  destruct (Ratelimit.isAllowed limiter identifier w) as [[e|results] w'] eqn:Hrun;
    [done|].
  destruct (composite_results_shape _ _ _ _ _ Hrun)
    as [Hall|(passed & failed & -> & Hp & Hf)].
  - destruct results as [|first results]; [by left|].
    right; left. split; [done|]. split; [done|]. cbn [reduce].
    inversion Hall as [|? ? Hfirst Hrest]; subst.
    pose proof (more_restrictive_passes results first Hfirst Hrest) as Hpass.
    unfold passes in Hpass. by rewrite Hpass.
  - right; right. exists passed, failed. repeat split; try done.
    assert (Hred : reduce more_restrictive (passed ++ [failed]) = inr failed).
    { destruct passed as [|first passed]; [done|]. cbn [app reduce].
      by rewrite more_restrictive_last. }
    rewrite Hred. by rewrite Hf.
Qed.

(** The scenario of the fail-fast test behind the middleware. *)
Example middleware_rejects :
  createRateLimitMiddleware
    [createMockStrategy "A" mock_pass (inr tt);
     createMockStrategy "B" mock_fail (inr tt);
     createMockStrategy "C" mock_pass (inr tt)] (Some "10.0.0.7") 400 []
  = (inr (status_429
            (fold_left set_rate_limit_headers [mock_pass; mock_fail] ∅)
            "mock-strategy" 600),
     ["isAllowed A"; "isAllowed B"]).
Proof. reflexivity. Qed.

(** X21. With their default prefixes the limiters of different kinds, and
    both copies of the fixed window, never work on the same key, whatever the
    identifiers are: combined on one store they cannot take each other's
    records for their own. *)
Theorem default_keys_disjoint (maxRequests window capacity interval max : Z)
    takeRate windowType refillRate timeout id1 id2 now1 now2 :
  let fixed_window := FixedWindowStrategy.new maxRequests window None in
  let fixed_window' := FixedWindowStrategy.new_positional maxRequests window None in
  let token_bucket :=
    TokenBucketStrategy.new capacity interval takeRate windowType refillRate None in
  let concurrency := ConcurrencyStrategy.new max timeout None in
  FixedWindowStrategy.getKey fixed_window now1 id1
    <> TokenBucketStrategy.getKey token_bucket now2 id2
  /\ FixedWindowStrategy.getKey fixed_window now1 id1
     <> ConcurrencyStrategy.getKey concurrency id2
  /\ FixedWindowStrategy.getKey fixed_window' now1 id1
     <> TokenBucketStrategy.getKey token_bucket now2 id2
  /\ FixedWindowStrategy.getKey fixed_window' now1 id1
     <> ConcurrencyStrategy.getKey concurrency id2
  /\ TokenBucketStrategy.getKey token_bucket now1 id1
     <> ConcurrencyStrategy.getKey concurrency id2.
Proof.
  intros fixed_window fixed_window' token_bucket concurrency.
  unfold FixedWindowStrategy.getKey, TokenBucketStrategy.getKey,
    ConcurrencyStrategy.getKey.
  cbn [FixedWindowStrategy.prefix TokenBucketStrategy.prefix
       ConcurrencyStrategy.prefix TokenBucketStrategy.windowType
       fixed_window fixed_window' token_bucket concurrency
       FixedWindowStrategy.new FixedWindowStrategy.new_positional
       TokenBucketStrategy.new ConcurrencyStrategy.new default from_option id].
  repeat split; destruct (default FIXED windowType);
    intros H; apply (f_equal (String.get 0)) in H; discriminate H.
Qed.

(** ** A new window *)

Lemma eval_outage_same {A} (script : Lua A) (r : Redis) :
  outage (eval script r).2 = outage r.
Proof.
  unfold eval. destruct (outage r) eqn:E; [done|].
  by destruct (script (data r)).
Qed.

Lemma fixed_window_isAllowed_outage (s : FixedWindowStrategy.t) identifier now
    now' (r : Redis) :
  outage (FixedWindowStrategy.isAllowed s identifier now now' r).2 = outage r.
Proof.
  unfold FixedWindowStrategy.isAllowed.
  rewrite bind_pure_state by (by intros [[? ?] ?] ?). apply eval_outage_same.
Qed.

Lemma fixed_window_run_other_windows (s : FixedWindowStrategy.t) identifier now
    clocks :
  Forall (fun c : Z * Z => c.1 / FixedWindowStrategy.windowMs s
                           <> now / FixedWindowStrategy.windowMs s) clocks ->
  forall r : Redis,
    outage (fixed_window_run s identifier clocks r) = outage r
    /\ data (fixed_window_run s identifier clocks r)
         !! FixedWindowStrategy.getKey s now identifier
       = data r !! FixedWindowStrategy.getKey s now identifier.
Proof.
  intros Hclocks. induction Hclocks as [|[t t'] clocks Ht _ IH]; intros r;
    [done|].
  cbn [fixed_window_run fold_left fst snd] in *.
  destruct (IH (FixedWindowStrategy.isAllowed s identifier t t' r).2) as [Ho Hd].
  unfold fixed_window_run in *. rewrite Ho, Hd. split.
  - apply fixed_window_isAllowed_outage.
  - apply fixed_window_isAllowed_touches.
    intros [_ Hw]%fixed_window_getKey_inj. by rewrite Hw in Ht.
Qed.

(** X22. A new window starts afresh: however many decisions an identifier
    has had in other windows, its first decision in a window that has no
    counter yet is judged on its own, succeeds iff [1 <= maxRequests] and
    reports [remaining = maxRequests - 1]. *)
Theorem fixed_window_rollover (s : FixedWindowStrategy.t) identifier now now'
    clocks (r : Redis) :
  0 < FixedWindowStrategy.windowMs s ->
  outage r = None ->
  data r !! FixedWindowStrategy.getKey s now identifier = None ->
  Forall (fun c : Z * Z => c.1 / FixedWindowStrategy.windowMs s
                           <> now / FixedWindowStrategy.windowMs s) clocks ->
  exists result r',
    FixedWindowStrategy.isAllowed s identifier now now'
      (fixed_window_run s identifier clocks r) = (inr result, r')
    /\ (success result = true <-> 1 <= FixedWindowStrategy.maxRequests s)
    /\ remaining result = FixedWindowStrategy.maxRequests s - 1.
Proof.
  intros Hw Ho Hfresh Hclocks.
  destruct (fixed_window_run_other_windows s identifier now clocks Hclocks r)
    as [Ho' Hd'].
  destruct (fixed_window_run s identifier clocks r) as [d o].
  cbn in Ho', Hd'. rewrite Ho in Ho'. subst o. rewrite Hfresh in Hd'.
  rewrite (fixed_window_isAllowed_run s identifier now now' d 0 Hw)
    by (unfold counter_of; by rewrite Hd').
  eexists _, _. split; [reflexivity|]. cbn [success remaining].
  split; [|lia].
  destruct (Z.leb_spec (0 + 1) (FixedWindowStrategy.maxRequests s)); cbn;
    split; (done || lia).
Qed.

Lemma fixed_window_rollover_witness :
  let s := FixedWindowStrategy.new_positional 1 1000 None in
  exists result r',
    FixedWindowStrategy.isAllowed s "test-user" 6000 6000
      (fixed_window_run s "test-user" [(5000, 5000); (5001, 5001)]
         (mkRedis ∅ None)) = (inr result, r')
    /\ (success result = true <-> 1 <= 1)
    /\ remaining result = 0.
Proof.
  intros s.
  refine (fixed_window_rollover s "test-user" 6000 6000
            [(5000, 5000); (5001, 5001)] (mkRedis ∅ None)
            eq_refl eq_refl eq_refl _).
  repeat constructor; discriminate.
Defined.

(** ** Witnesses of the round trips and of the bounds *)

Lemma fixed_window_reset_round_trip_witness :
  let s := FixedWindowStrategy.new 1 1000 None in
  let used := (FixedWindowStrategy.isAllowed s "test-user" 5000 5000
                 (mkRedis ∅ None)).2 in
  (FixedWindowStrategy.isAllowed s "test-user" 5001 5001
     (FixedWindowStrategy.reset s "test-user" 5001 used).2).1
  = (FixedWindowStrategy.isAllowed s "test-user" 5001 5001 (mkRedis ∅ None)).1.
Proof.
  intros s used.
  exact (fixed_window_reset_round_trip s "test-user" 5001 5001 used
           (mkRedis ∅ None) eq_refl eq_refl eq_refl eq_refl).
Defined.

Lemma token_sliding_reset_round_trip_witness :
  let s := TokenBucketStrategy.new 5 10000 None (Some SLIDING) None None in
  let used := (TokenBucketStrategy.isAllowed s "user1" 5000 5000
                 (mkRedis ∅ None)).2 in
  (TokenBucketStrategy.isAllowed s "user1" 5001 5001
     (TokenBucketStrategy.reset s "user1" 5001 used).2).1
  = (TokenBucketStrategy.isAllowed s "user1" 5001 5001 (mkRedis ∅ None)).1.
Proof.
  intros s used.
  exact (token_sliding_reset_round_trip s "user1" 5001 5001 used
           (mkRedis ∅ None) eq_refl eq_refl eq_refl eq_refl eq_refl).
Defined.

Lemma concurrency_reset_round_trip_witness :
  let s := ConcurrencyStrategy.new 1 (Some 5000) None in
  let used := (ConcurrencyStrategy.isAllowed s "test-user-2" 5000
                 (mkRedis ∅ None)).2 in
  (ConcurrencyStrategy.isAllowed s "test-user-2" 5001
     (ConcurrencyStrategy.reset s "test-user-2" used).2).1
  = (ConcurrencyStrategy.isAllowed s "test-user-2" 5001 (mkRedis ∅ None)).1.
Proof.
  intros s used.
  exact (concurrency_reset_round_trip s "test-user-2" 5001 used
           (mkRedis ∅ None) eq_refl eq_refl eq_refl).
Defined.

Lemma concurrency_slots_bounded_witness :
  let s := ConcurrencyStrategy.new 1 (Some 1000) None in
  slots_ok 1
    (data (fold_left (run_slot_op s "test-user")
             [Acquire 5000; Acquire 5001; Release; Acquire 5002; Elapse 1000;
              ResetSlots; Acquire 7000]
             (mkRedis ∅ None)))
    (ConcurrencyStrategy.getKey s "test-user").
Proof.
  intros s.
  exact (concurrency_slots_bounded s "test-user"
           [Acquire 5000; Acquire 5001; Release; Acquire 5002; Elapse 1000;
            ResetSlots; Acquire 7000]
           ltac:(vm_compute; discriminate)).
Defined.

Lemma token_buckets_bounded_witness :
  let s := TokenBucketStrategy.new 100000 21600000 (Some 1) (Some SLIDING)
             None None in
  buckets_ok 100000
    (data (fold_left (run_bucket_op s)
             [Decide "user1" 5000 5000; Update "user1" 25000 5001 5001;
              Update "user1" 80000 5002 5002; ElapseBuckets 2000;
              Decide "user1" 7003 7003; ResetBucket "user1" 7004]
             (mkRedis ∅ None))).
Proof.
  intros s.
  exact (token_buckets_bounded s
           [Decide "user1" 5000 5000; Update "user1" 25000 5001 5001;
            Update "user1" 80000 5002 5002; ElapseBuckets 2000;
            Decide "user1" 7003 7003; ResetBucket "user1" 7004]
           ltac:(vm_compute; discriminate)
           ltac:(repeat constructor; vm_compute; discriminate)).
Defined.

(** ** Lua's doubles and the exact refill *)

Lemma round_half_even_bounds n d :
  0 < d ->
  let m := round_half_even n d in
  n / d <= m <= n / d + 1
  /\ (m = n / d + 1 -> d <= 2 * (n mod d))
  /\ (m = n / d -> 2 * (n mod d) <= d).
Proof.
  intros Hd m. subst m. unfold round_half_even.
  destruct (Z.ltb_spec (2 * (n mod d)) d); [lia|].
  destruct (Z.ltb_spec d (2 * (n mod d))); [lia|].
  destruct (Z.even (n / d)); lia.
Qed.

Lemma log2_quotient_normal n d :
  0 < n < 2 ^ 53 -> 0 < d ->
  let k := 52 - log2_quotient n d in
  0 <= k /\ d * 2 ^ 52 <= n * 2 ^ k.
Proof.
  intros Hn Hd k. subst k. unfold log2_quotient. cbv zeta.
  pose proof (Z.log2_spec n ltac:(lia)) as [Hn1 Hn2].
  pose proof (Z.log2_spec d ltac:(lia)) as [Hd1 Hd2].
  pose proof (Z.log2_nonneg n) as Hln. pose proof (Z.log2_nonneg d) as Hld.
  assert (Hln53 : Z.log2 n < 53) by (apply Z.log2_lt_pow2; lia).
  set (ln := Z.log2 n) in *. set (ld := Z.log2 d) in *.
  clearbody ln ld.
  destruct (Z.ltb_spec (n * 2 ^ Z.max 0 (- (ln - ld))) (d * 2 ^ Z.max 0 (ln - ld)))
    as [Hlt|Hge].
  - split; [clear -Hln53 Hld; lia|].
    replace (52 - (ln - ld - 1)) with (53 - ln + ld) by lia.
    assert (2 ^ 52 * 2 ^ (ld + 1) <= 2 ^ ln * 2 ^ (53 - ln + ld)).
    { rewrite <- !Z.pow_add_r by lia. apply Z.pow_le_mono_r; lia. }
    assert (0 < 2 ^ (53 - ln + ld)) by (apply Z.pow_pos_nonneg; lia).
    nia.
  - split; [clear -Hln53 Hld; lia|].
    destruct (Z.le_gt_cases 0 (ln - ld)) as [Hs|Hs].
    + replace (Z.max 0 (- (ln - ld))) with 0 in Hge by lia.
      replace (Z.max 0 (ln - ld)) with (ln - ld) in Hge by lia.
      rewrite Z.pow_0_r, Z.mul_1_r in Hge.
      replace 52 with ((ln - ld) + (52 - (ln - ld))) at 1 by lia.
      rewrite Z.pow_add_r by lia.
      assert (0 < 2 ^ (52 - (ln - ld))) by (apply Z.pow_pos_nonneg; lia).
      nia.
    + replace (Z.max 0 (- (ln - ld))) with (- (ln - ld)) in Hge by lia.
      replace (Z.max 0 (ln - ld)) with 0 in Hge by lia.
      rewrite Z.pow_0_r, Z.mul_1_r in Hge.
      replace (52 - (ln - ld)) with (- (ln - ld) + 52) by lia.
      rewrite Z.pow_add_r by lia.
      nia.
Qed.

Lemma floor_of_rounded n d k :
  0 < n < 2 ^ 53 -> 0 < d -> 0 <= k -> d * 2 ^ 52 <= n * 2 ^ k ->
  round_half_even (n * 2 ^ k) d / 2 ^ k = n / d
  /\ (- round_half_even (n * 2 ^ k) d) / 2 ^ k = (- n) / d.
Proof.
  intros Hn Hd Hk Hnorm.
  assert (Hpow : 0 < 2 ^ k) by (apply Z.pow_pos_nonneg; lia).
  assert (Hsmall : d < 2 * 2 ^ k) by nia.
  destruct (round_half_even_bounds (n * 2 ^ k) d Hd) as (Hm & Hup & Hdown).
  set (m := round_half_even (n * 2 ^ k) d) in *.
  pose proof (Z.div_mod (n * 2 ^ k) d ltac:(lia)) as HN.
  pose proof (Z.mod_pos_bound (n * 2 ^ k) d Hd) as HR.
  set (Q := n * 2 ^ k / d) in *. set (R := (n * 2 ^ k) mod d) in *.
  clearbody m Q R.
  split.
  - pose proof (Z.div_mod n d ltac:(lia)) as Hq.
    pose proof (Z.mod_pos_bound n d Hd) as Hr.
    set (q := n / d) in *. set (r := n mod d) in *. clearbody q r.
    symmetry. apply (Z.div_unique_pos m (2 ^ k) q (m - q * 2 ^ k)); [|lia].
    assert (q * 2 ^ k <= Q) by nia.
    assert (Q < (q + 1) * 2 ^ k) by nia.
    split; [lia|].
    destruct (Z.eq_dec m (Q + 1)) as [Hm1|Hm1]; [|lia].
    specialize (Hup Hm1).
    destruct (Z.eq_dec Q ((q + 1) * 2 ^ k - 1)) as [HQ|HQ]; [|lia].
    exfalso. subst Q. nia.
  - pose proof (Z.div_mod (- n) d ltac:(lia)) as Hq.
    pose proof (Z.mod_pos_bound (- n) d Hd) as Hr.
    set (q := - n / d) in *. set (r := (- n) mod d) in *. clearbody q r.
    symmetry. apply (Z.div_unique_pos (- m) (2 ^ k) q (- m - q * 2 ^ k)); [|lia].
    assert (Hlow : - (q + 1) * 2 ^ k <= Q) by nia.
    assert (Hhigh : Q <= - q * 2 ^ k) by nia.
    split.
    + destruct (Z.eq_dec r 0) as [Hr0|Hr0].
      * assert (d * (Q + q * 2 ^ k) = - R) by nia.
        assert (Q + q * 2 ^ k = 0) by nia.
        assert (R = 0) by nia. assert (m = Q) by lia. lia.
      * assert (Q <= - q * 2 ^ k - 1) by nia. lia.
    + destruct (Z.eq_dec Q (- (q + 1) * 2 ^ k)) as [HQ|HQ]; [|lia].
      assert (HR2 : R = (d - r) * 2 ^ k) by nia.
      destruct (Z.eq_dec m Q) as [Hm0|Hm0]; [|lia].
      specialize (Hdown Hm0). exfalso. nia.
Qed.

Lemma round_half_even_whole n : round_half_even n 1 = n.
Proof.
  unfold round_half_even. rewrite Z.mod_1_r, Z.div_1_r. reflexivity.
Qed.

Lemma lua_mul_exact a b : safe_integer (a * b) -> lua_mul a b = a * b.
Proof.
  unfold safe_integer, lua_mul. intros Hsafe. cbv zeta.
  destruct (Z.eqb_spec (a * b) 0) as [H0|H0]; [done|].
  set (p := a * b) in *. clearbody p.
  assert (Hn : 0 < Z.abs p < 2 ^ 53) by lia.
  destruct (log2_quotient_normal (Z.abs p) 1 Hn ltac:(lia)) as [Hk Hnorm].
  unfold nearest_double, floor_double.
  set (l := log2_quotient (Z.abs p) 1) in *. clearbody l.
  replace (Z.max 0 (- (l - 52))) with (52 - l) by lia.
  replace (Z.max 0 (l - 52)) with 0 by lia.
  rewrite Z.pow_0_r, Z.mul_1_r, round_half_even_whole.
  assert (Hpow : 0 < 2 ^ (52 - l)) by (apply Z.pow_pos_nonneg; lia).
  destruct (Z.leb_spec 0 (l - 52)).
  - replace (l - 52) with 0 by lia. replace (52 - l) with 0 by lia.
    rewrite Z.pow_0_r, !Z.mul_1_r. lia.
  - replace (- (l - 52)) with (52 - l) by lia.
    rewrite Z.div_mul by lia. lia.
Qed.

Lemma lua_floor_div_exact a b :
  safe_integer a -> b <> 0 -> lua_floor_div a b = a / b.
Proof.
  unfold safe_integer, lua_floor_div. intros Hsafe Hb.
  destruct (Z.eqb_spec a 0) as [->|H0]; [done|].
  assert (Hn : 0 < Z.abs a < 2 ^ 53) by lia.
  assert (Hd : 0 < Z.abs b) by lia.
  destruct (log2_quotient_normal (Z.abs a) (Z.abs b) Hn Hd) as [Hk Hnorm].
  unfold nearest_double, floor_double.
  set (l := log2_quotient (Z.abs a) (Z.abs b)) in *. clearbody l.
  replace (Z.max 0 (- (l - 52))) with (52 - l) by lia.
  replace (Z.max 0 (l - 52)) with 0 by lia.
  rewrite Z.pow_0_r, Z.mul_1_r.
  destruct (floor_of_rounded (Z.abs a) (Z.abs b) (52 - l) Hn Hd Hk Hnorm)
    as [Hpos Hneg].
  set (m := round_half_even (Z.abs a * 2 ^ (52 - l)) (Z.abs b)) in *.
  clearbody m.
  assert (Hgoal : Z.sgn a * Z.sgn b * m / 2 ^ (52 - l) = a / b).
  { destruct (Z.lt_total a 0) as [Ha|[Ha|Ha]]; [|lia|];
      destruct (Z.lt_total b 0) as [Hb'|[Hb'|Hb']]; try lia.
    - rewrite (Z.sgn_neg a), (Z.sgn_neg b) by lia.
      replace (-1 * -1 * m) with m by lia. rewrite Hpos.
      rewrite (Z.abs_neq a), (Z.abs_neq b) by lia. apply Z.div_opp_opp. lia.
    - rewrite (Z.sgn_neg a), (Z.sgn_pos b) by lia.
      replace (-1 * 1 * m) with (- m) by lia. rewrite Hneg.
      rewrite (Z.abs_neq a), (Z.abs_eq b) by lia. by rewrite Z.opp_involutive.
    - rewrite (Z.sgn_pos a), (Z.sgn_neg b) by lia.
      replace (1 * -1 * m) with (- m) by lia. rewrite Hneg.
      rewrite (Z.abs_eq a), (Z.abs_neq b) by lia.
      rewrite <- (Z.div_opp_opp a b) by lia. reflexivity.
    - rewrite (Z.sgn_pos a), (Z.sgn_pos b) by lia.
      replace (1 * 1 * m) with m by lia. rewrite Hpos.
      by rewrite (Z.abs_eq a), (Z.abs_eq b) by lia. }
  destruct (Z.leb_spec 0 (l - 52)).
  - replace (l - 52) with 0 by lia. replace (52 - l) with 0 in Hgoal by lia.
    rewrite Z.pow_0_r, Z.div_1_r in Hgoal. rewrite Z.pow_0_r, Z.mul_1_r.
    exact Hgoal.
  - replace (- (l - 52)) with (52 - l) by lia. exact Hgoal.
Qed.

Lemma lua_tokensToAdd_safe timePassed refillRate interval :
  safe_integer (timePassed * refillRate) -> interval <> 0 ->
  lua_tokensToAdd timePassed refillRate interval
  = timePassed * refillRate / interval.
Proof.
  intros Hsafe Hi. unfold lua_tokensToAdd.
  rewrite (lua_mul_exact _ _ Hsafe). by apply lua_floor_div_exact.
Qed.

(** X29. As long as the product [(now - lastRefill) * refillRate] is a safe
    integer and the interval is not 0, the refill that Lua computes in
    doubles, [math.floor (timePassed * refillRate / interval)], is the exact
    floor of the quotient, so that the refilled count of the embedding is
    the count the script computes. *)
Theorem refilled_as_lua_computes capacity interval refillRate now tokens
    lastRefill :
  safe_integer ((now - lastRefill) * refillRate) ->
  interval <> 0 ->
  lua_tokensToAdd (now - lastRefill) refillRate interval
  = (now - lastRefill) * refillRate / interval
  /\ refilled capacity interval refillRate now tokens lastRefill
     = Z.min capacity
         (tokens + lua_tokensToAdd (now - lastRefill) refillRate interval).
Proof.
  intros Hsafe Hi. unfold refilled.
  by rewrite (lua_tokensToAdd_safe _ _ _ Hsafe Hi).
Qed.

Lemma refilled_as_lua_computes_witness :
  lua_tokensToAdd (7000 - 5000) 100000 21600000 = 9
  /\ refilled 100000 21600000 100000 7000 50000 5000
     = Z.min 100000 (50000 + lua_tokensToAdd (7000 - 5000) 100000 21600000).
Proof.
  exact (refilled_as_lua_computes 100000 21600000 100000 7000 50000 5000
           eq_refl ltac:(discriminate)).
Defined.

(** Beyond the safe range the two part: Lua rounds the product, and the
    quotient comes out one higher than the exact floor, or, a whole
    interval after the last refill at the default rate, one short of the
    capacity. *)
Example lua_tokensToAdd_rounds :
  lua_tokensToAdd 58742857 1000000007 86400000 = 679894183
  /\ 58742857 * 1000000007 / 86400000 = 679894182
  /\ lua_tokensToAdd 6806441 1486393353 6806441 = 1486393352.
Proof. vm_compute. done. Qed.
